(** * Sentence splitting and keyword sampling of [instructions_util.py]

    A shallow embedding of [lm_eval/tasks/ifeval_mt/instructions_util.py]:
    Python strings are lists of Unicode code points, the [re] patterns of
    the module are terms of a small regular-expression type run by a
    backtracking matcher, and the calls that can raise return a [result]. *)

From Stdlib Require Import Ascii String.
From Stdlib Require Import List NArith ZArith Bool Lia Arith Permutation.
Import ListNotations.

Set Implicit Arguments.

(** ** Python strings *)

Module Py.

(** A character is a code point, a [str] a sequence of them. *)
Definition char := N.
Definition str := list char.

(** Exceptions the modelled calls can raise. *)
Inductive exn :=
| ReError      (* re.error: invalid group reference in a template *)
| ValueError.  (* random.sample: sample larger than population or negative *)

Inductive result (A : Type) :=
| Ok (a : A)
| Raise (e : exn).
Arguments Ok {A} a.
Arguments Raise {A} e.

Definition bind {A B} (m : result A) (f : A -> result B) : result B :=
  match m with
  | Ok a => f a
  | Raise e => Raise e
  end.

(** Source literals are UTF-8 text; [utf8] reads one as code points. *)
Fixpoint bytes_of (s : string) : list N :=
  match s with
  | EmptyString => []
  | String a s' => N_of_ascii a :: bytes_of s'
  end.

Definition cont (b : N) : N := N.land b 63.

Fixpoint decode (b : list N) : str :=
  match b with
  | [] => []
  | b0 :: r =>
      if (b0 <? 128)%N then b0 :: decode r
      else if (b0 <? 224)%N then
        match r with
        | b1 :: r' =>
            N.lor (N.shiftl (N.land b0 31) 6) (cont b1) :: decode r'
        | _ => []
        end
      else if (b0 <? 240)%N then
        match r with
        | b1 :: b2 :: r' =>
            N.lor (N.shiftl (N.land b0 15) 12)
              (N.lor (N.shiftl (cont b1) 6) (cont b2)) :: decode r'
        | _ => []
        end
      else
        match r with
        | b1 :: b2 :: b3 :: r' =>
            N.lor (N.shiftl (N.land b0 7) 18)
              (N.lor (N.shiftl (cont b1) 12)
                 (N.lor (N.shiftl (cont b2) 6) (cont b3))) :: decode r'
        | _ => []
        end
  end.

Definition utf8 (s : string) : str := decode (bytes_of s).
Arguments utf8 s%_string.

(** The characters [str.strip()] removes and [\s] matches: CPython's
    [Py_UNICODE_ISSPACE]. *)
Definition is_space (c : char) : bool :=
  ((9 <=? c) && (c <=? 13) || (28 <=? c) && (c <=? 32)
   || (c =? 133) || (c =? 160) || (c =? 5760)
   || (8192 <=? c) && (c <=? 8202)
   || (c =? 8232) || (c =? 8233) || (c =? 8239) || (c =? 8287)
   || (c =? 12288))%N.

Fixpoint lstrip (s : str) : str :=
  match s with
  | c :: s' => if is_space c then lstrip s' else s
  | [] => []
  end.

Definition rstrip (s : str) : str := rev (lstrip (rev s)).

(** [s.strip()] *)
Definition strip (s : str) : str := rstrip (lstrip s).

(** [s.startswith(p)] *)
Fixpoint starts_with (p s : str) : bool :=
  match p, s with
  | [], _ => true
  | x :: p', y :: s' => (x =? y)%N && starts_with p' s'
  | _ :: _, [] => false
  end.

(** [sub in s] *)
Fixpoint contains (sub s : str) : bool :=
  starts_with sub s ||
  match s with
  | [] => false
  | _ :: s' => contains sub s'
  end.

(** [s.replace(old, new)] for a non-empty [old]: occurrences are taken
    left to right and do not overlap; [skip] counts the characters of
    the current occurrence that are still to be passed over. *)
Fixpoint replace_go (old new s : str) (skip : nat) : str :=
  match s with
  | [] => []
  | c :: s' =>
      match skip with
      | S k => replace_go old new s' k
      | O =>
          if starts_with old s
          then new ++ replace_go old new s' (length old - 1)
          else c :: replace_go old new s' 0
      end
  end.

Definition replace (old new s : str) : str := replace_go old new s 0.

(** [s.split(sep)] for a non-empty [sep]. *)
Fixpoint split_go (sep s : str) (skip : nat) : list str :=
  match s with
  | [] => [[]]
  | c :: s' =>
      match skip with
      | S k => split_go sep s' k
      | O =>
          if starts_with sep s
          then [] :: split_go sep s' (length sep - 1)
          else
            match split_go sep s' 0 with
            | piece :: rest => (c :: piece) :: rest
            | [] => [[c]]
            end
      end
  end.

Definition split (sep s : str) : list str := split_go sep s 0.

(** [sep.join(l)] *)
Fixpoint join (sep : str) (l : list str) : str :=
  match l with
  | [] => []
  | [x] => x
  | x :: l' => x ++ sep ++ join sep l'
  end.

(** [s * n] *)
Fixpoint times (s : str) (n : nat) : str :=
  match n with
  | O => []
  | S n' => s ++ times s n'
  end.

End Py.

Import Py.
Notation "x <- m ;; k" := (bind m (fun x => k))
  (at level 61, m at next level, right associativity).

(** ** The fragment of [re] the module uses *)

Module Re.

(** Character sets: a literal, a range, a union of sets, and [\s]. *)
Inductive cclass :=
| CChar (c : char)
| CRange (lo hi : char)
| CUnion (a b : cclass)
| CSpace.

Fixpoint cmatch (k : cclass) (c : char) : bool :=
  match k with
  | CChar x => (c =? x)%N
  | CRange lo hi => ((lo <=? c) && (c <=? hi))%N
  | CUnion a b => cmatch a c || cmatch b c
  | CSpace => is_space c
  end.

(** Patterns.  [RGroup] is a capturing group; groups are numbered by
    their opening parenthesis, as [re] does.  [RRep k n] is [k{n,}]. *)
Inductive regex :=
| REps
| RChar (k : cclass)
| RSeq (r1 r2 : regex)
| RAlt (r1 r2 : regex)
| RGroup (r : regex)
| ROpt (r : regex)
| RRep (k : cclass) (n : nat).

Fixpoint ngroups (r : regex) : nat :=
  match r with
  | REps | RChar _ | RRep _ _ => 0
  | RSeq r1 r2 | RAlt r1 r2 => ngroups r1 + ngroups r2
  | RGroup r => S (ngroups r)
  | ROpt r => ngroups r
  end.

(** Captured groups, latest first. *)
Definition caps := list (nat * str).

(** Greedy repetition of one character set: longest run first. *)
Fixpoint rep_matches (k : cclass) (n : nat) (s : str) : list (str * str) :=
  match s with
  | x :: s' =>
      if cmatch k x
      then map (fun ms => (x :: fst ms, snd ms)) (rep_matches k (pred n) s')
      else []
  | [] => []
  end ++ (if (n =? 0)%nat then [([], s)] else []).

(** All ways [r] matches a prefix of [s], in the order a backtracking
    matcher tries them: (matched text, remaining text, captures).
    [base] is the number of groups opened to the left of [r]. *)
Fixpoint rmatch (r : regex) (base : nat) (s : str) (cs : caps)
  : list (str * str * caps) :=
  match r with
  | REps => [([], s, cs)]
  | RChar k =>
      match s with
      | x :: s' => if cmatch k x then [([x], s', cs)] else []
      | [] => []
      end
  | RSeq r1 r2 =>
      flat_map
        (fun a =>
           map (fun b => (fst (fst a) ++ fst (fst b), snd (fst b), snd b))
             (rmatch r2 (base + ngroups r1) (snd (fst a)) (snd a)))
        (rmatch r1 base s cs)
  | RAlt r1 r2 => rmatch r1 base s cs ++ rmatch r2 (base + ngroups r1) s cs
  | RGroup r =>
      map (fun a => (fst (fst a), snd (fst a), (S base, fst (fst a)) :: snd a))
        (rmatch r (S base) s cs)
  | ROpt r => rmatch r base s cs ++ [([], s, cs)]
  | RRep k n => map (fun ms => (fst ms, snd ms, cs)) (rep_matches k n s)
  end.

(** The match [re] reports at the start of [s]: the first one. *)
Definition match_at (r : regex) (s : str) : option (str * str * caps) :=
  hd_error (rmatch r 0 s []).

(** [match.group(i)] inside a template: an unmatched group is empty. *)
Fixpoint group (cs : caps) (i : nat) : str :=
  match cs with
  | [] => []
  | (j, m) :: cs' => if (i =? j)%nat then m else group cs' i
  end.

(** Replacement templates: literal text and [\i] references. *)
Inductive titem :=
| Lit (s : str)
| Ref (i : nat).

Definition expand (t : list titem) (cs : caps) : str :=
  flat_map (fun it => match it with Lit s => s | Ref i => group cs i end) t.

(** A template may only name groups the pattern has. *)
Definition valid_template (r : regex) (t : list titem) : bool :=
  forallb (fun it => match it with
                     | Lit _ => true
                     | Ref i => (1 <=? i)%nat && (i <=? ngroups r)%nat
                     end) t.

(** The second argument of [re.sub]: a template or a function of the
    matched text ([match.group(0)]). *)
Inductive repl :=
| Template (t : list titem)
| Callable (f : str -> str).

Definition apply_repl (rp : repl) (m : str) (cs : caps) : str :=
  match rp with
  | Template t => expand t cs
  | Callable f => f m
  end.

(** The scan of [re.sub] for patterns that match at least one character
    (every pattern of the module does, see [patterns_need_period]):
    leftmost match first, the scan resumes where the match ended. *)
Fixpoint sub_go (r : regex) (rp : repl) (s : str) (skip : nat) : str :=
  match s with
  | [] => []
  | c :: s' =>
      match skip with
      | S k => sub_go r rp s' k
      | O =>
          match match_at r s with
          | Some (m, _, cs) =>
              apply_repl rp m cs ++ sub_go r rp s' (length m - 1)
          | None => c :: sub_go r rp s' 0
          end
      end
  end.

(** [re.sub(r, rp, s)]; the template is checked before the scan. *)
Definition sub (r : regex) (rp : repl) (s : str) : result str :=
  match rp with
  | Template t =>
      if valid_template r t then Ok (sub_go r rp s 0) else Raise ReError
  | Callable _ => Ok (sub_go r rp s 0)
  end.

(** Pattern builders. *)
Fixpoint lit (s : str) : regex :=
  match s with
  | [] => REps
  | c :: s' => RSeq (RChar (CChar c)) (lit s')
  end.

Fixpoint alts (l : list regex) : regex :=
  match l with
  | [] => REps
  | [r] => r
  | r :: l' => RAlt r (alts l')
  end.

Fixpoint cat (l : list regex) : regex :=
  match l with
  | [] => REps
  | [r] => r
  | r :: l' => RSeq r (cat l')
  end.

End Re.

Import Re.

(** ** [split_into_sentences] *)

Definition chr (a : ascii) : char := N_of_ascii a.
Arguments chr a%_char.

(** The straight double quote, the curly closing quote and the newline. *)
Definition dquote : char := 34%N.
Definition cquote : char := 8221%N.
Definition newline : char := 10%N.

(** [[.]] *)
Definition dot : regex := RChar (CChar (chr ".")).

(** The two markers the passes write into the text. *)
Definition prd : str := utf8 "<prd>".
Definition stop : str := utf8 "<stop>".

Definition _ALPHABETS : regex :=
  RGroup (RChar (CUnion (CRange (chr "A") (chr "Z")) (CRange (chr "a") (chr "z")))).

Definition _PREFIXES : regex :=
  cat [RGroup (alts (map lit [utf8 "Herra"; utf8 "St"; utf8 "Rouva";
                               utf8 "Neiti"; utf8 "Dr"]));
       dot].

Definition _SUFFIXES : regex :=
  RGroup (alts (map lit [utf8 "Inc"; utf8 "Ltd"; utf8 "Jr"; utf8 "Sr";
                         utf8 "Co"; utf8 "Oy"])).

Definition ws (s : str) : regex := cat [lit s; RChar CSpace].

Definition _STARTERS : regex :=
  RGroup (alts [lit (utf8 "Herra"); lit (utf8 "Rouva"); lit (utf8 "Neiti");
                lit (utf8 "Tohtori"); lit (utf8 "Profi");
                lit (utf8 "Kapteeni"); lit (utf8 "Kpt"); lit (utf8 "Luttn");
                ws (utf8 "Hän"); ws (utf8 "Se"); ws (utf8 "He");
                ws (utf8 "Heidän"); lit (utf8 "Meidän"); ws (utf8 "Me");
                ws (utf8 "Mutta"); ws (utf8 "Kuitenkin"); ws (utf8 "Tämä");
                lit (utf8 "Missä tahansa")]).

Definition upper : regex := RChar (CRange (chr "A") (chr "Z")).

Definition _ACRONYMS : regex :=
  RGroup (cat [upper; dot; upper; dot; ROpt (cat [upper; dot])]).

Definition _WEBSITES : regex :=
  cat [dot;
       RGroup (alts (map lit [utf8 "com"; utf8 "net"; utf8 "org"; utf8 "io";
                               utf8 "gov"; utf8 "edu"; utf8 "me"; utf8 "fi";
                               utf8 "eu"]))].

Definition _DIGITS : regex := RGroup (RChar (CRange (chr "0") (chr "9"))).

Definition _MULTIPLE_DOTS : regex := RRep (CChar (chr ".")) 2.

(** The passes, one per statement of the source, in its order. *)

Definition pad (text : str) : str := utf8 " " ++ text ++ utf8 "  ".

Definition pass_newlines (text : str) : str :=
  replace [newline] (utf8 " ") text.

Definition pass_prefixes (text : str) : result str :=
  sub _PREFIXES (Template [Ref 1; Lit prd]) text.

Definition pass_websites (text : str) : result str :=
  sub _WEBSITES (Template [Lit prd; Ref 1]) text.

Definition pass_digits (text : str) : result str :=
  sub (cat [_DIGITS; dot; _DIGITS]) (Template [Ref 1; Lit prd; Ref 2]) text.

Definition pass_ellipsis (text : str) : result str :=
  sub _MULTIPLE_DOTS (Callable (fun m => times prd (length m) ++ stop)) text.

Definition pass_phd (text : str) : str :=
  if contains (utf8 "Ph.D") text
  then replace (utf8 "Ph.D.") (utf8 "Ph<prd>D<prd>") text
  else text.

Definition pass_initial (text : str) : result str :=
  sub (cat [RChar CSpace; _ALPHABETS; dot; lit (utf8 " ")])
    (Template [Lit (utf8 " "); Ref 1; Lit (utf8 "<prd> ")]) text.

Definition pass_acronym_starter (text : str) : result str :=
  sub (cat [_ACRONYMS; lit (utf8 " "); _STARTERS])
    (Template [Ref 1; Lit (utf8 "<stop> "); Ref 2]) text.

Definition pass_abbrev3 (text : str) : result str :=
  sub (cat [_ALPHABETS; dot; _ALPHABETS; dot; _ALPHABETS; dot])
    (Template [Ref 1; Lit prd; Ref 2; Lit prd; Ref 3; Lit prd]) text.

Definition pass_abbrev2 (text : str) : result str :=
  sub (cat [_ALPHABETS; dot; _ALPHABETS; dot])
    (Template [Ref 1; Lit prd; Ref 2; Lit prd]) text.

Definition pass_suffix_starter (text : str) : result str :=
  sub (cat [lit (utf8 " "); _SUFFIXES; dot; lit (utf8 " "); _STARTERS])
    (Template [Lit (utf8 " "); Ref 1; Lit (utf8 "<stop> "); Ref 2]) text.

Definition pass_suffix (text : str) : result str :=
  sub (cat [lit (utf8 " "); _SUFFIXES; dot])
    (Template [Lit (utf8 " "); Ref 1; Lit prd]) text.

Definition pass_letter (text : str) : result str :=
  sub (cat [lit (utf8 " "); _ALPHABETS; dot])
    (Template [Lit (utf8 " "); Ref 1; Lit prd]) text.

Definition swap_curly_dot (text : str) : str :=
  if contains [cquote] text
  then replace [chr "."; cquote] [cquote; chr "."] text
  else text.

Definition swap_straight_dot (text : str) : str :=
  if contains [dquote] text
  then replace [chr "."; dquote] [dquote; chr "."] text
  else text.

Definition swap_straight_bang (text : str) : str :=
  if contains (utf8 "!") text
  then replace [chr "!"; dquote] [dquote; chr "!"] text
  else text.

Definition swap_straight_qmark (text : str) : str :=
  if contains (utf8 "?") text
  then replace [chr "?"; dquote] [dquote; chr "?"] text
  else text.

(** The four quote statements together. *)
Definition pass_quotes (text : str) : str :=
  swap_straight_qmark
    (swap_straight_bang (swap_straight_dot (swap_curly_dot text))).

(** The three [replace] calls that put [<stop>] after each terminal. *)
Definition mark_boundaries (text : str) : str :=
  replace (utf8 "!") (utf8 "!<stop>")
    (replace (utf8 "?") (utf8 "?<stop>")
       (replace (utf8 ".") (utf8 ".<stop>") text)).

Definition restore (text : str) : str := replace prd (utf8 ".") text.

(** [sentences[:-1]] when the last piece is empty. *)
Definition drop_empty_last (sentences : list str) : list str :=
  match rev sentences with
  | [] :: r => rev r
  | _ => sentences
  end.

(** The split, the strip of every piece and the drop of an empty last
    piece. *)
Definition finish (text : str) : list str :=
  drop_empty_last (map strip (split stop text)).

(** The protection passes, from the prefix rule to the single-letter
    rule. *)
Definition protect (text : str) : result str :=
  text <- pass_prefixes text ;;
  text <- pass_websites text ;;
  text <- pass_digits text ;;
  text <- pass_ellipsis text ;;
  text <- pass_initial (pass_phd text) ;;
  text <- pass_acronym_starter text ;;
  text <- pass_abbrev3 text ;;
  text <- pass_abbrev2 text ;;
  text <- pass_suffix_starter text ;;
  text <- pass_suffix text ;;
  pass_letter text.

Definition split_into_sentences (text : str) : result (list str) :=
  text <- protect (pass_newlines (pad text)) ;;
  Ok (finish (restore (mark_boundaries (pass_quotes text)))).

(** ** [generate_keywords] *)

(** [WORD_LIST], in the order of the source. *)
Definition WORD_LIST : list str := map utf8 [
   "länsimainen"; "tuomita"; "signaali"; "kaatopaikka"; "paikalla";
   "vastapäätä"; "pohja"; "peruna"; "hallinto"; "työskentelee"; "tervetuloa";
   "aamu"; "hyvä"; "virasto"; "ensisijainen"; "toivoa"; "vastuuta"; "paina";
   "ongelma"; "presidentti"; "varastaa"; "harjata"; "lukea"; "tyyppi";
   "lyödä"; "kouluttaja"; "kasvu"; "lukko"; "luuta"; "tapaus"; "yhtäläinen";
   "mukava"; "alueella"; "korvaaminen"; "suorituskykyä"; "kaveri"; "kävellä";
   "lääke"; "elokuva"; "asia"; "rock"; "napauta"; "kokonais-"; "kilpailua";
   "helppous"; "etelään"; "perustaminen"; "kerätä"; "pysäköinti"; "maailman-";
   "paljon"; "hengitys"; "väittää"; "alkoholia"; "kauppaa"; "rakas";
   "kohokohta"; "katu"; "asia"; "päätös"; "sotku"; "sopimus"; "studio";
   "valmentaja"; "auttaa"; "aivot"; "siipi"; "tyyli"; "yksityinen"; "alkuun";
   "ruskea"; "jalka"; "ostaa"; "menettelyä"; "menetelmä"; "nopeus"; "korkea";
   "yritys"; "arvokasta"; "piirakka"; "analyytikko"; "istunto"; "kuvio";
   "piiri"; "ilo"; "päivällinen"; "uima"; "vitsi"; "tilata"; "levy"; "osasto";
   "moottori"; "solu"; "viettää"; "kaappi"; "ero"; "tehoa"; "tutkimus";
   "moottori"; "hevonen"; "ulottuvuus"; "maksaa"; "varvas"; "käyrä";
   "kirjallisuus"; "vaivautua"; "palo"; "mahdollisuus"; "keskustelu";
   "toimintaa"; "kulku"; "Hei"; "sykli"; "tausta"; "hiljainen"; "kirjoittaja";
   "vaikutus"; "näyttelijä"; "sivu"; "polkupyörä"; "virhe"; "kurkku";
   "hyökkäys"; "merkki"; "puhelin"; "teetä"; "lisätä"; "tulokset"; "tiedosto";
   "erityisiä"; "tarkastaja"; "sisäinen"; "potentiaalia"; "henkilöstöä";
   "rakentaminen"; "työnantaja"; "kenkä"; "käsi"; "suunta"; "puutarha";
   "ostaa"; "haastatella"; "opiskella"; "tunnustaminen"; "jäsen"; "henkistä";
   "uuni"; "voileipä"; "outo"; "matkustaja"; "erityisesti"; "vastaus";
   "reaktio"; "koko"; "vaihtelua"; "a"; "peruuttaa"; "karkkia"; "poistu";
   "vieras"; "kunto"; "lentää"; "hinta"; "heikkous"; "muuntaa"; "hotelli";
   "hienoa"; "suuhun"; "mieleen"; "laulu"; "sokeria"; "epäilty"; "puhelin";
   "korva"; "katto"; "maali"; "jääkaappi"; "organisaatio"; "tuomaristo";
   "palkita"; "suunnittelu"; "päivä"; "hallinta"; "miehistö"; "baari"; "tie";
   "kuvaus"; "juhla"; "pisteet"; "merkki"; "kirje"; "suihku"; "ehdotus";
   "sir"; "onnea"; "kansallinen"; "edistystä"; "sali"; "aivohalvaus";
   "teoria"; "tarjous"; "tarina"; "verottaa"; "määritelmä"; "historia";
   "ratsastaa"; "keskikokoinen"; "avaaminen"; "lasi"; "Hissi"; "vatsa";
   "kysymys"; "kyky"; "johtava"; "kylä"; "tietokone"; "kaupunki"; "suuri";
   "luottamusta"; "kynttilä"; "pappi"; "suositus"; "kohta"; "tarpeellista";
   "kehon"; "vastaanotto"; "salaisuus"; "kauhu"; "melua"; "kulttuuri";
   "Varoitus"; "vettä"; "pyöristää"; "ruokavalio"; "kukka"; "linja-auto";
   "kova"; "lupa"; "viikko"; "kehote"; "yhteys"; "väärinkäyttö"; "korkeus";
   "tallentaa"; "nurkkaan"; "rajaa"; "korostaa"; "ajaa"; "stop"; "repiä";
   "ateria"; "kuunnella"; "hämmennystä"; "tyttöystävä"; "elävät"; "suhde";
   "merkitys"; "suunnitelma"; "luova"; "tunnelmaa"; "syyttää"; "kutsua";
   "asuminen"; "paperia"; "juoda"; "rullaa"; "hopea"; "humalassa"; "ikä";
   "vahingoittaa"; "savu"; "ympäristöön"; "pakata"; "säästöjä"; "vaikutus";
   "turisti"; "sade"; "lähettää"; "merkki"; "isoäiti"; "juosta"; "voittoa";
   "työnnä"; "virkailija"; "lopullinen"; "viiniä"; "uida"; "tauko"; "tavaraa";
   "laulaja"; "hautajaiset"; "keskimäärin"; "lähde"; "näkymä"; "perinne";
   "henkilökohtainen"; "lumi"; "kukaan"; "etäisyys"; "järjestellä"; "herkkä";
   "eläin"; "pääaine"; "neuvottelu"; "napsauta"; "mielialaa"; "ajanjaksoa";
   "saapuminen"; "ilmaisua"; "loma"; "toistaa"; "pöly"; "vaatekaappi";
   "kulta"; "huono"; "purjehtia"; "yhdistelmä"; "vaatteet"; "painotus";
   "velvollisuus"; "musta"; "askel"; "kouluun"; "hypätä"; "asiakirja";
   "ammattilainen"; "huuli"; "kemiallinen"; "edessä"; "herätä"; "samalla kun";
   "sisällä"; "katsella"; "rivi"; "aihe"; "rangaistus"; "saldo";
   "mahdollista"; "aikuinen"; "sivuun"; "näyte"; "valittaa"; "häät"; "syvyys";
   "kuningas"; "myöntää"; "vaimo"; "isku"; "sivusto"; "leiri"; "musiikkia";
   "turvallinen"; "lahja"; "vika"; "arvaus"; "toimia"; "häpeä"; "draama";
   "pääomaa"; "tentti"; "tyhmä"; "tallentaa"; "ääni"; "swing"; "romaani";
   "minimi"; "suhde"; "kone"; "muoto"; "johtaa"; "toimintaa"; "palkkaa";
   "pilvi"; "asia"; "osuma"; "luku"; "vaiheessa"; "määrä"; "pääsy"; "armeija";
   "ketju"; "liikennettä"; "potkia"; "analyysi"; "lentokenttä"; "aika";
   "loma"; "filosofia"; "pallo"; "rinnassa"; "Kiitos"; "paikka"; "vuori";
   "mainonta"; "punainen"; "mennyt"; "vuokrata"; "palata"; "kiertue"; "talo";
   "rakentaminen"; "net"; "syntyperäinen"; "sota"; "kuva"; "maksu"; "spray";
   "käyttäjä"; "lika"; "ammuttu"; "tehtävä"; "keppi"; "ystävä"; "ohjelmisto";
   "edistäminen"; "vuorovaikutusta"; "surround"; "lohko"; "tarkoitus";
   "harjoitella"; "konflikti"; "rutiini"; "vaatimus"; "bonus"; "reikä";
   "osavaltio"; "juniori"; "makea"; "saalis"; "repiä"; "taita"; "seinään";
   "toimittaja"; "elämää"; "asema"; "punta"; "kunnioittaminen"; "kylpyhuone";
   "takki"; "käsikirjoitus"; "job"; "opettaa"; "syntymästä"; "näkymä";
   "ratkaista"; "teema"; "työntekijä"; "epäillä"; "markkinoida"; "koulutus";
   "palvella"; "toipua"; "sävy"; "vahingoittaa"; "neiti"; "liitto";
   "ymmärtäminen"; "lehmä"; "joki"; "yhdistys"; "käsite"; "koulutusta";
   "resepti"; "suhdetta"; "varata"; "masennus"; "todiste"; "hiukset";
   "tuloja"; "riippumaton"; "hissi"; "toimeksianto"; "väliaikaista"; "määrä";
   "menetys"; "reuna"; "seurata"; "tarkista"; "köysi"; "arvio"; "saastuminen";
   "vakaa"; "viesti"; "toimitus"; "näkökulmasta"; "peili"; "avustaja";
   "edustaja"; "todistaja"; "luonto"; "tuomari"; "hedelmää"; "kärki";
   "paholainen"; "kaupunki"; "hätätilanteessa"; "ylempi"; "pudota"; "pysyä";
   "ihmisen"; "kaula"; "puhuja"; "verkkoon"; "laulaa"; "vastustaa";
   "liigassa"; "matka"; "allekirjoitus"; "lakimies"; "merkitys"; "kaasua";
   "valinta"; "insinööri"; "menestys"; "osa"; "ulkoinen"; "työntekijä";
   "yksinkertainen"; "neljännes"; "opiskelija"; "sydän"; "syöttö";
   "paheksuntaa"; "siirtää"; "karkea"; "nainen"; "ruoho"; "yhteisöä";
   "autotalli"; "nuoriso"; "standardi"; "hame"; "lupaus"; "sokea";
   "televisio"; "sairaus"; "komissio"; "positiivinen"; "energiaa";
   "rauhallinen"; "läsnäolo"; "virittää"; "perusteella"; "etusija"; "pää";
   "yleinen"; "leikata"; "jonnekin"; "esittely"; "nykyinen"; "ajatteli";
   "vallankumous"; "vaivaa"; "hallita"; "toteuttaa"; "tasavalta"; "kerros";
   "periaate"; "muukalainen"; "olkapää"; "luokka"; "painiketta"; "tennis";
   "valvoa"; "kokoelma"; "tili"; "rekisteröidy"; "käsine"; "jakaa";
   "professori"; "tuoli"; "etusijalla"; "yhdistää"; "rauhaa"; "laajennus";
   "ehkä"; "ilta"; "kehys"; "sisko"; "aalto"; "koodi"; "sovellus"; "hiiri";
   "ottelu"; "laskuri"; "pullo"; "puoli"; "poski"; "resoluutio"; "takaisin";
   "tietoa"; "tehdä"; "keskustelua"; "ruuvi"; "pituus"; "onnettomuus";
   "taistelu"; "pukeutua"; "polvi"; "loki"; "paketti"; "se"; "käännä";
   "kuulo"; "sanomalehti"; "kerros"; "varallisuus"; "profiili";
   "mielikuvitus"; "vastaus"; "viikonloppu"; "opettaja"; "ulkonäkö"; "tavata";
   "pyörä"; "nousta"; "vyö"; "kaatua"; "kulho"; "vastaava"; "tukea"; "kuva";
   "runo"; "riskiä"; "jännitystä"; "kaukana"; "sihteeri"; "julkinen";
   "tuottaa"; "kone"; "näyttö"; "rahaa"; "hiekka"; "tilanne"; "booli";
   "asiakas"; "otsikko"; "ravista"; "kiinnitys"; "vaihtoehto"; "määrä"; "pop";
   "ikkuna"; "laajuus"; "ei mitään"; "kokea"; "lausunto"; "lähtöä"; "tanssi";
   "osoitus"; "poika"; "materiaalia"; "bändi"; "johtaja"; "aurinko"; "kaunis";
   "lihas"; "maanviljelijä"; "lajike"; "rasvaa"; "kahva"; "johtaja";
   "mahdollisuus"; "kalenteri"; "ulkopuolella"; "vauhti"; "kylpy"; "kalastaa";
   "seurauksena"; "laittaa"; "omistaja"; "mennä"; "lääkäri"; "tiedot";
   "jakaa"; "satuttaa"; "suojaa"; "ura"; "rahoitusta"; "pakottaa"; "golf";
   "roskat"; "näkökohta"; "lapsi"; "ruokaa"; "boot"; "maitoa"; "vastata";
   "tavoite"; "todellisuutta"; "raaka"; "rengas"; "ostoskeskus"; "yksi";
   "vaikutus"; "alueella"; "uutiset"; "kansainvälinen"; "sarja"; "tehdä";
   "äiti"; "suojaa"; "lakko"; "lainata"; "kuukausi"; "istuin"; "mitään";
   "viihde"; "tuttua"; "vihje"; "vuosi"; "iloinen"; "supermarket";
   "luonnollinen"; "jumala"; "maksaa"; "keskustelu"; "solmio"; "pilata";
   "mukavuus"; "maata"; "myrsky"; "prosentteina"; "apua"; "budjetti";
   "vahvuus"; "alku"; "nukkua"; "muu"; "nuori"; "yksikkö"; "täyttää";
   "tallentaa"; "halu"; "piilottaa"; "arvo"; "kuppi"; "huolto";
   "sairaanhoitaja"; "toiminto"; "torni"; "rooli"; "luokkaa"; "kamera";
   "tietokanta"; "paniikki"; "kansakunta"; "kori"; "jäätä"; "taide"; "henki";
   "kartoittaa"; "vaihtaa"; "palautetta"; "lausunto"; "maine"; "haku";
   "metsästää"; "käyttää"; "ilkeä"; "huomautus"; "uros"; "piha"; "vuosittain";
   "kaulus"; "päivämäärä"; "alusta"; "kasvi"; "onni"; "intohimo"; "ystävyys";
   "levitän"; "syöpä"; "lippu"; "asenne"; "saari"; "aktiivinen"; "esine";
   "palvelua"; "ostaja"; "purra"; "kortti"; "kasvot"; "pihvi"; "ehdotus";
   "kärsivällinen"; "lämpöä"; "sääntö"; "asukas"; "laaja"; "politiikka";
   "länteen"; "veitsi"; "asiantuntija"; "tyttö"; "design"; "suolaa";
   "baseball"; "napata"; "tarkastus"; "serkku"; "pari"; "lehti"; "kokki";
   "riippuvainen"; "turvallisuus"; "kana"; "versio"; "valuutta"; "tikapuut";
   "järjestelmä"; "keittiö"; "työllisyyttä"; "paikallinen"; "Huomio";
   "johtaja"; "tosiasia"; "kansi"; "surullinen"; "vartija"; "suhteellinen";
   "lääni"; "korko"; "lounas"; "ohjelmoida"; "aloite"; "vaihde"; "silta";
   "rinta"; "puhua"; "ruokalaji"; "takuu"; "olut"; "ajoneuvoa"; "vastaanotto";
   "nainen"; "aine"; "kopioida"; "luento"; "etu"; "pysäköidä"; "kylmä";
   "kuolema"; "sekoita"; "pidä"; "mittakaavassa"; "huomenna"; "verta";
   "pyytää"; "vihreä"; "evästeen"; "kirkko"; "nauhat"; "ikuisesti";
   "pidemmälle"; "velkaa"; "puuttua"; "pestä"; "jälkeen"; "tuntea"; "maksimi";
   "alalla"; "meri"; "omaisuutta"; "taloustiede"; "valikosta"; "penkki";
   "yrittää"; "kieli"; "aloita"; "soittaa"; "kiinteä"; "osoite"; "tulot";
   "jalka"; "vanhempi"; "hunaja"; "muutama"; "seos"; "käteistä";
   "päivittäistavarakauppa"; "linkki"; "kartta"; "muodossa"; "tekijä";
   "potti"; "malli"; "kirjailija"; "maatilalla"; "talvi"; "taito"; "missä";
   "syntymäpäivä"; "politiikkaa"; "vapauttaa"; "aviomies"; "lab"; "kiire";
   "postia"; "laitteet"; "pesuallas"; "pari"; "kuljettaja"; "huomioon";
   "nahka"; "ihoa"; "sininen"; "vene"; "myyntiin"; "tiili"; "kaksi";
   "syöttää"; "neliö"; "piste"; "kiire"; "unelma"; "sijainti"; "iltapäivällä";
   "valmistaja"; "ohjata"; "tilaisuus"; "ongelmia"; "esittely"; "neuvoja";
   "veto"; "syödä"; "tappaa"; "luokkaan"; "tavalla"; "toimisto"; "kiinteistö";
   "ylpeys"; "tietoisuutta"; "lipsahdus"; "crack"; "asiakas"; "naulata";
   "ampua"; "jäsenyys"; "pehmeä"; "ketään"; "web"; "virallinen";
   "yksilöllinen"; "pizza"; "kiinnostaa"; "laukku"; "loitsu"; "ammatti";
   "kuningatar"; "sopimus"; "resurssi"; "laiva"; "kaveri"; "suklaa"; "liitos";
   "muodollinen"; "yläkerrassa"; "auto"; "lomakohde"; "ulkomailla";
   "jälleenmyyjä"; "liittolainen"; "sormi"; "leikkaus"; "kommentti";
   "joukkue"; "yksityiskohta"; "hullu"; "polku"; "tarina"; "ensimmäinen";
   "käsivarsi"; "radio"; "kysyntä"; "sinkku"; "piirtää"; "keltainen";
   "kilpailu"; "pala"; "lainata"; "Vedä"; "kaupallinen"; "paita"; "panos";
   "kerma"; "kanava"; "puku"; "kurinalaisuutta"; "ohje"; "konsertti";
   "puhetta"; "matala"; "tehokas"; "ripustaa"; "naarmuuntua"; "teollisuus";
   "aamiainen"; "antaa"; "liittyä"; "metalli"; "makuuhuone"; "minuutti";
   "tuote"; "levätä"; "lämpötila"; "monet"; "antaa"; "argumentti"; "painaa";
   "violetti"; "nauraa"; "terveys"; "luotto"; "investointi"; "myydä";
   "asetusta"; "oppitunti"; "muna"; "keskellä"; "avioliitto"; "taso";
   "todisteita"; "lause"; "rakkaus"; "itse"; "hyötyä"; "opastusta";
   "vaikuttaa"; "sinä"; "isä"; "ahdistusta"; "erityistä"; "poikaystävä";
   "testata"; "tyhjä"; "maksu"; "keitto"; "velvollisuus"; "vastata"; "hymy";
   "syvä"; "valitus"; "lisäys"; "arvostelu"; "laatikko"; "pyyhe";
   "alaikäinen"; "hauskaa"; "maaperää"; "antaa"; "savuke"; "netti"; "saada";
   "kertoa"; "sisääntulo"; "varaa"; "tapaus"; "perhe"; "kieltäytyä"; "haara";
   "voi"; "kynä"; "isoisä"; "vakio"; "säiliö"; "setä"; "ilmasto"; "maahan";
   "äänenvoimakkuutta"; "viestintää"; "kiltti"; "runoilija"; "lapsi";
   "näyttö"; "minun"; "lopettaa"; "geeni"; "puute"; "hyväntekeväisyys";
   "muisti"; "hammas"; "pelko"; "mainita"; "markkinointi"; "paljastaa"; "syy";
   "tuomioistuin"; "kausi"; "vapautta"; "maa"; "urheilu"; "yleisö";
   "luokkahuoneessa"; "lakia"; "koukku"; "voittaa"; "kantaa"; "silmä"; "haju";
   "jakelu"; "tutkimusta"; "maassa"; "uskaltaa"; "toivoa"; "kun"; "venyttää";
   "kirjasto"; "jos"; "viive"; "college"; "muovi"; "kirja"; "esittää";
   "käyttää"; "huoli"; "mestari"; "tavoite"; "taloutta"; "maaliskuuta";
   "vaaleissa"; "heijastus"; "keskiyöllä"; "liukumäki"; "inflaatio";
   "toimintaa"; "haaste"; "kitara"; "rannikolla"; "omena"; "kampanja"; "ala";
   "takki"; "järkeä"; "tapa"; "visuaalinen"; "poistaa"; "sää"; "roskakoriin";
   "kaapeli"; "katumusta"; "kaveri"; "ranta"; "historioitsija"; "rohkeutta";
   "myötätuntoa"; "kuorma-auto"; "jännitystä"; "lupa"; "nenä"; "vuode";
   "poika"; "henkilö"; "pohja"; "liha"; "tavallista"; "ilmaa"; "kokous";
   "arvoinen"; "peli"; "itsenäisyys"; "fyysistä"; "lyhyt"; "pelata"; "nostaa";
   "hallitus"; "hän"; "avain"; "kirjoittaminen"; "valita"; "komento";
   "juhliin"; "eilen"; "kevät"; "ehdokas"; "fysiikka"; "yliopisto"; "koskea";
   "kehitystä"; "muuttaa"; "merkkijono"; "tavoite"; "esimerkki"; "huone";
   "katkera"; "lintu"; "jalkapallo"; "normaali"; "jakaa"; "vaikutelma"; "puu";
   "pitkä"; "merkitys"; "varastossa"; "korkki"; "johtajuutta"; "media";
   "kunnianhimoa"; "kalastus"; "essee"; "salaatti"; "korjaus"; "tänään";
   "suunnittelija"; "yö"; "pankki"; "piirustus"; "väistämätön"; "vaihe";
   "laaja"; "siru"; "suututtaa"; "kytkin"; "itkeä"; "kierre";
   "persoonallisuus"; "yrittää"; "varastointi"; "oleminen"; "valmistelu";
   "bat"; "valinta"; "valkoinen"; "teknologiaa"; "sopimus"; "puolella";
   "osio"; "asemalle"; "asti"; "rakenne"; "kieli"; "maku"; "totuus";
   "vaikeus"; "ryhmä"; "rajoittaa"; "pää"; "liikkua"; "tunne"; "valoa";
   "esimerkki"; "tehtävää"; "saattaa"; "odota"; "pyörä"; "kauppa"; "isäntä";
   "klassinen"; "vaihtoehto"; "aiheuttaa"; "agentti"; "koostuvat"; "taulukko";
   "lentoyhtiö"; "teksti"; "allas"; "käsityö"; "alue"; "polttoainetta";
   "työkalu"; "kumppani"; "ladata"; "sisäänkäynti"; "tallettaa"; "vihaa";
   "artikla"; "video"; "kesä"; "ominaisuus"; "äärimmäinen"; "mobiili";
   "sairaala"; "lento"; "syksy"; "eläkettä"; "piano"; "epäonnistua"; "tulos";
   "hieroa"; "aukko"; "järjestelmä"; "raportti"; "imeä"; "tavallinen";
   "tuuli"; "hermo"; "kysyä"; "loistaa"; "huomautus"; "linja"; "äiti";
   "käsitys"; "veli"; "viite"; "mutka"; "veloittaa"; "hoitaa"; "temppu";
   "termi"; "kotitehtävät"; "leipoa"; "tarjous"; "status"; "hanke";
   "strategia"; "oranssi"; "anna"; "innostusta"; "vanhempi"; "keskittyä";
   "laite"; "matkustaa"; "runous"; "liiketoimintaa"; "yhteiskuntaan";
   "suudella"; "loppu"; "kasvis"; "käyttää"; "ajoittaa"; "tunnin"; "rohkea";
   "keskittyä"; "käsitellä"; "elokuva"; "laitonta"; "yleistä"; "kahvia";
   "ilmoitus"; "valtatie"; "kemia"; "psykologia"; "vuokraus"; "kello";
   "konferenssi"; "helpotus"; "show"; "siisti"; "hauska"; "paino"; "laatu";
   "klubi"; "tytär"; "vyöhyke"; "kosketa"; "tänä iltana"; "järkyttää";
   "polttaa"; "tekosyy"; "nimi"; "kyselyyn"; "maisema"; "etukäteen";
   "tyytyväisyys"; "leipää"; "katastrofi"; "kohde"; "hattu"; "ennen";
   "ostoksilla"; "vierailla"; "itään"; "kuva"; "kotiin"; "idea"; "isä";
   "vertailu"; "kissa"; "putki"; "voittaja"; "laskea"; "järvi"; "taistella";
   "palkinto"; "perusta"; "koira"; "pitää"; "ihanteellinen"; "tuuletin";
   "kamppailua"; "huippu"; "turvallisuutta"; "ratkaisu"; "helvetti";
   "johtopäätös"; "väestöstä"; "rasitusta"; "hälytys"; "mittaus"; "toinen";
   "kouluttaa"; "rotu"; "erääntyy"; "vakuutus"; "pomo"; "puu"; "seurata";
   "sairas"; "tietenkin"; "vetää"; "nimittäminen"; "viipale"; "edelleen";
   "hoito"; "kärsivällisyyttä"; "rikas"; "paeta"; "tunne"; "kuninkaallinen";
   "naaras"; "lapsuus"; "hallitus"; "kuva"; "tahtoa"; "sukka"; "iso";
   "portti"; "öljy"; "ylittää"; "pin"; "parantaminen"; "mestaruus"; "typerä";
   "auttaa"; "taivas"; "piki"; "mies"; "timantti"; "useimmat"; "siirtyminen";
   "työtä"; "tiede"; "komitea"; "hetki"; "korjata"; "opetusta"; "kaivaa";
   "asiantuntija"; "monimutkainen"; "opas"; "ihmiset"; "kuollut"; "ääni";
   "alkuperäinen"; "tauko"; "aihe"; "tiedot"; "tutkinnon"; "lukeminen";
   "tallennus"; "nippu"; "tavoittaa"; "tuomio"; "valehdella"; "säännöllinen";
   "sarja"; "maalaus"; "tila"; "lista"; "pelaaja"; "karhu"; "pohjoinen";
   "ihme"; "matto"; "raskas"; "upseeri"; "negatiivinen"; "kello";
   "ainutlaatuinen"; "vauva"; "kipu"; "oletus"; "levy"; "rauta"; "laskuttaa";
   "laatikko"; "Katso"; "kaksinkertainen"; "virhe"; "loppuun";
   "tulevaisuutta"; "loistava"; "ota yhteyttä"; "matematiikka"; "riisi";
   "lähteä"; "ravintola"; "alennus"; "seksiä"; "virus"; "bitti"; "luottaa";
   "tapahtuma"; "käyttää"; "mehu"; "epäonnistuminen"; "bugi"; "yhteydessä";
   "muta"; "koko"; "kääri"; "tarkoitus"; "luonnos"; "paine"; "kakku"; "tumma";
   "selitys"; "tilaa"; "kulma"; "sana"; "tehokkuutta"; "hallinta"; "tapa";
   "tähti"; "mahdollisuus"; "löytäminen"; "kuljetus"; "seisomaan";
   "kritiikkiä"; "virtaus"; "ovi"; "vahinkoa"; "hyönteinen"; "yllätys";
   "huoneisto"
  ]%string.

(** [random.sample(population, k)] belongs to Python's standard
    library, not to the repository.  It is modelled by what the library
    documents: [k] elements taken from [k] different positions of the
    population, and [ValueError] when [k] is negative or larger than
    the population.  The random choices are the parameter [rng]: the
    [i]-th element is drawn at position [rng i] modulo the size of what
    is left. *)
Definition remove_nth (A : Type) (j : nat) (pool : list A) : list A :=
  firstn j pool ++ skipn (S j) pool.

Fixpoint sample_go (A : Type) (rng : nat -> nat) (pool : list A)
  (i k : nat) : list A :=
  match k with
  | O => []
  | S k' =>
      match pool with
      | [] => []
      | d :: _ =>
          let j := rng i mod length pool in
          nth j pool d :: sample_go rng (remove_nth j pool) (S i) k'
      end
  end.

Definition sample (A : Type) (rng : nat -> nat) (population : list A)
  (k : Z) : result (list A) :=
  if ((k <? 0) || (Z.of_nat (length population) <? k))%Z
  then Raise ValueError
  else Ok (sample_go rng population 0 (Z.to_nat k)).

Definition generate_keywords (rng : nat -> nat) (num_keywords : Z)
  : result (list str) :=
  sample rng WORD_LIST num_keywords.

(** ** [count_words] *)

Section Words.

(** [str.isalnum] for one character: a table of the Unicode database,
    which Python brings along. *)
Variable is_alnum : char -> bool.

(** What [\w] matches in a [str] pattern: alphanumerics and '_'. *)
Definition is_word (c : char) : bool := is_alnum c || (c =? chr "_")%N.

(** [nltk.tokenize.RegexpTokenizer(r"\w+").tokenize(text)] belongs to
    nltk, not to the repository; for a pattern without gaps it returns
    [re.findall(r"\w+", text)]: the maximal runs of word characters,
    from left to right. *)
Fixpoint tokenize (text : str) : list str :=
  match text with
  | [] => []
  | c :: rest =>
      let tokens := tokenize rest in
      if is_word c then
        match rest, tokens with
        | d :: _, t :: ts =>
            if is_word d then (c :: t) :: ts else [c] :: tokens
        | _, _ => [c] :: tokens
        end
      else tokens
  end.

Definition count_words (text : str) : nat := length (tokenize text).

End Words.

(** ** [LANGUAGE_CODES] *)

(** The entries of the table, in the order of the source. *)
Definition LANGUAGE_CODES : list (str * str) :=
  [
   (utf8 "en", utf8 "English");
   (utf8 "es", utf8 "Spanish");
   (utf8 "pt", utf8 "Portuguese");
   (utf8 "ar", utf8 "Arabic");
   (utf8 "hi", utf8 "Hindi");
   (utf8 "fr", utf8 "French");
   (utf8 "ru", utf8 "Russian");
   (utf8 "de", utf8 "German");
   (utf8 "ja", utf8 "Japanese");
   (utf8 "it", utf8 "Italian");
   (utf8 "bn", utf8 "Bengali");
   (utf8 "uk", utf8 "Ukrainian");
   (utf8 "th", utf8 "Thai");
   (utf8 "ur", utf8 "Urdu");
   (utf8 "ta", utf8 "Tamil");
   (utf8 "te", utf8 "Telugu");
   (utf8 "bg", utf8 "Bulgarian");
   (utf8 "ko", utf8 "Korean");
   (utf8 "pl", utf8 "Polish");
   (utf8 "he", utf8 "Hebrew");
   (utf8 "fa", utf8 "Persian");
   (utf8 "vi", utf8 "Vietnamese");
   (utf8 "ne", utf8 "Nepali");
   (utf8 "sw", utf8 "Swahili");
   (utf8 "kn", utf8 "Kannada");
   (utf8 "mr", utf8 "Marathi");
   (utf8 "gu", utf8 "Gujarati");
   (utf8 "pa", utf8 "Punjabi");
   (utf8 "ml", utf8 "Malayalam");
   (utf8 "fi", utf8 "Finnish")
  ].

(** [LANGUAGE_CODES.get(code)] *)
Fixpoint lookup (table : list (str * str)) (code : str) : option str :=
  match table with
  | [] => None
  | (k, v) :: table' =>
      if list_eq_dec N.eq_dec k code then Some v else lookup table' code
  end.

(** ** Vocabulary of the statements *)

Unset Implicit Arguments.

(** The period, and the sign both markers start with. *)
Definition period : char := chr ".".

Definition lt_sign : char := chr "<".

(** The terminal marks. *)
Definition terminal (c : char) : bool :=
  ((c =? chr ".") || (c =? chr "!") || (c =? chr "?"))%N.

(** A character that is neither a terminal mark nor whitespace is
    copied. *)
Definition plain (c : char) : bool := negb (terminal c) && negb (is_space c).

(** Characters that occur in no marker and are no whitespace. *)
Definition solid (c : char) : bool :=
  negb (is_space c) && negb (existsb (N.eqb c) (utf8 "<prd>stop")).

(** Characters copied one by one: neither '<' nor whitespace. *)
Definition inner (c : char) : bool :=
  negb (is_space c) && negb (c =? lt_sign)%N.

(** What the newline statement does to one character. *)
Definition nl_to_space (c : char) : char :=
  if (c =? newline)%N then chr " " else c.

(** The invariant of the passes behind the newline statement. *)
Definition not_newline (c : char) : Prop := c <> newline.

(** The text without its whitespace. *)
Definition squash (s : str) : str := filter (fun c => negb (is_space c)) s.

(** Every captured text satisfies [P] characterwise. *)
Definition caps_ok (P : char -> Prop) (cs : caps) : Prop :=
  Forall (fun e => Forall P (snd e)) cs.

(** Every literal of a template satisfies [P] characterwise. *)
Definition lits_ok (P : char -> Prop) (t : list titem) : Prop :=
  Forall (fun it => match it with Lit s => Forall P s | Ref _ => True end) t.

(** [requires c r]: every text [r] matches contains [c]. *)
Fixpoint requires (c : char) (r : regex) : bool :=
  match r with
  | REps => false
  | RChar (CChar x) => (x =? c)%N
  | RChar _ => false
  | RSeq r1 r2 => requires c r1 || requires c r2
  | RAlt r1 r2 => requires c r1 && requires c r2
  | RGroup r => requires c r
  | ROpt _ => false
  | RRep (CChar x) n => (x =? c)%N && (1 <=? n)%nat
  | RRep _ _ => false
  end.

(** A property of the text that a fallible pass keeps. *)
Definition preserved (P : str -> Prop) (p : str -> result str) : Prop :=
  forall t t', p t = Ok t' -> P t -> P t'.

(** Length of the run of periods the text starts with. *)
Fixpoint run_length (s : str) : nat :=
  match s with
  | c :: s' => if (c =? period)%N then S (run_length s') else 0
  | [] => 0
  end.

(** The function the ellipsis statement passes to [re.sub]. *)
Definition ellipsis_repl : repl :=
  Callable (fun m => times prd (length m) ++ stop).

(** [Rw s s']: [s'] is [s] after some passes: a period may have become
    [<prd>], with or without [<stop>] behind it, [<stop>] may follow a
    terminal mark or precede a whitespace character, and a whitespace
    character may have become another. *)
Inductive Rw : str -> str -> Prop :=
| Rw_nil : Rw [] []
| Rw_char c a a' : Rw a a' -> Rw (c :: a) (c :: a')
| Rw_prd a a' : Rw a a' -> Rw (period :: a) (prd ++ a')
| Rw_prd_stop a a' : Rw a a' -> Rw (period :: a) (prd ++ stop ++ a')
| Rw_stop c a a' :
    terminal c = true -> Rw a a' -> Rw (c :: a) (c :: stop ++ a')
| Rw_stop_space w a a' :
    is_space w = true -> Rw a a' -> Rw (w :: a) (stop ++ w :: a')
| Rw_space w w' a a' :
    is_space w = true -> is_space w' = true -> Rw a a' ->
    Rw (w :: a) (w' :: a').

(** [Marked p t s]: the working text [s] is the text [t] with markers
    written into it; [p] tells whether [<prd>] is among them. *)
Inductive Marked (p : bool) : str -> str -> Prop :=
| M_nil : Marked p [] []
| M_char c t s : Marked p t s -> Marked p (c :: t) (c :: s)
| M_space c c' t s :
    is_space c = true -> is_space c' = true -> Marked p t s ->
    Marked p (c :: t) (c' :: s)
| M_prd t s : p = true -> Marked p t s -> Marked p (period :: t) (prd ++ s)
| M_stop t s : Marked p t s -> Marked p t (stop ++ s).

(** Whether [r] matches somewhere in [s]. *)
Fixpoint search (r : regex) (s : str) : bool :=
  match match_at r s with
  | Some _ => true
  | None =>
      match s with
      | [] => false
      | _ :: s' => search r s'
      end
  end.

(** The pattern of the suffix-before-starter rule, and the same with
    any whitespace character where the rule has a space. *)
Definition suffix_rule : regex :=
  cat [lit (utf8 " "); _SUFFIXES; dot; lit (utf8 " "); _STARTERS].

(** [loosen r] is [r] with [\s] in place of every literal whitespace
    character. *)
Definition loosen_class (k : cclass) : cclass :=
  match k with
  | CChar c => if is_space c then CSpace else CChar c
  | _ => k
  end.

Fixpoint loosen (r : regex) : regex :=
  match r with
  | REps => REps
  | RChar k => RChar (loosen_class k)
  | RSeq r1 r2 => RSeq (loosen r1) (loosen r2)
  | RAlt r1 r2 => RAlt (loosen r1) (loosen r2)
  | RGroup r => RGroup (loosen r)
  | ROpt r => ROpt (loosen r)
  | RRep k n => RRep (loosen_class k) n
  end.

Definition suffix_rule_any_space : regex := loosen suffix_rule.

(** [Looser r r']: [r'] matches what [r] matches, also when a
    whitespace character of the text is replaced by another; and [r]
    never matches a '<'. *)
Inductive Looser : regex -> regex -> Prop :=
| L_eps : Looser REps REps
| L_char k k' :
    (forall c, cmatch k c = true ->
               c <> lt_sign /\ cmatch k' c = true /\
               (is_space c = true ->
                forall c', is_space c' = true -> cmatch k' c' = true)) ->
    Looser (RChar k) (RChar k')
| L_seq r1 r1' r2 r2' :
    Looser r1 r1' -> Looser r2 r2' -> Looser (RSeq r1 r2) (RSeq r1' r2')
| L_alt r1 r1' r2 r2' :
    Looser r1 r1' -> Looser r2 r2' -> Looser (RAlt r1 r2) (RAlt r1' r2')
| L_group r r' : Looser r r' -> Looser (RGroup r) (RGroup r').

(** What the three boundary statements do to one character. *)
Definition with_boundary (c : char) : str :=
  if terminal c then c :: stop else [c].

(** Every [c] in [s] has a boundary marker right behind it. *)
Fixpoint followed (c : char) (s : str) : bool :=
  match s with
  | [] => true
  | x :: s' => (if (x =? c)%N then starts_with stop s' else true)
               && followed c s'
  end.

(** [c] stands nowhere in [s] but at its end. *)
Definition ends_only (c : char) (s : str) : Prop :=
  forall a b, s = a ++ c :: b -> b = [].

(** Some character of [s] is no whitespace. *)
Definition has_text (s : str) : bool :=
  existsb (fun c => negb (is_space c)) s.

(** The text cut behind every '!' and '?'. *)
Fixpoint cut (s : str) : list str :=
  match s with
  | [] => [[]]
  | x :: s' =>
      if ((x =? chr "!") || (x =? chr "?"))%N then [x] :: cut s'
      else
        match cut s' with
        | piece :: rest => (x :: piece) :: rest
        | [] => [[x]]
        end
  end.

(** How many '!' and '?' the text has. *)
Definition count_marks (s : str) : nat :=
  length (filter (fun c => ((c =? chr "!") || (c =? chr "?"))%N) s).

(** [keep] picks no whitespace, no period and no character of a
    marker, and not both the straight quote and a mark that can change
    places with it. *)
Definition untouched (keep : char -> bool) : Prop :=
  (forall c, is_space c = true -> keep c = false) /\
  keep period = false /\
  (forall c, In c (prd ++ stop) -> keep c = false) /\
  (keep dquote = false \/
   keep (chr "!") = false /\ keep (chr "?") = false).

(** '!' or '?'. *)
Definition is_mark (c : char) : bool :=
  ((c =? chr "!") || (c =? chr "?"))%N.

(** The sentence ends with '!' or '?'. *)
Definition ends_with_mark (s : str) : bool :=
  match rev s with
  | c :: _ => is_mark c
  | [] => false
  end.

(** No string stands twice in [l]. *)
Fixpoint distinct (l : list str) : bool :=
  match l with
  | [] => true
  | x :: l' =>
      negb (existsb
              (fun y => if list_eq_dec N.eq_dec x y then true else false) l')
      && distinct l'
  end.

(** ** Facts about the string operations *)

Section StringFacts.

Lemma starts_with_app (p s : str) : starts_with p (p ++ s) = true.
Proof.
  induction p as [|x p IH]; simpl; [reflexivity|].
  now rewrite N.eqb_refl, IH.
Qed.

Lemma starts_with_inv (p s : str) :
  starts_with p s = true -> exists r, s = p ++ r.
Proof.
  revert s; induction p as [|x p IH]; intros s H; simpl in *.
  - now exists s.
  - destruct s as [|y s]; [discriminate|].
    apply andb_true_iff in H as [Hx Hp]. apply N.eqb_eq in Hx; subst y.
    destruct (IH _ Hp) as [r ->]. now exists r.
Qed.

(** A pattern with a character the text lacks starts nowhere in it. *)
Lemma starts_with_absent (c : char) (p s : str) :
  In c p -> ~ In c s -> starts_with p s = false.
Proof.
  intros Hp Hs. destruct (starts_with p s) eqn:E; [|reflexivity].
  apply starts_with_inv in E as [r ->].
  exfalso; apply Hs, in_or_app; now left.
Qed.

Lemma contains_false_cons (p : str) (c : char) (s : str) :
  contains p (c :: s) = false ->
  starts_with p (c :: s) = false /\ contains p s = false.
Proof.
  simpl. intros H. apply orb_false_iff in H.
  destruct p; simpl in *; [destruct H; discriminate|exact H].
Qed.

Lemma contains_absent (c : char) (p s : str) :
  In c p -> ~ In c s -> contains p s = false.
Proof.
  intros Hp. induction s as [|y s IH]; intros Hs.
  - destruct p; [destruct Hp|reflexivity].
  - cbn [contains]. rewrite (starts_with_absent _ _ _ Hp Hs).
    apply IH. intros H; apply Hs; now right.
Qed.

Lemma contains_single (c : char) (s : str) :
  contains [c] s = false <-> ~ In c s.
Proof.
  induction s as [|y s IH]; simpl.
  - tauto.
  - rewrite andb_true_r. destruct (N.eqb_spec c y) as [->|Hne]; simpl.
    + split; [discriminate|]. intros H; exfalso; apply H; now left.
    + rewrite IH. split.
      * intros H [E|I]; [now apply Hne|now apply H].
      * intros H I. apply H. now right.
Qed.

(** Without an occurrence of [old], [replace] changes nothing. *)
Lemma replace_absent (old new s : str) :
  contains old s = false -> replace old new s = s.
Proof.
  unfold replace. induction s as [|c s IH]; intros H; [reflexivity|].
  apply contains_false_cons in H as [H1 H2].
  cbn [replace_go]. rewrite H1. f_equal. now apply IH.
Qed.

(** Without an occurrence of [sep], [split] returns the one piece. *)
Lemma split_absent (sep s : str) :
  contains sep s = false -> split sep s = [s].
Proof.
  unfold split. induction s as [|c s IH]; intros H; [reflexivity|].
  apply contains_false_cons in H as [H1 H2].
  cbn [split_go]. rewrite H1, (IH H2). reflexivity.
Qed.

(** Replacing one character by another is a [map]. *)
Lemma replace_char (a b : char) (s : str) :
  replace [a] [b] s = map (fun c => if (c =? a)%N then b else c) s.
Proof.
  unfold replace. induction s as [|c s IH]; [reflexivity|].
  cbn [replace_go starts_with length Nat.sub map].
  rewrite andb_true_r, N.eqb_sym.
  destruct (c =? a)%N; simpl; now rewrite IH.
Qed.

Lemma lstrip_spaces (s : str) :
  forallb is_space s = true -> lstrip s = [].
Proof.
  induction s as [|c s IH]; simpl; [reflexivity|].
  intros H. apply andb_true_iff in H as [-> H]. now apply IH.
Qed.

Lemma lstrip_nil_spaces (s : str) :
  lstrip s = [] -> forallb is_space s = true.
Proof.
  induction s as [|c s IH]; simpl; [reflexivity|].
  destruct (is_space c); [exact IH|discriminate].
Qed.

Lemma rstrip_snoc (s : str) (c : char) :
  is_space c = true -> rstrip (s ++ [c]) = rstrip s.
Proof.
  intros H. unfold rstrip. rewrite rev_app_distr. simpl. now rewrite H.
Qed.

Lemma strip_cons (c : char) (s : str) :
  is_space c = true -> strip (c :: s) = strip s.
Proof. intros H. unfold strip. simpl. now rewrite H. Qed.

Lemma strip_snoc (s : str) (c : char) :
  is_space c = true -> strip (s ++ [c]) = strip s.
Proof.
  intros H. unfold strip. induction s as [|x s IH]; simpl.
  - now rewrite H.
  - destruct (is_space x); [exact IH|].
    change (x :: s ++ [c]) with ((x :: s) ++ [c]). now apply rstrip_snoc.
Qed.

Lemma strip_spaces (s : str) :
  forallb is_space s = true -> strip s = [].
Proof. intros H. unfold strip. now rewrite (lstrip_spaces _ H). Qed.

Lemma lstrip_not_spaces (s : str) :
  forallb is_space s = false ->
  exists c r, lstrip s = c :: r /\ is_space c = false.
Proof.
  induction s as [|c s IH]; simpl; [discriminate|].
  destruct (is_space c) eqn:E; simpl; [exact IH|].
  intros _. now exists c, s.
Qed.

Lemma forallb_rev (A : Type) (f : A -> bool) (l : list A) :
  forallb f (rev l) = forallb f l.
Proof.
  induction l as [|x l IH]; simpl; [reflexivity|].
  rewrite forallb_app, IH. simpl. rewrite andb_true_r. apply andb_comm.
Qed.

Lemma strip_nil_iff (s : str) :
  strip s = [] <-> forallb is_space s = true.
Proof.
  split; [|apply strip_spaces].
  intros H. destruct (forallb is_space s) eqn:E; [reflexivity|exfalso].
  destruct (lstrip_not_spaces _ E) as (c & r & Hl & Hc).
  unfold strip, rstrip in H. rewrite Hl in H.
  assert (Hn : lstrip (rev (c :: r)) = []).
  { apply (f_equal (@rev char)) in H. now rewrite rev_involutive in H. }
  apply lstrip_nil_spaces in Hn. rewrite forallb_rev in Hn.
  simpl in Hn. now rewrite Hc in Hn.
Qed.

End StringFacts.

(** ** Facts about the matcher and [re.sub] *)

Section MatcherFacts.

Lemma rep_matches_inv (k : cclass) (n : nat) (s m s' : str) :
  In (m, s') (rep_matches k n s) ->
  s = m ++ s' /\ forallb (cmatch k) m = true /\ n <= length m.
Proof.
  revert n m s'. induction s as [|x s IH]; intros n m s' H; simpl in H.
  - destruct n; simpl in H; [|contradiction].
    destruct H as [H|[]]. inversion H; subst. repeat split; simpl; lia.
  - apply in_app_or in H as [H|H].
    + destruct (cmatch k x) eqn:E; [|contradiction].
      apply in_map_iff in H as ([m0 r0] & Heq & Hin). simpl in Heq.
      inversion Heq; subst. destruct (IH _ _ _ Hin) as (-> & Hall & Hlen).
      repeat split; simpl; [now rewrite E|lia].
    + destruct n; simpl in H; [|contradiction].
      destruct H as [H|[]]. inversion H; subst. repeat split; simpl; lia.
Qed.

(** A reported match is a prefix of the text, and the captures are
    pieces of the text. *)
Lemma rmatch_inv (r : regex) :
  forall base s cs m s' cs',
    In (m, s', cs') (rmatch r base s cs) ->
    s = m ++ s' /\
    forall P, Forall P s -> caps_ok P cs -> caps_ok P cs'.
Proof.
  induction r as [|k|r1 IH1 r2 IH2|r1 IH1 r2 IH2|r IH|r IH|k n];
    intros base s cs m s' cs' H; simpl in H.
  - destruct H as [H|[]]. inversion H; subst. now split.
  - destruct s as [|x s]; [contradiction|].
    destruct (cmatch k x); [|contradiction].
    destruct H as [H|[]]. inversion H; subst. now split.
  - apply in_flat_map in H as ([[m1 s1] c1] & H1 & H).
    apply in_map_iff in H as ([[m2 s2] c2] & Heq & H2). simpl in *.
    inversion Heq; subst.
    destruct (IH1 _ _ _ _ _ _ H1) as [-> K1].
    destruct (IH2 _ _ _ _ _ _ H2) as [-> K2].
    split; [now rewrite app_assoc|].
    intros P Hs Hc. apply K2; [|now apply K1].
    apply Forall_app in Hs as [_ Hs]. exact Hs.
  - apply in_app_or in H as [H|H]; eauto.
  - apply in_map_iff in H as ([[m1 s1] c1] & Heq & H1). simpl in Heq.
    inversion Heq; subst. destruct (IH _ _ _ _ _ _ H1) as [-> K].
    split; [reflexivity|]. intros P Hs Hc. constructor; [|now apply K].
    simpl. apply Forall_app in Hs as [Hs _]. exact Hs.
  - apply in_app_or in H as [H|H]; eauto.
    destruct H as [H|[]]. inversion H; subst. now split.
  - apply in_map_iff in H as ([m1 s1] & Heq & H1). simpl in Heq.
    inversion Heq; subst. apply rep_matches_inv in H1 as (-> & _ & _).
    now split.
Qed.

Lemma requires_sound (c : char) (r : regex) :
  requires c r = true ->
  forall base s cs m s' cs',
    In (m, s', cs') (rmatch r base s cs) -> In c m.
Proof.
  induction r as [|k|r1 IH1 r2 IH2|r1 IH1 r2 IH2|r IH|r IH|k n];
    intros Hr base s cs m s' cs' H; simpl in Hr, H; try discriminate.
  - destruct k; try discriminate. apply N.eqb_eq in Hr; subst c0.
    destruct s as [|x s]; [contradiction|]. simpl in H.
    destruct (N.eqb_spec x c); [|contradiction].
    destruct H as [H|[]]. inversion H; subst. now left.
  - apply in_flat_map in H as ([[m1 s1] c1] & H1 & H).
    apply in_map_iff in H as ([[m2 s2] c2] & Heq & H2). simpl in *.
    inversion Heq; subst. apply in_or_app.
    apply orb_true_iff in Hr as [Hr|Hr]; [left|right]; eauto.
  - apply andb_true_iff in Hr as [Hr1 Hr2].
    apply in_app_or in H as [H|H]; eauto.
  - apply in_map_iff in H as ([[m1 s1] c1] & Heq & H1). simpl in Heq.
    inversion Heq; subst. eauto.
  - destruct k; try discriminate.
    apply andb_true_iff in Hr as [Hc Hn].
    apply N.eqb_eq in Hc; subst c0.
    assert (1 <= n) by (destruct n; [discriminate|lia]).
    apply in_map_iff in H as ([m1 s1] & Heq & H1). simpl in Heq.
    inversion Heq; subst.
    apply rep_matches_inv in H1 as (_ & Hall & Hlen).
    destruct m as [|x m]; simpl in *; [lia|].
    apply andb_true_iff in Hall as [Hx _]. apply N.eqb_eq in Hx. now left.
Qed.

Lemma match_at_in (r : regex) (s m s' : str) (cs : caps) :
  match_at r s = Some (m, s', cs) -> In (m, s', cs) (rmatch r 0 s []).
Proof.
  unfold match_at. destruct (rmatch r 0 s []); simpl; [discriminate|].
  intros H; inversion H; now left.
Qed.

Lemma match_at_absent (c : char) (r : regex) (s : str) :
  requires c r = true -> ~ In c s -> match_at r s = None.
Proof.
  intros Hr Hs. destruct (match_at r s) as [[[m s'] cs]|] eqn:E; [|reflexivity].
  apply match_at_in in E. exfalso. apply Hs.
  destruct (rmatch_inv _ _ _ _ _ _ _ E) as [-> _].
  apply in_or_app; left. eapply requires_sound; eauto.
Qed.

(** A pattern that needs a character the text lacks rewrites nothing. *)
Lemma sub_go_absent (c : char) (r : regex) (rp : repl) (s : str) :
  requires c r = true -> ~ In c s -> sub_go r rp s 0 = s.
Proof.
  intros Hr. induction s as [|x s IH]; intros Hs; [reflexivity|].
  cbn [sub_go]. rewrite (match_at_absent c r _ Hr Hs).
  f_equal. apply IH. intros H; apply Hs; now right.
Qed.

Lemma group_ok (P : char -> Prop) (cs : caps) (i : nat) :
  caps_ok P cs -> Forall P (group cs i).
Proof.
  induction 1 as [|[j m] cs Hm Hcs IH]; simpl; [constructor|].
  destruct (i =? j); auto.
Qed.

Lemma expand_ok (P : char -> Prop) (t : list titem) (cs : caps) :
  lits_ok P t -> caps_ok P cs -> Forall P (expand t cs).
Proof.
  intros Ht Hc. induction Ht as [|it t Hit Ht IH]; simpl; [constructor|].
  apply Forall_app; split; [|exact IH].
  destruct it; [exact Hit|now apply group_ok].
Qed.

(** [re.sub] writes only characters of the text and of the replacement. *)
Lemma sub_go_forall (P : char -> Prop) (r : regex) (rp : repl) :
  (forall m cs, Forall P m -> caps_ok P cs -> Forall P (apply_repl rp m cs)) ->
  forall s skip, Forall P s -> Forall P (sub_go r rp s skip).
Proof.
  intros Hrp. induction s as [|x s IH]; intros skip Hs; [constructor|].
  inversion Hs as [|? ? Hx Hs']; subst. cbn [sub_go].
  destruct skip as [|k]; [|now apply IH].
  destruct (match_at r (x :: s)) as [[[m s'] cs]|] eqn:E.
  - apply match_at_in in E.
    destruct (rmatch_inv _ _ _ _ _ _ _ E) as [Heq K].
    apply Forall_app; split; [|now apply IH].
    apply Hrp.
    + rewrite Heq in Hs. now apply Forall_app in Hs as [Hm _].
    + apply K; [exact Hs|constructor].
  - constructor; [exact Hx|now apply IH].
Qed.

Lemma sub_ok_inv (r : regex) (rp : repl) (s s' : str) :
  sub r rp s = Ok s' -> s' = sub_go r rp s 0.
Proof.
  unfold sub. destruct rp as [t|f].
  - destruct (valid_template r t); [|discriminate]. now intros [= <-].
  - now intros [= <-].
Qed.

End MatcherFacts.

(** ** Facts about the passes *)

Ltac unfold_passes :=
  unfold pass_prefixes, pass_websites, pass_digits, pass_ellipsis,
    pass_initial, pass_acronym_starter, pass_abbrev3, pass_abbrev2,
    pass_suffix_starter, pass_suffix, pass_letter in *.

Section PassFacts.

Lemma bind_ok_inv (A B : Type) (m : result A) (f : A -> result B) (b : B) :
  bind m f = Ok b -> exists a, m = Ok a /\ f a = Ok b.
Proof. destruct m as [a|e]; simpl; [|discriminate]. intros H. now exists a. Qed.

(** What every protection pass keeps, [protect] keeps. *)
Lemma protect_preserved (P : str -> Prop) :
  preserved P pass_prefixes -> preserved P pass_websites ->
  preserved P pass_digits -> preserved P pass_ellipsis ->
  (forall t, P t -> P (pass_phd t)) ->
  preserved P pass_initial -> preserved P pass_acronym_starter ->
  preserved P pass_abbrev3 -> preserved P pass_abbrev2 ->
  preserved P pass_suffix_starter -> preserved P pass_suffix ->
  preserved P pass_letter ->
  preserved P protect.
Proof.
  intros H1 H2 H3 H4 H5 H6 H7 H8 H9 H10 H11 H12 t t' H Ht.
  unfold protect in H.
  repeat (apply bind_ok_inv in H; destruct H as (? & ? & H)).
  eauto 20.
Qed.

(** Every pass returns: its template only names groups of its pattern. *)
Lemma protect_total (t : str) : exists t', protect t = Ok t'.
Proof.
  unfold protect. unfold_passes.
  eexists. cbn [sub valid_template forallb bind]. reflexivity.
Qed.

(** Every pattern the function hands to [re.sub] needs a period, so no
    match is empty. *)
Lemma patterns_need_period :
  Forall (fun r => requires period r = true)
    [_PREFIXES; _WEBSITES; cat [_DIGITS; dot; _DIGITS]; _MULTIPLE_DOTS;
     cat [RChar CSpace; _ALPHABETS; dot; lit (utf8 " ")];
     cat [_ACRONYMS; lit (utf8 " "); _STARTERS];
     cat [_ALPHABETS; dot; _ALPHABETS; dot; _ALPHABETS; dot];
     cat [_ALPHABETS; dot; _ALPHABETS; dot];
     cat [lit (utf8 " "); _SUFFIXES; dot; lit (utf8 " "); _STARTERS];
     cat [lit (utf8 " "); _SUFFIXES; dot];
     cat [lit (utf8 " "); _ALPHABETS; dot]].
Proof. repeat constructor. Qed.

Lemma requires_nonempty (c : char) (r : regex) (s m s' : str) (cs : caps) :
  requires c r = true -> match_at r s = Some (m, s', cs) -> m <> [].
Proof.
  intros Hr H. apply match_at_in in H.
  pose proof (requires_sound c r Hr _ _ _ _ _ _ H) as Hin.
  now destruct m.
Qed.

(** Without a period in the text no protection pass changes it. *)
Lemma protect_no_period (t : str) :
  ~ In (chr ".") t -> protect t = Ok t.
Proof.
  intros Hd. destruct (protect_total t) as [t' Ht']. rewrite Ht'. f_equal.
  assert (K : preserved (fun x => x = t) protect).
  { apply protect_preserved;
      try (intros x x' Hx Hp; cbv beta in *; subst x; unfold_passes;
           apply sub_ok_inv in Hx; rewrite Hx;
           now apply (sub_go_absent (chr "."))).
    intros x Hp; cbv beta in *; subst x. unfold pass_phd.
    now rewrite (contains_absent (chr ".") (utf8 "Ph.D") t
                   ltac:(simpl; tauto) Hd). }
  exact (K t t' Ht' eq_refl).
Qed.

End PassFacts.

(** ** Text without a terminal mark *)

Section NoTerminal.

Lemma pass_newlines_map (t : str) : pass_newlines t = map nl_to_space t.
Proof. apply replace_char. Qed.

Lemma pass_newlines_pad (t : str) :
  pass_newlines (pad t) = chr " " :: (pass_newlines t ++ [chr " "]) ++ [chr " "].
Proof.
  rewrite !pass_newlines_map. unfold pad. simpl.
  rewrite map_app, <- app_assoc. reflexivity.
Qed.

Lemma nl_to_space_inv (c x : char) :
  nl_to_space c = x -> x <> chr " " -> c = x.
Proof.
  unfold nl_to_space. destruct (c =? newline)%N; congruence.
Qed.

Lemma in_pass_newlines (c : char) (t : str) :
  In c (pass_newlines t) -> c <> chr " " -> In c t.
Proof.
  rewrite pass_newlines_map. intros H Hc.
  apply in_map_iff in H as (x & Hx & Hin).
  now rewrite <- (nl_to_space_inv _ _ Hx Hc).
Qed.

Lemma in_padded (c : char) (t : str) :
  In c (pass_newlines (pad t)) -> c <> chr " " -> In c t.
Proof.
  rewrite pass_newlines_pad. intros H Hc.
  destruct H as [H|H]; [congruence|].
  apply in_app_or in H as [H|[H|[]]]; [|congruence].
  apply in_app_or in H as [H|[H|[]]]; [|congruence].
  now apply in_pass_newlines.
Qed.

Lemma starts_with_map (p t : str) :
  ~ In (chr " ") p ->
  starts_with p (map nl_to_space t) = true -> starts_with p t = true.
Proof.
  revert t; induction p as [|x p IH]; intros t Hp H; [reflexivity|].
  destruct t as [|c t]; [discriminate|]. simpl in *.
  apply andb_true_iff in H as [Hx H]. apply N.eqb_eq in Hx.
  symmetry in Hx. apply nl_to_space_inv in Hx; [|intros E; apply Hp; now left].
  subst c. rewrite N.eqb_refl. simpl. apply IH; [|exact H].
  intros E; apply Hp; now right.
Qed.

Lemma contains_map (p t : str) :
  ~ In (chr " ") p ->
  contains p t = false -> contains p (map nl_to_space t) = false.
Proof.
  intros Hp. induction t as [|c t IH]; intros H.
  - exact H.
  - apply contains_false_cons in H as [H1 H2].
    cbn [map contains]. rewrite (IH H2), orb_false_r.
    destruct (starts_with p (nl_to_space c :: map nl_to_space t)) eqn:E;
      [|reflexivity].
    apply (starts_with_map p (c :: t) Hp) in E. congruence.
Qed.

Lemma starts_with_snoc (p t : str) (c : char) :
  ~ In c p -> starts_with p (t ++ [c]) = starts_with p t.
Proof.
  revert t; induction p as [|x p IH]; intros t Hp; [reflexivity|].
  destruct t as [|y t]; simpl.
  - destruct (N.eqb_spec x c) as [->|Hne]; [|reflexivity].
    exfalso; apply Hp; now left.
  - rewrite IH; [reflexivity|]. intros E; apply Hp; now right.
Qed.

Lemma contains_snoc (p t : str) (c : char) :
  p <> [] -> ~ In c p -> contains p (t ++ [c]) = contains p t.
Proof.
  intros Hne Hp. induction t as [|y t IH].
  - destruct p as [|x p]; [congruence|]. simpl.
    destruct (N.eqb_spec x c) as [->|_]; [|reflexivity].
    exfalso; apply Hp; now left.
  - change ((y :: t) ++ [c]) with (y :: (t ++ [c])).
    cbn [contains]. rewrite IH.
    change (y :: (t ++ [c])) with ((y :: t) ++ [c]).
    now rewrite starts_with_snoc.
Qed.

Lemma contains_cons (p t : str) (c : char) :
  p <> [] -> ~ In c p -> contains p (c :: t) = contains p t.
Proof.
  intros Hne Hp. destruct p as [|x p]; [congruence|].
  cbn [contains starts_with].
  destruct (N.eqb_spec x c) as [->|_]; [|reflexivity].
  exfalso; apply Hp; now left.
Qed.

(** Padding and the newline pass create no occurrence of a text that
    has no space in it. *)
Lemma contains_padded (p t : str) :
  p <> [] -> ~ In (chr " ") p ->
  contains p t = false -> contains p (pass_newlines (pad t)) = false.
Proof.
  intros Hne Hp H. rewrite pass_newlines_pad.
  rewrite contains_cons, !contains_snoc by assumption.
  rewrite pass_newlines_map. now apply contains_map.
Qed.

Lemma strip_padded (t : str) :
  strip (pass_newlines (pad t)) = strip (pass_newlines t).
Proof.
  rewrite pass_newlines_pad.
  now rewrite strip_cons, !strip_snoc by reflexivity.
Qed.

Lemma is_space_nl_to_space (c : char) :
  is_space (nl_to_space c) = is_space c.
Proof.
  unfold nl_to_space. destruct (N.eqb_spec c newline) as [->|_]; reflexivity.
Qed.

Lemma spaces_pass_newlines (t : str) :
  forallb is_space (pass_newlines t) = forallb is_space t.
Proof.
  rewrite pass_newlines_map. induction t as [|c t IH]; [reflexivity|].
  simpl. now rewrite is_space_nl_to_space, IH.
Qed.

Lemma swap_absent (a b : char) (new t : str) :
  ~ In a t -> replace [a; b] new t = t.
Proof.
  intros H. apply replace_absent.
  apply (contains_absent a); [now left|exact H].
Qed.

(** With no terminal mark in the text, only the newline pass, the
    restoration and the final split can change anything. *)
Lemma no_terminal_form (text : str) :
  ~ In (chr ".") text -> ~ In (chr "!") text -> ~ In (chr "?") text ->
  split_into_sentences text =
  Ok (finish (restore (pass_newlines (pad text)))).
Proof.
  intros Hd Hb Hq. unfold split_into_sentences.
  set (t := pass_newlines (pad text)).
  assert (Hd' : ~ In (chr ".") t)
    by (intros H; apply Hd; apply in_padded; [exact H|discriminate]).
  assert (Hb' : ~ In (chr "!") t)
    by (intros H; apply Hb; apply in_padded; [exact H|discriminate]).
  assert (Hq' : ~ In (chr "?") t)
    by (intros H; apply Hq; apply in_padded; [exact H|discriminate]).
  rewrite (protect_no_period t Hd'). cbn [bind]. do 3 f_equal.
  assert (Hquotes : pass_quotes t = t).
  { unfold pass_quotes.
    replace (swap_curly_dot t) with t.
    replace (swap_straight_dot t) with t.
    replace (swap_straight_bang t) with t.
    all: unfold swap_curly_dot, swap_straight_dot, swap_straight_bang,
           swap_straight_qmark;
         rewrite swap_absent by assumption;
         now match goal with |- context [if ?b then _ else _] =>
           destruct b end. }
  rewrite Hquotes. unfold mark_boundaries.
  rewrite (replace_absent (utf8 ".")) by now apply contains_single.
  rewrite (replace_absent (utf8 "?")) by now apply contains_single.
  now rewrite (replace_absent (utf8 "!")) by now apply contains_single.
Qed.

Lemma drop_empty_last_single (x : str) :
  drop_empty_last [x] = match x with [] => [] | _ => [x] end.
Proof. now destruct x. Qed.

Lemma finish_no_marker (text : str) :
  contains prd text = false -> contains stop text = false ->
  finish (restore (pass_newlines (pad text))) =
  if forallb is_space text then [] else [strip (pass_newlines text)].
Proof.
  intros Hp Hs. unfold finish, restore.
  rewrite replace_absent
    by (apply contains_padded; [discriminate|simpl; intuition discriminate|exact Hp]).
  rewrite split_absent
    by (apply contains_padded; [discriminate|simpl; intuition discriminate|exact Hs]).
  cbn [map]. rewrite drop_empty_last_single, strip_padded.
  rewrite <- (spaces_pass_newlines text).
  destruct (forallb is_space (pass_newlines text)) eqn:E.
  - now rewrite (strip_spaces _ E).
  - destruct (strip (pass_newlines text)) eqn:Es; [|reflexivity].
    apply strip_nil_iff in Es. congruence.
Qed.

Lemma spaces_absent (c : char) (t : str) :
  forallb is_space t = true -> is_space c = false -> ~ In c t.
Proof.
  intros Ht Hc Hin. rewrite forallb_forall in Ht.
  specialize (Ht _ Hin). congruence.
Qed.

End NoTerminal.

(** ** The claims on text without terminal marks *)

(** C7: [split_into_sentences] applied to the empty string returns an
    empty sequence. *)
Theorem split_empty_string : split_into_sentences [] = Ok [].
Proof. vm_compute. reflexivity. Qed.

(** C6: [split_into_sentences("Dr. Smith arrived.")] is the one sentence
    "Dr. Smith arrived.": the period after the prefix "Dr" makes no
    boundary. *)
Theorem split_dr_smith :
  split_into_sentences (utf8 "Dr. Smith arrived.") =
  Ok [utf8 "Dr. Smith arrived."].
Proof. vm_compute. reflexivity. Qed.

(** C9: for a text of whitespace characters only (the empty text
    included) the result is the empty sequence: the last piece is
    dropped because it strips to the empty string. *)
Theorem split_whitespace_only (text : str) :
  forallb is_space text = true -> split_into_sentences text = Ok [].
Proof.
  intros H.
  rewrite no_terminal_form by (apply spaces_absent; [exact H|reflexivity]).
  rewrite finish_no_marker.
  - now rewrite H.
  - apply (contains_absent (chr "<")); [now left|].
    apply spaces_absent; [exact H|reflexivity].
  - apply (contains_absent (chr "<")); [now left|].
    apply spaces_absent; [exact H|reflexivity].
Qed.

Lemma split_whitespace_only_witness :
  forallb is_space [chr " "; newline; 9%N] = true /\
  split_into_sentences [chr " "; newline; 9%N] = Ok [].
Proof.
  split; [reflexivity|]. apply split_whitespace_only. reflexivity.
Defined.

(** C1, as stated: a text with no '.', '!' or '?' yields exactly its
    stripped self.  It fails on the empty text, on a text with a
    newline inside and on a text that holds a marker. *)
Lemma split_no_terminal_fails :
  split_into_sentences [] <> Ok [strip []] /\
  split_into_sentences (utf8 "a" ++ [newline] ++ utf8 "b") <>
    Ok [strip (utf8 "a" ++ [newline] ++ utf8 "b")] /\
  split_into_sentences (utf8 "a<stop>b") <> Ok [strip (utf8 "a<stop>b")].
Proof. repeat split; vm_compute; discriminate. Qed.

(** C1, amended: a text with no '.', '!' or '?' and with neither marker
    in it yields the empty sequence when it is all whitespace, and
    otherwise the one sentence that is the text with every newline
    turned into a space, stripped. *)
Theorem split_no_terminal (text : str) :
  contains (utf8 ".") text = false ->
  contains (utf8 "!") text = false ->
  contains (utf8 "?") text = false ->
  contains prd text = false ->
  contains stop text = false ->
  split_into_sentences text =
  Ok (if forallb is_space text then [] else [strip (pass_newlines text)]).
Proof.
  intros Hd Hb Hq Hp Hs.
  rewrite no_terminal_form by now apply contains_single.
  now rewrite finish_no_marker.
Qed.

Lemma split_no_terminal_witness :
  split_into_sentences (utf8 " Hei" ++ [newline] ++ utf8 "maailma ") =
  Ok [utf8 "Hei maailma"].
Proof.
  apply (split_no_terminal (utf8 " Hei" ++ [newline] ++ utf8 "maailma "));
    reflexivity.
Defined.

(** ** Characters the passes can write *)

Section Characters.

Variable P : char -> Prop.

Lemma replace_go_forall (old new s : str) (skip : nat) :
  Forall P new -> Forall P s -> Forall P (replace_go old new s skip).
Proof.
  intros Hn. revert skip. induction s as [|c s IH]; intros skip Hs;
    [constructor|].
  inversion Hs; subst. cbn [replace_go].
  destruct skip; [|now apply IH].
  destruct (starts_with old (c :: s)).
  - apply Forall_app; split; [exact Hn|now apply IH].
  - constructor; [assumption|now apply IH].
Qed.

Lemma replace_forall (old new s : str) :
  Forall P new -> Forall P s -> Forall P (replace old new s).
Proof. apply replace_go_forall. Qed.

Lemma split_go_forall (sep s : str) (skip : nat) :
  Forall P s -> Forall (Forall P) (split_go sep s skip).
Proof.
  revert skip. induction s as [|c s IH]; intros skip Hs.
  - repeat constructor.
  - inversion Hs; subst. cbn [split_go].
    destruct skip; [|now apply IH].
    destruct (starts_with sep (c :: s)).
    + constructor; [constructor|now apply IH].
    + specialize (IH 0 H2). destruct (split_go sep s 0) as [|piece rest].
      * repeat constructor. assumption.
      * inversion IH; subst. constructor; [now constructor|assumption].
Qed.

Lemma lstrip_forall (s : str) : Forall P s -> Forall P (lstrip s).
Proof.
  induction 1 as [|c s Hc Hs IH]; simpl; [constructor|].
  destruct (is_space c); [exact IH|now constructor].
Qed.

Lemma strip_forall (s : str) : Forall P s -> Forall P (strip s).
Proof.
  intros H. unfold strip, rstrip.
  apply Forall_rev, lstrip_forall, Forall_rev, lstrip_forall, H.
Qed.

Lemma drop_empty_last_forall (Q : str -> Prop) (l : list str) :
  Forall Q l -> Forall Q (drop_empty_last l).
Proof.
  intros H. unfold drop_empty_last.
  assert (Hr : Forall Q (rev l)) by now apply Forall_rev.
  destruct (rev l) as [|[|c x] r]; try exact H.
  inversion Hr; subst. now apply Forall_rev.
Qed.

Lemma finish_forall (s : str) : Forall P s -> Forall (Forall P) (finish s).
Proof.
  intros H. unfold finish. apply drop_empty_last_forall.
  apply Forall_map. eapply Forall_impl; [|apply split_go_forall, H].
  apply strip_forall.
Qed.

Lemma times_forall (s : str) (n : nat) : Forall P s -> Forall P (times s n).
Proof.
  intros H. induction n; simpl; [constructor|]. now apply Forall_app.
Qed.

End Characters.

(** ** No newline survives *)

Ltac literal_ok := repeat constructor; discriminate.

(** The protection passes write no newline. *)
Lemma protect_no_newline : preserved (Forall not_newline) protect.
Proof.
  apply protect_preserved;
    try (intros t t' Ht Hp; unfold_passes; apply sub_ok_inv in Ht; subst t';
         apply sub_go_forall; [|exact Hp];
         intros m cs Hm Hcs; cbn [apply_repl];
         first [ apply expand_ok; [literal_ok|exact Hcs]
               | apply Forall_app; split;
                 [apply times_forall|]; literal_ok ]).
  intros t Hp. unfold pass_phd. destruct (contains _ t); [|exact Hp].
  apply replace_forall; [literal_ok|exact Hp].
Qed.

Lemma pass_newlines_no_newline (t : str) :
  Forall not_newline (pass_newlines t).
Proof.
  rewrite pass_newlines_map. apply Forall_forall. intros c Hc.
  apply in_map_iff in Hc as (x & <- & _). unfold nl_to_space, not_newline.
  destruct (N.eqb_spec x newline); [discriminate|assumption].
Qed.

Lemma tail_no_newline (t : str) :
  Forall not_newline t ->
  Forall (Forall not_newline) (finish (restore (mark_boundaries (pass_quotes t)))).
Proof.
  intros H. apply finish_forall. unfold restore, mark_boundaries, pass_quotes.
  repeat (apply replace_forall; [literal_ok|]).
  unfold swap_straight_qmark, swap_straight_bang, swap_straight_dot,
    swap_curly_dot.
  repeat match goal with
         | |- Forall _ (if ?b then _ else _) => destruct b
         | |- Forall _ (replace _ _ _) => apply replace_forall; [literal_ok|]
         end; exact H.
Qed.

(** C10: no returned sentence has a newline in it: the text the passes
    work on has none, since every newline is replaced by a space first,
    and no pass writes one. *)
Theorem split_no_newline (text : str) :
  pass_newlines (pad text) =
    map (fun c => if (c =? newline)%N then chr " " else c) (pad text) /\
  ~ In newline (pass_newlines (pad text)) /\
  exists sentences,
    split_into_sentences text = Ok sentences /\
    Forall (fun s => ~ In newline s) sentences.
Proof.
  pose proof (pass_newlines_no_newline (pad text)) as H0.
  split; [apply pass_newlines_map|]. split.
  - intros Hin. rewrite Forall_forall in H0. now apply (H0 _ Hin).
  - unfold split_into_sentences.
    destruct (protect_total (pass_newlines (pad text))) as [t Ht].
    rewrite Ht. cbn [bind]. eexists; split; [reflexivity|].
    pose proof (protect_no_newline _ _ Ht H0) as H1.
    apply tail_no_newline in H1.
    eapply Forall_impl; [|exact H1].
    intros s Hs Hin. rewrite Forall_forall in Hs. now apply (Hs _ Hin).
Qed.

(** C8: [split_into_sentences] returns a sequence of strings for every
    text; no call in it raises. *)
Theorem split_total (text : str) :
  exists sentences, split_into_sentences text = Ok sentences.
Proof.
  unfold split_into_sentences.
  destruct (protect_total (pass_newlines (pad text))) as [t ->].
  cbn [bind]. eexists. reflexivity.
Qed.

(** ** The ellipsis pass *)

Section Ellipsis.

Lemma run_length_le (s : str) : run_length s <= length s.
Proof.
  induction s as [|c s IH]; simpl; [lia|].
  destruct (c =? period)%N; simpl; lia.
Qed.

Lemma hd_error_map_app (A B : Type) (f : A -> B) (l : list A) (l' : list B) :
  hd_error (map f l ++ l') =
  match hd_error l with Some a => Some (f a) | None => hd_error l' end.
Proof. now destruct l. Qed.

(** The greedy repetition reports the whole run first. *)
Lemma rep_matches_hd (n : nat) (s : str) :
  hd_error (rep_matches (CChar period) n s) =
  if n <=? run_length s
  then Some (firstn (run_length s) s, skipn (run_length s) s)
  else None.
Proof.
  revert n. induction s as [|c s IH]; intros n.
  - simpl. now destruct n.
  - cbn [rep_matches cmatch run_length].
    destruct (c =? period)%N eqn:E.
    + rewrite hd_error_map_app, IH.
      destruct (Nat.leb_spec (pred n) (run_length s));
        destruct (Nat.leb_spec n (S (run_length s))); try lia.
      * reflexivity.
      * destruct n; [lia|reflexivity].
    + simpl. now destruct n.
Qed.

Lemma match_at_dots (s : str) :
  match_at _MULTIPLE_DOTS s =
  if 2 <=? run_length s
  then Some (firstn (run_length s) s, skipn (run_length s) s, [])
  else None.
Proof.
  unfold match_at, _MULTIPLE_DOTS. cbn [rmatch].
  rewrite <- (app_nil_r (map _ _)), hd_error_map_app.
  change (chr ".") with period. rewrite rep_matches_hd.
  now destruct (2 <=? run_length s).
Qed.

Lemma sub_go_dots_cons (c : char) (s : str) :
  sub_go _MULTIPLE_DOTS ellipsis_repl (c :: s) 0 =
  if 2 <=? run_length (c :: s)
  then (times prd (run_length (c :: s)) ++ stop)
         ++ sub_go _MULTIPLE_DOTS ellipsis_repl s (run_length (c :: s) - 1)
  else c :: sub_go _MULTIPLE_DOTS ellipsis_repl s 0.
Proof.
  cbn [sub_go]. rewrite match_at_dots.
  destruct (2 <=? run_length (c :: s)); [|reflexivity].
  cbn [apply_repl ellipsis_repl].
  rewrite length_firstn, Nat.min_l by apply run_length_le. reflexivity.
Qed.

Lemma sub_go_skip (r : regex) (rp : repl) (x s : str) :
  sub_go r rp (x ++ s) (length x) = sub_go r rp s 0.
Proof.
  induction x as [|c x IH]; simpl; [|exact IH].
  destruct s; reflexivity.
Qed.

Lemma last_cons_cons (A : Type) (a b : A) (l : list A) (d : A) :
  last (a :: b :: l) d = last (b :: l) d.
Proof. reflexivity. Qed.

(** A run that starts in a text not ending with a period ends in it. *)
Lemma run_length_app (pre rest : str) :
  pre <> [] -> last pre 0%N <> period ->
  run_length (pre ++ rest) = run_length pre.
Proof.
  induction pre as [|c pre IH]; intros Hne Hl; [congruence|].
  cbn [app run_length]. destruct (N.eqb_spec c period) as [->|Hc];
    [|reflexivity].
  destruct pre as [|d pre]; [simpl in Hl; congruence|].
  f_equal. apply IH; [discriminate|exact Hl].
Qed.

(** The pass works on the two sides of such a text independently. *)
Lemma sub_go_dots_app (pre rest : str) (skip : nat) :
  last pre 0%N <> period -> skip <= length pre ->
  sub_go _MULTIPLE_DOTS ellipsis_repl (pre ++ rest) skip =
  sub_go _MULTIPLE_DOTS ellipsis_repl pre skip
    ++ sub_go _MULTIPLE_DOTS ellipsis_repl rest 0.
Proof.
  revert skip. induction pre as [|c pre IH]; intros skip Hl Hk.
  - simpl in Hk. replace skip with 0 by lia. reflexivity.
  - assert (Hl' : last pre 0%N <> period).
    { destruct pre as [|d pre]; [discriminate|exact Hl]. }
    destruct skip as [|k].
    + change ((c :: pre) ++ rest) with (c :: (pre ++ rest)).
      rewrite !sub_go_dots_cons.
      change (c :: (pre ++ rest)) with ((c :: pre) ++ rest).
      rewrite run_length_app by (congruence || assumption).
      destruct (2 <=? run_length (c :: pre)) eqn:E.
      * rewrite IH; [now rewrite <- !app_assoc|exact Hl'|].
        pose proof (run_length_le (c :: pre)). simpl in *. lia.
      * rewrite IH by (assumption || lia). reflexivity.
    + cbn [app sub_go]. apply IH; [exact Hl'|simpl in Hk; lia].
Qed.

Lemma run_length_repeat (n : nat) (post : str) :
  hd 0%N post <> period ->
  run_length (repeat period n ++ post) = n.
Proof.
  intros H. induction n as [|n IH]; simpl.
  - destruct post as [|c post]; [reflexivity|]. simpl in *.
    now destruct (N.eqb_spec c period).
  - now rewrite IH.
Qed.

Lemma sub_go_dots_run (n : nat) (post : str) :
  2 <= n -> hd 0%N post <> period ->
  sub_go _MULTIPLE_DOTS ellipsis_repl (repeat period n ++ post) 0 =
  times prd n ++ stop ++ sub_go _MULTIPLE_DOTS ellipsis_repl post 0.
Proof.
  intros Hn Hp. destruct n as [|n]; [lia|].
  change (repeat period (S n) ++ post) with (period :: (repeat period n ++ post)).
  rewrite sub_go_dots_cons.
  change (period :: (repeat period n ++ post)) with (repeat period (S n) ++ post).
  rewrite run_length_repeat by assumption.
  replace (2 <=? S n) with true by (symmetry; apply Nat.leb_le; lia).
  replace (S n - 1) with (length (repeat period n))
    by (rewrite repeat_length; lia).
  now rewrite sub_go_skip, <- app_assoc.
Qed.

End Ellipsis.

Section Restoration.

Lemma replace_go_skip (old new x s : str) :
  replace_go old new (x ++ s) (length x) = replace_go old new s 0.
Proof.
  induction x as [|c x IH]; simpl; [|exact IH].
  destruct s; reflexivity.
Qed.

(** An occurrence at the front is replaced, and the scan goes on
    behind it. *)
Lemma replace_old_app (old new s : str) :
  old <> [] -> replace old new (old ++ s) = new ++ replace old new s.
Proof.
  intros H. destruct old as [|c o]; [congruence|].
  unfold replace. change ((c :: o) ++ s) with (c :: (o ++ s)).
  cbn [replace_go].
  change (c :: (o ++ s)) with ((c :: o) ++ s).
  rewrite starts_with_app.
  replace (length (c :: o) - 1) with (length o) by (simpl; lia).
  now rewrite replace_go_skip.
Qed.

Lemma restore_times (n : nat) (s : str) :
  restore (times prd n ++ s) = repeat period n ++ restore s.
Proof.
  induction n as [|n IH]; [reflexivity|].
  unfold restore in *. cbn [times repeat]. rewrite <- app_assoc.
  rewrite replace_old_app by discriminate. now rewrite IH.
Qed.

(** A marker in the text is restored whatever stands in front of it:
    no occurrence of the marker starts before it and ends in it. *)
Lemma starts_with_prd_app (c : char) (a y : str) :
  starts_with prd (c :: a ++ prd ++ y) = starts_with prd (c :: a).
Proof.
  destruct a as [|x1 [|x2 [|x3 [|x4 a]]]]; simpl;
    rewrite ?andb_false_r; reflexivity.
Qed.

Lemma replace_go_prd_app (new a y : str) (skip : nat) :
  skip <= length a ->
  replace_go prd new (a ++ prd ++ y) skip =
  replace_go prd new a skip ++ new ++ replace_go prd new y 0.
Proof.
  revert skip. induction a as [|c a IH]; intros skip Hk.
  - simpl in Hk. replace skip with 0 by lia.
    apply (replace_old_app prd new y). discriminate.
  - destruct skip as [|k].
    + change ((c :: a) ++ prd ++ y) with (c :: (a ++ prd ++ y)).
      cbn [replace_go]. rewrite starts_with_prd_app.
      destruct (starts_with prd (c :: a)) eqn:E.
      * rewrite IH; [now rewrite <- app_assoc|].
        apply starts_with_inv in E as [r E]. inversion E. simpl. lia.
      * rewrite IH by lia. reflexivity.
    + cbn [app replace_go]. apply IH. simpl in Hk. lia.
Qed.

Lemma restore_run (n : nat) (a b : str) :
  restore (a ++ (times prd (S n) ++ stop) ++ b) =
  restore a ++ (repeat period (S n) ++ stop) ++ restore b.
Proof.
  cbn [times repeat]. rewrite <- !app_assoc.
  unfold restore at 1. unfold replace.
  rewrite replace_go_prd_app by lia.
  fold (replace prd (utf8 ".") a). fold (restore a). f_equal.
  fold (replace prd (utf8 ".") (times prd n ++ stop ++ b)).
  fold (restore (times prd n ++ stop ++ b)).
  rewrite restore_times. cbn [app]. do 2 f_equal. reflexivity.
Qed.

Lemma split_periods (n : nat) :
  split stop (repeat period n ++ stop) = [repeat period n; []].
Proof.
  induction n as [|n IH]; [reflexivity|].
  unfold split in *. cbn [repeat app split_go].
  change (starts_with stop (period :: repeat period n ++ stop)) with false.
  cbv iota. now rewrite IH.
Qed.

End Restoration.

(** C3: the ellipsis pass rewrites a maximal run of [n >= 2] periods
    to [n] protected-period markers and one boundary marker, whatever
    stands before and after the run; restoring the markers, in any
    surrounding text, gives back the [n] periods with the boundary
    marker right behind them, so the final split cuts there. *)
Theorem ellipsis_run_rewritten (pre post : str) (n : nat) :
  2 <= n -> last pre 0%N <> period -> hd 0%N post <> period ->
  exists pre' post',
    pass_ellipsis pre = Ok pre' /\
    pass_ellipsis post = Ok post' /\
    pass_ellipsis (pre ++ repeat period n ++ post) =
      Ok (pre' ++ times prd n ++ stop ++ post') /\
    (forall a b,
        restore (a ++ (times prd n ++ stop) ++ b) =
        restore a ++ (repeat period n ++ stop) ++ restore b) /\
    split stop (restore (times prd n ++ stop)) = [repeat period n; []].
Proof.
  intros Hn Hpre Hpost.
  exists (sub_go _MULTIPLE_DOTS ellipsis_repl pre 0),
    (sub_go _MULTIPLE_DOTS ellipsis_repl post 0).
  repeat split; try reflexivity.
  - unfold pass_ellipsis, sub. fold ellipsis_repl. f_equal.
    rewrite sub_go_dots_app by (assumption || lia).
    now rewrite sub_go_dots_run.
  - intros a b. destruct n as [|n]; [lia|]. apply restore_run.
  - rewrite restore_times. apply split_periods.
Qed.

Lemma ellipsis_run_rewritten_witness :
  exists pre' post',
    pass_ellipsis (utf8 "Wait") = Ok pre' /\
    pass_ellipsis (utf8 " really?") = Ok post' /\
    pass_ellipsis (utf8 "Wait" ++ repeat period 3 ++ utf8 " really?") =
      Ok (pre' ++ times prd 3 ++ stop ++ post') /\
    (forall a b,
        restore (a ++ (times prd 3 ++ stop) ++ b) =
        restore a ++ (repeat period 3 ++ stop) ++ restore b) /\
    split stop (restore (times prd 3 ++ stop)) = [repeat period 3; []].
Proof.
  apply (ellipsis_run_rewritten (utf8 "Wait") (utf8 " really?") 3);
    [lia|discriminate|discriminate].
Defined.

(** ** The quote statements *)

Section Quotes.

(** The [in] test in front of a [replace] changes nothing. *)
Lemma guarded_replace (g : char) (old new t : str) :
  In g old ->
  (if contains [g] t then replace old new t else t) = replace old new t.
Proof.
  intros Hg. destruct (contains [g] t) eqn:E; [reflexivity|].
  symmetry. apply replace_absent.
  apply (contains_absent g); [exact Hg|now apply contains_single].
Qed.

(** [replace] of a two-character text with distinct characters works
    on the two sides of an occurrence independently. *)
Lemma replace_go_pair (x y : char) (new a b : str) (skip : nat) :
  x <> y -> skip <= length a ->
  replace_go [x; y] new (a ++ [x; y] ++ b) skip =
  replace_go [x; y] new a skip ++ new ++ replace_go [x; y] new b 0.
Proof.
  intros Hxy. revert skip. induction a as [|c a IH]; intros skip Hk.
  - simpl in Hk. replace skip with 0 by lia.
    apply (replace_old_app [x; y] new b). discriminate.
  - destruct skip as [|k].
    + change ((c :: a) ++ [x; y] ++ b) with (c :: (a ++ [x; y] ++ b)).
      cbn [replace_go].
      assert (E : starts_with [x; y] (c :: a ++ [x; y] ++ b) =
                  starts_with [x; y] (c :: a)).
      { destruct a as [|d a]; simpl; [|reflexivity].
        destruct (N.eqb_spec y x); [congruence|].
        now rewrite !andb_false_r. }
      rewrite E. destruct (starts_with [x; y] (c :: a)) eqn:S.
      * rewrite IH; [now rewrite <- app_assoc|].
        destruct a; simpl in *; [|lia].
        now rewrite andb_false_r in S.
      * rewrite IH by lia. reflexivity.
    + cbn [app replace_go]. apply IH. simpl in Hk. lia.
Qed.

Lemma replace_pair (x y : char) (new a b : str) :
  x <> y ->
  replace [x; y] new (a ++ [x; y] ++ b) =
  replace [x; y] new a ++ new ++ replace [x; y] new b.
Proof. intros H. apply replace_go_pair; [exact H|lia]. Qed.

End Quotes.

(** Each quote statement moves every occurrence of its pair: the mark
    goes behind the quote, on whatever text the statement is run.  A
    text with no straight quote and no '.' in front of a curly quote
    passes the four statements unchanged. *)
Lemma quote_swaps (a b : str) :
  swap_curly_dot (a ++ [period; cquote] ++ b) =
    swap_curly_dot a ++ [cquote; period] ++ swap_curly_dot b /\
  swap_straight_dot (a ++ [period; dquote] ++ b) =
    swap_straight_dot a ++ [dquote; period] ++ swap_straight_dot b /\
  swap_straight_bang (a ++ [chr "!"; dquote] ++ b) =
    swap_straight_bang a ++ [dquote; chr "!"] ++ swap_straight_bang b /\
  swap_straight_qmark (a ++ [chr "?"; dquote] ++ b) =
    swap_straight_qmark a ++ [dquote; chr "?"] ++ swap_straight_qmark b /\
  (forall text,
      contains [dquote] text = false ->
      contains [period; cquote] text = false ->
      pass_quotes text = text).
Proof.
  split; [|split; [|split; [|split]]].
  5: { intros text Hq Hc. apply contains_single in Hq.
       assert (K : forall x new, replace [x; dquote] new text = text).
       { intros x new. apply replace_absent.
         apply (contains_absent dquote); [simpl; tauto|exact Hq]. }
       assert (A1 : swap_curly_dot text = text).
       { unfold swap_curly_dot. rewrite (replace_absent _ _ text Hc).
         now destruct (contains [cquote] text). }
       assert (A2 : swap_straight_dot text = text).
       { unfold swap_straight_dot. rewrite K.
         now destruct (contains [dquote] text). }
       assert (A3 : swap_straight_bang text = text).
       { unfold swap_straight_bang. rewrite K.
         now destruct (contains (utf8 "!") text). }
       assert (A4 : swap_straight_qmark text = text).
       { unfold swap_straight_qmark. rewrite K.
         now destruct (contains (utf8 "?") text). }
       unfold pass_quotes. now rewrite A1, A2, A3, A4. }
  all: unfold swap_curly_dot, swap_straight_dot, swap_straight_bang,
         swap_straight_qmark;
       rewrite ?(guarded_replace cquote) by (simpl; tauto);
       rewrite ?(guarded_replace dquote) by (simpl; tauto);
       rewrite ?(guarded_replace (chr "!")) by (simpl; tauto);
       rewrite ?(guarded_replace (chr "?")) by (simpl; tauto);
       apply replace_pair; discriminate.
Qed.

(** C4: the claim has every '.', '!' and '?' in front of either closing
    quote moved behind it before the boundaries are marked.  The
    function has a statement for '.' in front of the curly quote and
    statements for '.', '!' and '?' in front of the straight quote, and
    none for '!' or '?' in front of the curly quote.  There the mark
    stays in front of the quote and the text is cut between the two,
    while the same text with a straight quote, or with a period, is cut
    behind the quote. *)
Theorem curly_quote_mark_not_moved :
  split_into_sentences (utf8 "Hei!” Moi") =
    Ok [utf8 "Hei!"; utf8 "” Moi"] /\
  split_into_sentences (utf8 "Hei?” Moi") =
    Ok [utf8 "Hei?"; utf8 "” Moi"] /\
  split_into_sentences (utf8 "Hei.” Moi") =
    Ok [utf8 "Hei”."; utf8 "Moi"] /\
  split_into_sentences (utf8 "Hei!" ++ dquote :: utf8 " Moi") =
    Ok [utf8 "Hei" ++ [dquote; chr "!"]; utf8 "Moi"] /\
  split_into_sentences (utf8 "Hei?" ++ dquote :: utf8 " Moi") =
    Ok [utf8 "Hei" ++ [dquote; chr "?"]; utf8 "Moi"] /\
  split_into_sentences (utf8 "Hei." ++ dquote :: utf8 " Moi") =
    Ok [utf8 "Hei" ++ [dquote; period]; utf8 "Moi"] /\
  pass_quotes [chr "!"; cquote] = [chr "!"; cquote] /\
  pass_quotes [chr "?"; cquote] = [chr "?"; cquote].
Proof. repeat split; vm_compute; reflexivity. Qed.

(** ** Keyword sampling *)

Section Sampling.

Variable rng : nat -> nat.

Lemma nth_split_at (A : Type) (l : list A) (j : nat) (d : A) :
  j < length l -> l = firstn j l ++ nth j l d :: skipn (S j) l.
Proof.
  revert j. induction l as [|x l IH]; intros j H; simpl in H; [lia|].
  destruct j as [|j]; simpl; [reflexivity|].
  f_equal. apply IH. lia.
Qed.

Lemma remove_nth_nodup (A : Type) (l : list A) (j : nat) (d : A) :
  NoDup l -> j < length l ->
  NoDup (remove_nth j l) /\ ~ In (nth j l d) (remove_nth j l).
Proof.
  intros Hl Hj. unfold remove_nth.
  rewrite (nth_split_at _ l j d Hj) in Hl at 1.
  split; [now apply NoDup_remove_1 in Hl|now apply NoDup_remove_2 in Hl].
Qed.

Lemma remove_nth_incl (A : Type) (l : list A) (j : nat) :
  incl (remove_nth j l) l.
Proof.
  intros x H. unfold remove_nth in H.
  rewrite <- (firstn_skipn j l).
  apply in_app_or in H as [H|H]; apply in_or_app; [now left|right].
  rewrite <- (firstn_skipn 1 (skipn j l)), skipn_skipn.
  apply in_or_app. now right.
Qed.

Lemma remove_nth_length (A : Type) (l : list A) (j : nat) :
  j < length l -> length (remove_nth j l) = length l - 1.
Proof.
  intros H. unfold remove_nth.
  rewrite length_app, length_firstn, length_skipn. lia.
Qed.

Lemma remove_nth_map (A B : Type) (f : A -> B) (l : list A) (j : nat) :
  remove_nth j (map f l) = map f (remove_nth j l).
Proof. unfold remove_nth. now rewrite map_app, firstn_map, skipn_map. Qed.

(** Drawing from a pool without repetition gives [k] elements of the
    pool without repetition. *)
Lemma sample_go_nodup (A : Type) (k : nat) :
  forall (pool : list A) (i : nat),
    NoDup pool -> k <= length pool ->
    length (sample_go rng pool i k) = k /\
    NoDup (sample_go rng pool i k) /\
    incl (sample_go rng pool i k) pool.
Proof.
  induction k as [|k IH]; intros pool i Hp Hk.
  - simpl. repeat split; [constructor|intros x []].
  - destruct pool as [|d pool]; [simpl in Hk; lia|].
    cbn [sample_go]. set (l := d :: pool) in *.
    set (j := rng i mod length l).
    assert (Hj : j < length l) by (apply Nat.mod_upper_bound; discriminate).
    destruct (remove_nth_nodup _ l j d Hp Hj) as [Hn Hx].
    destruct (IH (remove_nth j l) (S i) Hn) as (Hlen & Hnd & Hincl).
    { rewrite remove_nth_length by exact Hj. lia. }
    repeat split.
    + simpl. now rewrite Hlen.
    + constructor; [|exact Hnd]. intros Hin. apply Hx, Hincl, Hin.
    + intros x [<-|Hin]; [now apply nth_In|].
      now apply (remove_nth_incl _ l j), Hincl.
Qed.

(** The draw commutes with renaming the elements of the pool. *)
Lemma sample_go_map (A B : Type) (f : A -> B) (k : nat) :
  forall (pool : list A) (i : nat),
    sample_go rng (map f pool) i k = map f (sample_go rng pool i k).
Proof.
  induction k as [|k IH]; intros pool i; [reflexivity|].
  destruct pool as [|d pool]; [reflexivity|].
  change (map f (d :: pool)) with (f d :: map f pool) at 1.
  cbn [sample_go]. change (f d :: map f pool) with (map f (d :: pool)).
  rewrite length_map, map_nth, remove_nth_map, IH. reflexivity.
Qed.

Lemma map_nth_seq (A : Type) (l : list A) (d : A) :
  map (fun i => nth i l d) (seq 0 (length l)) = l.
Proof.
  induction l as [|x l IH]; [reflexivity|].
  simpl. f_equal. rewrite <- seq_shift, map_map. exact IH.
Qed.

(** [random.sample] returns elements at [k] different positions. *)
Lemma sample_positions (A : Type) (population : list A) (d : A) (k : nat) :
  k <= length population ->
  exists positions,
    sample_go rng population 0 k = map (fun i => nth i population d) positions /\
    length positions = k /\ NoDup positions /\
    Forall (fun i => i < length population) positions.
Proof.
  intros Hk. exists (sample_go rng (seq 0 (length population)) 0 k).
  destruct (sample_go_nodup _ k (seq 0 (length population)) 0
              (seq_NoDup _ _)) as (Hlen & Hnd & Hincl).
  { now rewrite length_seq. }
  repeat split; try assumption.
  - rewrite <- sample_go_map, map_nth_seq. reflexivity.
  - apply Forall_forall. intros i Hi. apply Hincl, in_seq in Hi. lia.
Qed.

End Sampling.

(** C2, as stated: [n] pairwise-distinct strings for every integer [n].
    The word list names some words more than once ("moottori" at
    positions 91 and 98), so two different positions can give the same
    string; and a negative [n] raises instead of returning. *)
Lemma generate_keywords_repeats :
  (exists keywords,
     generate_keywords (fun i => match i with O => 91 | _ => 97 end) 2
       = Ok keywords /\ ~ NoDup keywords) /\
  generate_keywords (fun _ => 0) (-1) = Raise ValueError.
Proof.
  split; [|reflexivity].
  exists [utf8 "moottori"; utf8 "moottori"]. split.
  - vm_compute. reflexivity.
  - intros H. inversion H as [|? ? Hin _]; subst. apply Hin. now left.
Qed.

(** C2, amended: for [0 <= n <= len(WORD_LIST)] the call returns the
    words at [n] pairwise-different positions of the word list, so
    exactly [n] strings, each a member of the list; for any other [n],
    negative or larger than the list, it raises [ValueError]. *)
Theorem generate_keywords_spec (rng : nat -> nat) (n : Z) :
  if ((0 <=? n) && (n <=? Z.of_nat (length WORD_LIST)))%Z
  then exists positions,
      generate_keywords rng n =
        Ok (map (fun i => nth i WORD_LIST []) positions) /\
      Z.of_nat (length positions) = n /\
      NoDup positions /\
      Forall (fun i => i < length WORD_LIST) positions /\
      Forall (fun i => In (nth i WORD_LIST []) WORD_LIST) positions
  else generate_keywords rng n = Raise ValueError.
Proof.
  unfold generate_keywords, sample.
  destruct (Z.leb_spec 0 n) as [H0|H0];
    destruct (Z.leb_spec n (Z.of_nat (length WORD_LIST))) as [H1|H1];
    cbn [andb].
  - replace (n <? 0)%Z with false by (symmetry; apply Z.ltb_ge; lia).
    replace (Z.of_nat (length WORD_LIST) <? n)%Z with false
      by (symmetry; apply Z.ltb_ge; lia).
    cbn [orb].
    destruct (sample_positions rng _ WORD_LIST [] (Z.to_nat n))
      as (positions & Heq & Hlen & Hnd & Hlt); [lia|].
    exists positions. rewrite Heq. repeat split; try assumption; [lia|].
    eapply Forall_impl; [|exact Hlt]. intros i Hi. now apply nth_In.
  - replace (Z.of_nat (length WORD_LIST) <? n)%Z with true
      by (symmetry; apply Z.ltb_lt; lia).
    now rewrite orb_true_r.
  - now replace (n <? 0)%Z with true by (symmetry; apply Z.ltb_lt; lia).
  - now replace (n <? 0)%Z with true by (symmetry; apply Z.ltb_lt; lia).
Qed.

(** ** Texts with markers *)

Section Markers.

Lemma Rw_refl (s : str) : Rw s s.
Proof. induction s; constructor; assumption. Qed.

Lemma Rw_app (a a' b b' : str) :
  Rw a a' -> Rw b b' -> Rw (a ++ b) (a' ++ b').
Proof.
  intros Ha Hb. induction Ha; simpl; try rewrite <- ?app_assoc;
    try (constructor; assumption).
  exact Hb.
Qed.

Lemma Marked_refl (p : bool) (t : str) : Marked p t t.
Proof. induction t; constructor; assumption. Qed.

Lemma terminal_not_space (c : char) :
  terminal c = true -> is_space c = true -> False.
Proof.
  unfold terminal. intros H.
  repeat (apply orb_true_iff in H as [H|H]);
    apply N.eqb_eq in H; subst; discriminate.
Qed.

Lemma Rw_plain_cons (c : char) (s s' : str) :
  plain c = true -> Rw (c :: s) s' -> exists a', s' = c :: a' /\ Rw s a'.
Proof.
  unfold plain. intros Hc H. apply andb_true_iff in Hc as [Ht Hs].
  apply negb_true_iff in Ht, Hs.
  inversion H; subst; eauto; try discriminate; congruence.
Qed.

Lemma Rw_plain_prefix (x s s' : str) :
  forallb plain x = true -> Rw (x ++ s) s' ->
  exists a', s' = x ++ a' /\ Rw s a'.
Proof.
  revert s'. induction x as [|c x IH]; intros s' Hx H; simpl in *.
  - now exists s'.
  - apply andb_true_iff in Hx as [Hc Hx].
    apply Rw_plain_cons in H as (a & -> & H); [|exact Hc].
    destruct (IH _ Hx H) as (a' & -> & H'). now exists a'.
Qed.

(** The passes keep a marked text a marked text. *)
Lemma Marked_Rw (t s : str) :
  Marked true t s -> forall s', Rw s s' -> Marked true t s'.
Proof.
  induction 1 as [|c t s H IH|c c' t s Hc Hc' H IH|t s Hp H IH|t s H IH];
    intros s' R.
  - inversion R. apply M_nil.
  - inversion R; subst.
    + apply M_char; auto.
    + apply M_prd; auto.
    + apply M_prd; [reflexivity|]. apply M_stop; auto.
    + apply M_char. apply M_stop; auto.
    + apply M_stop. apply M_char; auto.
    + apply M_space; auto.
  - inversion R; subst; try discriminate.
    + apply M_space; auto.
    + exfalso; eapply terminal_not_space; eauto.
    + apply M_stop. apply M_space; auto.
    + apply M_space; auto.
  - apply Rw_plain_prefix in R as (a' & -> & R); [|reflexivity].
    apply M_prd; auto.
  - apply Rw_plain_prefix in R as (a' & -> & R); [|reflexivity].
    apply M_stop; auto.
Qed.

End Markers.

(** ** What each pass does to a match *)

Section PassRewrites.

Lemma rmatch_eps_inv (b : nat) (s m s' : str) (cs cs' : caps) :
  In (m, s', cs') (rmatch REps b s cs) -> m = [] /\ s' = s /\ cs' = cs.
Proof. intros [H|[]]. now inversion H. Qed.

Lemma rmatch_char_inv (k : cclass) (b : nat) (s m s' : str) (cs cs' : caps) :
  In (m, s', cs') (rmatch (RChar k) b s cs) ->
  exists x, s = x :: s' /\ m = [x] /\ cs' = cs /\ cmatch k x = true.
Proof.
  simpl. destruct s as [|x s]; [intros []|].
  destruct (cmatch k x) eqn:E; [|intros []].
  intros [H|[]]. inversion H; subst. now exists x.
Qed.

Lemma rmatch_seq_inv (r1 r2 : regex) (b : nat) (s m s' : str) (cs cs' : caps) :
  In (m, s', cs') (rmatch (RSeq r1 r2) b s cs) ->
  exists m1 m2 s1 c1,
    m = m1 ++ m2 /\
    In (m1, s1, c1) (rmatch r1 b s cs) /\
    In (m2, s', cs') (rmatch r2 (b + ngroups r1) s1 c1).
Proof.
  simpl. intros H. apply in_flat_map in H as ([[m1 s1] c1] & H1 & H).
  apply in_map_iff in H as ([[m2 s2] c2] & Heq & H2). simpl in *.
  inversion Heq; subst. now exists m1, m2, s1, c1.
Qed.

Lemma rmatch_group_inv (r : regex) (b : nat) (s m s' : str) (cs cs' : caps) :
  In (m, s', cs') (rmatch (RGroup r) b s cs) ->
  exists c1, cs' = (S b, m) :: c1 /\ In (m, s', c1) (rmatch r (S b) s cs).
Proof.
  simpl. intros H. apply in_map_iff in H as ([[m1 s1] c1] & Heq & H1).
  simpl in Heq. inversion Heq; subst. now exists c1.
Qed.

(** A pattern without groups leaves the captures alone. *)
Lemma rmatch_nogroups (r : regex) :
  ngroups r = 0 ->
  forall b s cs m s' cs', In (m, s', cs') (rmatch r b s cs) -> cs' = cs.
Proof.
  induction r as [|k|r1 IH1 r2 IH2|r1 IH1 r2 IH2|r IH|r IH|k n];
    simpl; intros Hn b s cs m s' cs' H; try discriminate.
  - destruct H as [H|[]]. now inversion H.
  - destruct s as [|x s]; [contradiction|].
    destruct (cmatch k x); [|contradiction].
    destruct H as [H|[]]. now inversion H.
  - apply in_flat_map in H as ([[m1 s1] c1] & H1 & H).
    apply in_map_iff in H as ([[m2 s2] c2] & Heq & H2). simpl in *.
    inversion Heq; subst.
    rewrite (IH2 ltac:(lia) _ _ _ _ _ _ H2). eapply IH1; eauto. lia.
  - apply in_app_or in H as [H|H]; [eapply IH1|eapply IH2]; eauto; lia.
  - apply in_app_or in H as [H|[H|[]]]; [eapply IH; eauto|now inversion H].
  - apply in_map_iff in H as ([m1 s1] & Heq & _). now inversion Heq.
Qed.

Lemma rmatch_lit_inv (w : str) :
  forall b s m s' cs cs',
    In (m, s', cs') (rmatch (lit w) b s cs) -> m = w /\ cs' = cs.
Proof.
  induction w as [|c w IH]; intros b s m s' cs cs' H.
  - apply rmatch_eps_inv in H as (-> & _ & ->). now split.
  - cbn [lit] in H. apply rmatch_seq_inv in H as (m1 & m2 & s1 & c1 & -> & H1 & H2).
    apply rmatch_char_inv in H1 as (x & _ & -> & -> & Hx).
    simpl in Hx. apply N.eqb_eq in Hx; subst x.
    apply IH in H2 as [-> ->]. now split.
Qed.

Lemma sub_go_match (r : regex) (rp : repl) (s m s' : str) (cs : caps) :
  match_at r s = Some (m, s', cs) -> m <> [] ->
  sub_go r rp s 0 = apply_repl rp m cs ++ sub_go r rp s' 0.
Proof.
  intros H Hm. pose proof (match_at_in _ _ _ _ _ H) as Hin.
  apply rmatch_inv in Hin as [Hs _].
  destruct m as [|c m]; [congruence|]. subst s.
  change ((c :: m) ++ s') with (c :: (m ++ s')).
  cbn [sub_go]. change (c :: (m ++ s')) with ((c :: m) ++ s').
  rewrite H. f_equal.
  replace (length (c :: m) - 1) with (length m) by (simpl; lia).
  apply sub_go_skip.
Qed.

(** If every match is rewritten by [Rw], so is the text. *)
Lemma sub_go_Rw (r : regex) (rp : repl) :
  (forall s m s' cs,
      In (m, s', cs) (rmatch r 0 s []) ->
      m <> [] /\ Rw m (apply_repl rp m cs)) ->
  forall s skip, Rw (skipn skip s) (sub_go r rp s skip).
Proof.
  intros Hm. induction s as [|c s IH]; intros skip.
  - rewrite skipn_nil. constructor.
  - destruct skip as [|k]; [|apply IH].
    cbn [skipn sub_go].
    destruct (match_at r (c :: s)) as [[[m s'] cs]|] eqn:E.
    + apply match_at_in in E. destruct (Hm _ _ _ _ E) as [Hne HR].
      apply rmatch_inv in E as [Heq _].
      destruct m as [|c0 m]; [congruence|]. simpl in Heq.
      inversion Heq; subst c0 s.
      change (c :: m ++ s') with ((c :: m) ++ s').
      apply Rw_app; [exact HR|].
      replace (length (c :: m) - 1) with (length m) by (simpl; lia).
      specialize (IH (length m)).
      now rewrite skipn_app, skipn_all, Nat.sub_diag in IH.
    + constructor. apply (IH 0).
Qed.

End PassRewrites.

(** Reading off the parts of a match from the shape of the pattern. *)
Ltac shape :=
  repeat match goal with
  | H : In _ (rmatch (cat _) _ _ _) |- _ => cbn [cat] in H
  | H : In _ (rmatch (RSeq _ _) _ _ _) |- _ =>
      apply rmatch_seq_inv in H;
      let m1 := fresh "m" in let m2 := fresh "m" in
      let s1 := fresh "s" in let c1 := fresh "c" in
      let H1 := fresh "H" in
      destruct H as (m1 & m2 & s1 & c1 & -> & H1 & H)
  | H : In _ (rmatch (RGroup ?r) _ _ _) |- _ =>
      apply rmatch_group_inv in H;
      let c1 := fresh "c" in
      destruct H as (c1 & -> & H);
      apply (rmatch_nogroups r eq_refl) in H; subst c1
  | H : In _ (rmatch (RChar _) _ _ _) |- _ =>
      apply rmatch_char_inv in H;
      let x := fresh "x" in let Hx := fresh "Hx" in
      destruct H as (x & -> & -> & -> & Hx)
  | H : In _ (rmatch (lit _) _ _ _) |- _ =>
      apply rmatch_lit_inv in H; destruct H as (-> & ->)
  | H : In _ (rmatch REps _ _ _) |- _ =>
      apply rmatch_eps_inv in H; destruct H as (-> & -> & ->)
  | H : cmatch (CChar _) _ = true |- _ =>
      simpl in H; apply N.eqb_eq in H; subst
  end.

(** Looking up the groups a template names. *)
Ltac groups :=
  cbn [apply_repl expand flat_map group];
  repeat match goal with
         | |- context [Nat.eqb ?a ?b] =>
             let v := eval vm_compute in (Nat.eqb a b) in
             change (Nat.eqb a b) with v; cbv iota
         end;
  rewrite ?app_nil_r;
  change (utf8 " ") with [chr " "];
  change (utf8 "<prd> ") with (prd ++ [chr " "]);
  change (utf8 "<stop> ") with (stop ++ [chr " "]);
  rewrite <- ?app_assoc; cbn [app].

Lemma Rw_app_l (m a a' : str) : Rw a a' -> Rw (m ++ a) (m ++ a').
Proof. intros H. apply Rw_app; [apply Rw_refl|exact H]. Qed.

Ltac rw_steps :=
  repeat first
    [ apply Rw_refl
    | apply Rw_app_l
    | apply Rw_prd
    | apply Rw_stop_space; [reflexivity|]
    | apply Rw_space; [assumption|reflexivity|]
    | apply Rw_char ].

Ltac nonempty :=
  let E := fresh "E" in
  intros E; apply (f_equal (@length char)) in E;
  rewrite ?length_app in E; simpl in E; lia.

Ltac pass_Rw :=
  let H := fresh "H" in
  intros ? ? H; unfold_passes; apply sub_ok_inv in H; subst;
  match goal with
  | |- Rw ?t (sub_go ?r ?rp ?t 0) =>
      refine (sub_go_Rw r rp _ t 0)
  end;
  let s := fresh "s" in let m := fresh "m" in
  let s' := fresh "s'" in let cs := fresh "cs" in
  intros s m s' cs H;
  unfold _PREFIXES, _WEBSITES, _DIGITS, _ALPHABETS, _ACRONYMS, _STARTERS,
    _SUFFIXES, dot in H;
  shape; groups; split; [nonempty|rw_steps].

Section PassesRewrite.

Lemma pass_prefixes_Rw : forall t t', pass_prefixes t = Ok t' -> Rw t t'.
Proof. pass_Rw. Qed.

Lemma pass_websites_Rw : forall t t', pass_websites t = Ok t' -> Rw t t'.
Proof. pass_Rw. Qed.

Lemma pass_digits_Rw : forall t t', pass_digits t = Ok t' -> Rw t t'.
Proof. pass_Rw. Qed.

Lemma pass_initial_Rw : forall t t', pass_initial t = Ok t' -> Rw t t'.
Proof. pass_Rw. Qed.

Lemma pass_acronym_starter_Rw :
  forall t t', pass_acronym_starter t = Ok t' -> Rw t t'.
Proof. pass_Rw. Qed.

Lemma pass_abbrev3_Rw : forall t t', pass_abbrev3 t = Ok t' -> Rw t t'.
Proof. pass_Rw. Qed.

Lemma pass_abbrev2_Rw : forall t t', pass_abbrev2 t = Ok t' -> Rw t t'.
Proof. pass_Rw. Qed.

Lemma pass_suffix_Rw : forall t t', pass_suffix t = Ok t' -> Rw t t'.
Proof. pass_Rw. Qed.

Lemma pass_letter_Rw : forall t t', pass_letter t = Ok t' -> Rw t t'.
Proof. pass_Rw. Qed.

End PassesRewrite.

Section MoreRewrites.

Lemma replace_go_Rw (old new : str) :
  old <> [] -> Rw old new ->
  forall s skip, Rw (skipn skip s) (replace_go old new s skip).
Proof.
  intros Hne HR. induction s as [|c s IH]; intros skip.
  - rewrite skipn_nil. constructor.
  - destruct skip as [|k]; [|apply IH].
    cbn [skipn replace_go].
    destruct (starts_with old (c :: s)) eqn:E.
    + apply starts_with_inv in E as [r E].
      destruct old as [|c0 o]; [congruence|]. simpl in E.
      inversion E; subst c0 s.
      change (c :: o ++ r) with ((c :: o) ++ r).
      apply Rw_app; [exact HR|].
      replace (length (c :: o) - 1) with (length o) by (simpl; lia).
      specialize (IH (length o)).
      now rewrite skipn_app, skipn_all, Nat.sub_diag in IH.
    + constructor. apply (IH 0).
Qed.

Lemma replace_Rw (old new s : str) :
  old <> [] -> Rw old new -> Rw s (replace old new s).
Proof. intros H1 H2. exact (replace_go_Rw old new H1 H2 s 0). Qed.

Lemma dots_Rw (m : str) :
  forallb (cmatch (CChar period)) m = true -> 1 <= length m ->
  Rw m (times prd (length m) ++ stop).
Proof.
  induction m as [|c m IH]; intros Hm Hl; [simpl in Hl; lia|].
  cbn [forallb] in Hm. apply andb_true_iff in Hm as [Hc Hm].
  simpl in Hc. apply N.eqb_eq in Hc; subst c.
  cbn [length times]. rewrite <- app_assoc. destruct m as [|d m].
  - cbn [length times app]. rewrite <- (app_nil_r stop).
    apply Rw_prd_stop. constructor.
  - apply Rw_prd. apply IH; [exact Hm|simpl; lia].
Qed.

Lemma pass_ellipsis_Rw : forall t t', pass_ellipsis t = Ok t' -> Rw t t'.
Proof.
  intros t t' H. unfold pass_ellipsis in H. apply sub_ok_inv in H. subst t'.
  refine (sub_go_Rw _ _ _ t 0).
  intros s m s' cs H. unfold _MULTIPLE_DOTS in H. cbn [rmatch] in H.
  apply in_map_iff in H as ([m1 s1] & Heq & H). simpl in Heq.
  inversion Heq; subst. apply rep_matches_inv in H as (_ & Hall & Hlen).
  split; [destruct m; simpl in *; [lia|discriminate]|].
  cbn [apply_repl]. apply dots_Rw; [exact Hall|lia].
Qed.

Lemma pass_phd_Rw (t : str) : Rw t (pass_phd t).
Proof.
  unfold pass_phd. destruct (contains _ t); [|apply Rw_refl].
  apply replace_Rw; [discriminate|].
  change (Rw (utf8 "Ph" ++ period :: utf8 "D" ++ [period])
            (utf8 "Ph" ++ prd ++ utf8 "D" ++ prd ++ [])).
  rw_steps.
Qed.

(** The three boundary statements keep a marked text marked. *)
Lemma mark_boundaries_Marked (t s : str) :
  Marked true t s -> Marked true t (mark_boundaries s).
Proof.
  intros H. unfold mark_boundaries.
  repeat (eapply Marked_Rw;
          [|apply replace_Rw;
            [discriminate|apply Rw_stop; [reflexivity|constructor]]]).
  exact H.
Qed.

End MoreRewrites.

(** ** Reading a marked text *)

Section MarkedFacts.

Variable p : bool.

(** A character other than '<' in the working text is a character of
    the text. *)
Lemma Marked_cons_inv (t s : str) (c : char) :
  Marked p t (c :: s) -> c <> lt_sign ->
  exists c0 t0,
    t = c0 :: t0 /\ Marked p t0 s /\
    (c0 = c \/ (is_space c0 = true /\ is_space c = true)).
Proof.
  intros H Hc. inversion H; subst.
  - exists c, t0. auto.
  - exists c0, t0. auto.
  - exfalso. now apply Hc.
  - exfalso. now apply Hc.
Qed.

Lemma solid_not_lt (c : char) : solid c = true -> c <> lt_sign.
Proof. intros H ->. discriminate. Qed.

Lemma solid_not_space (c : char) : solid c = true -> is_space c = false.
Proof.
  unfold solid. intros H. apply andb_true_iff in H as [H _].
  now apply negb_true_iff in H.
Qed.

Lemma Marked_starts_with (x : str) :
  forallb solid x = true ->
  forall t s, Marked p t s -> starts_with x s = true -> starts_with x t = true.
Proof.
  induction x as [|c x IH]; intros Hx t s H Hs; [reflexivity|].
  cbn [forallb] in Hx. apply andb_true_iff in Hx as [Hc Hx].
  destruct s as [|d s]; [discriminate|]. simpl in Hs.
  apply andb_true_iff in Hs as [Hd Hs]. apply N.eqb_eq in Hd; subst d.
  apply Marked_cons_inv in H as (c0 & t0 & -> & H & Hc0);
    [|now apply solid_not_lt].
  destruct Hc0 as [->|[_ Hsp]].
  - simpl. rewrite N.eqb_refl. simpl. eapply IH; eauto.
  - rewrite (solid_not_space _ Hc) in Hsp. discriminate.
Qed.

Lemma contains_cons_true (x : str) (c : char) (s : str) :
  contains x s = true -> contains x (c :: s) = true.
Proof. intros H. cbn [contains]. rewrite H. apply orb_true_r. Qed.

(** An occurrence of a text of solid characters does not start inside
    a marker. *)
Lemma contains_skip (x y s : str) :
  (forall c, In c y -> hd 0%N x <> c) -> x <> [] ->
  contains x (y ++ s) = contains x s.
Proof.
  intros Hy Hx. induction y as [|d y IH]; [reflexivity|].
  cbn [app contains]. rewrite IH by (intros c Hc; apply Hy; now right).
  destruct x as [|c x]; [congruence|]. simpl.
  destruct (N.eqb_spec c d) as [->|_]; [|reflexivity].
  exfalso. apply (Hy d); [now left|reflexivity].
Qed.

Lemma solid_hd_not_marker (x : str) (c : char) :
  forallb solid x = true -> x <> [] ->
  In c (utf8 "<prd>stop") -> hd 0%N x <> c.
Proof.
  intros Hx Hne Hc E. destruct x as [|d x]; [congruence|].
  simpl in E. subst d. cbn [forallb] in Hx.
  apply andb_true_iff in Hx as [Hd _]. unfold solid in Hd.
  apply andb_true_iff in Hd as [_ Hd]. apply negb_true_iff in Hd.
  assert (K : existsb (N.eqb c) (utf8 "<prd>stop") = true).
  { apply existsb_exists. exists c. split; [exact Hc|apply N.eqb_refl]. }
  congruence.
Qed.

(** A text of solid characters found in the working text is found in
    the text. *)
Lemma Marked_contains (x : str) :
  forallb solid x = true -> x <> [] ->
  forall t s, Marked p t s -> contains x s = true -> contains x t = true.
Proof.
  intros Hx Hne. induction 1 as [|c t s H IH|c c' t s Hc Hc' H IH
                                |t s Hp H IH|t s H IH]; intros Hs.
  - destruct x; [congruence|discriminate].
  - cbn [contains] in Hs. apply orb_true_iff in Hs as [Hs|Hs].
    + cbn [contains].
      rewrite (Marked_starts_with x Hx (c :: t) (c :: s)); auto.
      now apply M_char.
    + apply contains_cons_true. auto.
  - cbn [contains] in Hs. apply orb_true_iff in Hs as [Hs|Hs].
    + cbn [contains].
      rewrite (Marked_starts_with x Hx (c :: t) (c' :: s)); auto.
      now apply M_space.
    + apply contains_cons_true. auto.
  - rewrite contains_skip in Hs; [apply contains_cons_true; auto| |exact Hne].
    intros c Hc. apply solid_hd_not_marker; auto.
    simpl in Hc. simpl. tauto.
  - rewrite contains_skip in Hs; [auto| |exact Hne].
    intros c Hc. apply solid_hd_not_marker; auto.
    simpl in Hc. simpl. tauto.
Qed.

End MarkedFacts.

(** ** When the suffix rule does not fire *)

Section SuffixRule.

Lemma sub_go_no_match (r : regex) (rp : repl) (s : str) :
  search r s = false -> sub_go r rp s 0 = s.
Proof.
  induction s as [|c s IH]; intros H; [reflexivity|].
  cbn [search] in H. cbn [sub_go].
  destruct (match_at r (c :: s)); [discriminate|].
  f_equal. now apply IH.
Qed.

Lemma Looser_match (p : bool) (r r' : regex) :
  Looser r r' ->
  forall b b' s cs cs0 m s' cs' t,
    In (m, s', cs') (rmatch r b s cs) -> Marked p t s ->
    exists m' t' cs'',
      In (m', t', cs'') (rmatch r' b' t cs0) /\ Marked p t' s'.
Proof.
  induction 1 as [|k k' Hk|r1 r1' r2 r2' H1 IH1 H2 IH2
                 |r1 r1' r2 r2' H1 IH1 H2 IH2|r r' H IH];
    intros b b' s cs cs0 m s' cs' t Hin HM.
  - apply rmatch_eps_inv in Hin as (-> & -> & ->).
    exists [], t, cs0. split; [now left|exact HM].
  - apply rmatch_char_inv in Hin as (x & -> & -> & -> & Hx).
    destruct (Hk x Hx) as (Hlt & Hk' & Hsp).
    apply Marked_cons_inv in HM as (c0 & t0 & -> & HM & Hc0); [|exact Hlt].
    exists [c0], t0, cs0. split; [|exact HM]. simpl.
    replace (cmatch k' c0) with true; [now left|].
    destruct Hc0 as [->|[Hs0 Hs]]; [now rewrite Hk'|].
    symmetry. now apply Hsp.
  - apply rmatch_seq_inv in Hin as (m1 & m2 & s1 & c1 & -> & Hin1 & Hin2).
    destruct (IH1 b b' _ _ cs0 _ _ _ _ Hin1 HM) as (m1' & t1 & c1' & K1 & HM1).
    destruct (IH2 _ (b' + ngroups r1') _ _ c1' _ _ _ _ Hin2 HM1)
      as (m2' & t2 & c2' & K2 & HM2).
    exists (m1' ++ m2'), t2, c2'. split; [|exact HM2].
    cbn [rmatch]. apply in_flat_map. exists (m1', t1, c1'). split; [exact K1|].
    apply in_map_iff. exists (m2', t2, c2'). now split.
  - cbn [rmatch] in Hin. apply in_app_or in Hin as [Hin|Hin].
    + destruct (IH1 b b' _ _ cs0 _ _ _ _ Hin HM) as (m' & t' & c' & K & HM').
      exists m', t', c'. split; [|exact HM'].
      cbn [rmatch]. apply in_or_app. now left.
    + destruct (IH2 _ (b' + ngroups r1') _ _ cs0 _ _ _ _ Hin HM)
        as (m' & t' & c' & K & HM').
      exists m', t', c'. split; [|exact HM'].
      cbn [rmatch]. apply in_or_app. now right.
  - apply rmatch_group_inv in Hin as (c1 & -> & Hin).
    destruct (IH _ (S b') _ _ cs0 _ _ _ _ Hin HM) as (m' & t' & c' & K & HM').
    exists m', t', ((S b', m') :: c'). split; [|exact HM'].
    cbn [rmatch]. apply in_map_iff. exists (m', t', c'). now split.
Qed.

End SuffixRule.

Ltac looser_leaf :=
  let c := fresh "c" in let Hc := fresh "Hc" in
  intros c Hc; simpl in Hc;
  first
    [ apply N.eqb_eq in Hc; subst c;
      split; [discriminate|]; split; [reflexivity|];
      first [ intros Hs; discriminate Hs
            | intros _ ? Hs; exact Hs ]
    | split; [intros ->; discriminate|]; split; [exact Hc|];
      intros _ ? Hs; exact Hs ].

Section SuffixTransfer.

Lemma suffix_rule_looser : Looser suffix_rule suffix_rule_any_space.
Proof.
  let r := eval vm_compute in suffix_rule in change suffix_rule with r.
  let r := eval vm_compute in suffix_rule_any_space in
    change suffix_rule_any_space with r.
  repeat first [ apply L_seq | apply L_alt | apply L_group | apply L_eps
               | apply L_char; looser_leaf ].
Qed.

Lemma search_here (r : regex) (s : str) (x : str * str * caps) :
  In x (rmatch r 0 s []) -> search r s = true.
Proof.
  intros H. destruct s; cbn [search]; unfold match_at;
    destruct (rmatch r 0 _ []); (contradiction || reflexivity).
Qed.

Lemma search_cons (r : regex) (c : char) (s : str) :
  search r s = true -> search r (c :: s) = true.
Proof. intros H. cbn [search]. rewrite H. now destruct (match_at r (c :: s)). Qed.

Lemma search_inv (r : regex) (c : char) (s : str) :
  search r (c :: s) = true ->
  (exists x, In x (rmatch r 0 (c :: s) [])) \/ search r s = true.
Proof.
  cbn [search]. destruct (match_at r (c :: s)) as [x|] eqn:E; [|now right].
  intros _. left. exists x. destruct x as [[m s'] cs]. now apply match_at_in.
Qed.

(** The rule starts with a space. *)
Lemma suffix_rule_first (c : char) (s m s' : str) (cs : caps) :
  In (m, s', cs) (rmatch suffix_rule 0 (c :: s) []) -> c = chr " ".
Proof.
  intros H. pose proof (rmatch_inv _ _ _ _ _ _ _ H) as [Heq _].
  unfold suffix_rule in H. cbn [cat] in H.
  apply rmatch_seq_inv in H as (m1 & m2 & s1 & c1 & -> & H1 & _).
  apply rmatch_lit_inv in H1 as [-> _]. now inversion Heq.
Qed.

Lemma search_skip (y s : str) :
  ~ In (chr " ") y -> search suffix_rule (y ++ s) = true ->
  search suffix_rule s = true.
Proof.
  induction y as [|d y IH]; intros Hy H; [exact H|].
  apply search_inv in H as [[[[m s'] cs] H]|H].
  - apply suffix_rule_first in H. subst d. exfalso. apply Hy. now left.
  - apply IH; [|exact H]. intros K. apply Hy. now right.
Qed.

(** A match of the rule in the working text comes from a match of the
    loose rule in the text. *)
Lemma suffix_rule_transfer (p : bool) (t s : str) :
  Marked p t s -> search suffix_rule s = true ->
  search suffix_rule_any_space t = true.
Proof.
  induction 1 as [|c t s H IH|c c' t s Hc Hc' H IH|t s Hp H IH|t s H IH];
    intros Hs.
  - cbn [search] in Hs. unfold match_at in Hs.
    destruct (rmatch suffix_rule 0 [] []) as [|[[m s'] cs] l] eqn:E;
      [discriminate|].
    assert (K : In (m, s', cs) (rmatch suffix_rule 0 [] []))
      by (rewrite E; now left).
    apply rmatch_inv in K as [K _].
    unfold suffix_rule in E. vm_compute in E. discriminate.
  - apply search_inv in Hs as [[[[m s'] cs] Hm]|Hs].
    + destruct (Looser_match p _ _ suffix_rule_looser 0 0 _ _ [] _ _ _
                  (c :: t) Hm (M_char p c t s H)) as (m' & t' & c' & K & _).
      eapply search_here; eauto.
    + apply search_cons. auto.
  - apply search_inv in Hs as [[[[m s'] cs] Hm]|Hs].
    + destruct (Looser_match p _ _ suffix_rule_looser 0 0 _ _ [] _ _ _
                  (c :: t) Hm (M_space p c c' t s Hc Hc' H))
        as (m' & t' & c'' & K & _).
      eapply search_here; eauto.
    + apply search_cons. auto.
  - apply search_cons. apply IH. apply (search_skip prd); [|exact Hs].
    simpl. intuition discriminate.
  - apply IH. apply (search_skip stop); [|exact Hs].
    simpl. intuition discriminate.
Qed.

End SuffixTransfer.

(** ** Restoring and splitting a marked text *)

Section Reading.

Lemma contains_starts (x t : str) :
  starts_with x t = true -> contains x t = true.
Proof. intros H. destruct t; simpl in *; now rewrite H. Qed.

Lemma Marked_prefix (p : bool) (x : str) :
  forallb inner x = true ->
  forall t s, Marked p t (x ++ s) -> exists t', t = x ++ t' /\ Marked p t' s.
Proof.
  induction x as [|c x IH]; intros Hx t s H.
  - now exists t.
  - cbn [forallb] in Hx. apply andb_true_iff in Hx as [Hc Hx].
    unfold inner in Hc. apply andb_true_iff in Hc as [Hs Hl].
    apply negb_true_iff in Hs, Hl. apply N.eqb_neq in Hl.
    apply Marked_cons_inv in H as (c0 & t0 & -> & H & Hc0); [|exact Hl].
    destruct Hc0 as [->|[_ K]]; [|congruence].
    destruct (IH Hx _ _ H) as (t' & -> & H'). now exists t'.
Qed.

(** A marker the text does not contain is not spelled out in the
    working text by copied characters. *)
Lemma Marked_no_literal (p : bool) (x t s : str) (c : char) :
  forallb inner x = true ->
  Marked p t s ->
  contains (lt_sign :: x) (c :: t) = false ->
  starts_with (lt_sign :: x) (c :: s) = false.
Proof.
  intros Hx H Hc. destruct (starts_with (lt_sign :: x) (c :: s)) eqn:E;
    [|reflexivity].
  apply starts_with_inv in E as [r E]. simpl in E. inversion E; subst.
  apply Marked_prefix in H as (t' & -> & _); [|exact Hx].
  rewrite (contains_starts (lt_sign :: x) (lt_sign :: x ++ t')) in Hc;
    [discriminate|].
  apply (starts_with_app (lt_sign :: x)).
Qed.

Lemma space_not_lt (c : char) (x s : str) :
  is_space c = true -> starts_with (lt_sign :: x) (c :: s) = false.
Proof.
  intros H. cbn [starts_with]. destruct (N.eqb_spec lt_sign c) as [<-|_];
    [discriminate|reflexivity].
Qed.

(** Restoring gives the text with boundary markers only. *)
Lemma restore_Marked (t s : str) :
  Marked true t s -> contains prd t = false -> Marked false t (restore s).
Proof.
  unfold restore, replace.
  induction 1 as [|c t s H IH|c c' t s Hc Hc' H IH|t s Hp H IH|t s H IH];
    intros Ht.
  - apply M_nil.
  - cbn [replace_go].
    replace (starts_with prd (c :: s)) with false
      by (symmetry;
          exact (Marked_no_literal true (utf8 "prd>") t s c eq_refl H Ht)).
    apply M_char. apply IH. now apply contains_false_cons in Ht.
  - cbn [replace_go].
    replace (starts_with prd (c' :: s)) with false
      by (symmetry; exact (space_not_lt c' (utf8 "prd>") s Hc')).
    apply M_space; auto. apply IH. now apply contains_false_cons in Ht.
  - change (replace_go prd (utf8 ".") (prd ++ s) 0)
      with (replace prd (utf8 ".") (prd ++ s)).
    rewrite replace_old_app by discriminate.
    apply (M_char false period). apply IH.
    now apply contains_false_cons in Ht.
  - change (replace_go prd (utf8 ".") (stop ++ s) 0)
      with (stop ++ replace_go prd (utf8 ".") s 0).
    apply M_stop. now apply IH.
Qed.

Lemma split_go_skip (sep x s : str) :
  split_go sep (x ++ s) (length x) = split_go sep s 0.
Proof.
  induction x as [|c x IH]; simpl; [|exact IH].
  destruct s; reflexivity.
Qed.

Lemma split_sep_app (sep s : str) :
  sep <> [] -> split sep (sep ++ s) = [] :: split sep s.
Proof.
  intros H. destruct sep as [|c o]; [congruence|].
  unfold split. change ((c :: o) ++ s) with (c :: (o ++ s)).
  cbn [split_go]. change (c :: (o ++ s)) with ((c :: o) ++ s).
  rewrite starts_with_app.
  replace (length (c :: o) - 1) with (length o) by (simpl; lia).
  now rewrite split_go_skip.
Qed.

Lemma concat_split_cons (sep : str) (c : char) (s : str) :
  starts_with sep (c :: s) = false ->
  concat (split sep (c :: s)) = c :: concat (split sep s).
Proof.
  intros H. unfold split. cbn [split_go]. rewrite H.
  now destruct (split_go sep s 0).
Qed.

(** The pieces of the split, put together, are the text up to
    whitespace. *)
Lemma split_Marked (t s : str) :
  Marked false t s -> contains stop t = false ->
  squash (concat (split stop s)) = squash t.
Proof.
  induction 1 as [|c t s H IH|c c' t s Hc Hc' H IH|t s Hp H IH|t s H IH];
    intros Ht.
  - reflexivity.
  - rewrite concat_split_cons
      by exact (Marked_no_literal false (utf8 "stop>") t s c eq_refl H Ht).
    cbn [squash filter]. fold (squash (concat (split stop s))). fold (squash t).
    rewrite IH; [reflexivity|]. now apply contains_false_cons in Ht.
  - rewrite concat_split_cons by exact (space_not_lt c' (utf8 "stop>") s Hc').
    cbn [squash filter]. rewrite Hc, Hc'. cbn [negb].
    apply IH. now apply contains_false_cons in Ht.
  - discriminate.
  - rewrite split_sep_app by discriminate. simpl. now apply IH.
Qed.

Lemma squash_app (a b : str) : squash (a ++ b) = squash a ++ squash b.
Proof. apply filter_app. Qed.

Lemma squash_lstrip (s : str) : squash (lstrip s) = squash s.
Proof.
  induction s as [|c s IH]; [reflexivity|]. simpl.
  destruct (is_space c) eqn:E; simpl; [exact IH|now rewrite E].
Qed.

Lemma squash_rev (s : str) : squash (rev s) = rev (squash s).
Proof.
  induction s as [|c s IH]; [reflexivity|]. simpl.
  rewrite squash_app, IH. simpl.
  destruct (is_space c); simpl; [now rewrite app_nil_r|reflexivity].
Qed.

Lemma squash_strip (s : str) : squash (strip s) = squash s.
Proof.
  unfold strip, rstrip.
  now rewrite squash_rev, squash_lstrip, squash_rev, rev_involutive,
    squash_lstrip.
Qed.

Lemma squash_join (l : list str) :
  squash (join (utf8 " ") l) = concat (map squash l).
Proof.
  induction l as [|x l IH]; [reflexivity|].
  destruct l as [|y l].
  - simpl. now rewrite app_nil_r.
  - change (join (utf8 " ") (x :: y :: l))
      with (x ++ utf8 " " ++ join (utf8 " ") (y :: l)).
    rewrite !squash_app, IH. reflexivity.
Qed.

Lemma squash_concat (l : list str) :
  squash (concat l) = concat (map squash l).
Proof.
  induction l as [|x l IH]; [reflexivity|].
  simpl. now rewrite squash_app, IH.
Qed.

Lemma drop_empty_last_concat (l : list str) :
  concat (map squash (drop_empty_last l)) = concat (map squash l).
Proof.
  unfold drop_empty_last. destruct (rev l) as [|[|c x] r] eqn:E;
    try reflexivity.
  apply (f_equal (@rev str)) in E. rewrite rev_involutive in E. subst l.
  simpl. rewrite map_app, concat_app. simpl. now rewrite app_nil_r.
Qed.

(** The sentences, joined by single spaces, are the working text
    without its boundary markers, up to whitespace. *)
Lemma finish_squash (s : str) :
  squash (join (utf8 " ") (finish s)) = squash (concat (split stop s)).
Proof.
  unfold finish.
  rewrite squash_join, drop_empty_last_concat, map_map, squash_concat.
  f_equal. apply map_ext. intros x. apply squash_strip.
Qed.

End Reading.

(** ** The sentences rebuild the text *)

Section RoundTrip.

Lemma squash_pass_newlines (t : str) : squash (pass_newlines t) = squash t.
Proof.
  rewrite pass_newlines_map. induction t as [|c t IH]; [reflexivity|].
  cbn [map squash filter]. rewrite is_space_nl_to_space.
  fold (squash (map nl_to_space t)). fold (squash t). rewrite IH.
  destruct (is_space c) eqn:E; [reflexivity|]. cbn [negb].
  unfold nl_to_space. destruct (N.eqb_spec c newline) as [->|_];
    [discriminate|reflexivity].
Qed.

Lemma squash_padded (t : str) : squash (pass_newlines (pad t)) = squash t.
Proof.
  rewrite pass_newlines_pad. cbn [squash filter]. cbn [is_space negb].
  fold (squash ((pass_newlines t ++ [chr " "]) ++ [chr " "])).
  rewrite !squash_app, squash_pass_newlines. simpl. now rewrite !app_nil_r.
Qed.

Lemma guarded_absent (g : str) (old new t : str) :
  contains old t = false ->
  (if contains g t then replace old new t else t) = t.
Proof.
  intros H. rewrite (replace_absent old new t H). now destruct (contains g t).
Qed.

Variable text : str.
Let t0 : str := pass_newlines (pad text).

Hypothesis no_curly_dot : contains [period; cquote] text = false.
Hypothesis no_straight_dot : contains [period; dquote] text = false.
Hypothesis no_straight_bang : contains [chr "!"; dquote] text = false.
Hypothesis no_straight_qmark : contains [chr "?"; dquote] text = false.
Hypothesis no_suffix_rule : search suffix_rule_any_space t0 = false.

Lemma protect_Marked : preserved (Marked true t0) protect.
Proof.
  apply protect_preserved;
    try (intros t t' H HM; eapply Marked_Rw; [exact HM|];
         first [ now apply pass_prefixes_Rw | now apply pass_websites_Rw
               | now apply pass_digits_Rw | now apply pass_ellipsis_Rw
               | now apply pass_initial_Rw
               | now apply pass_acronym_starter_Rw
               | now apply pass_abbrev3_Rw | now apply pass_abbrev2_Rw
               | now apply pass_suffix_Rw | now apply pass_letter_Rw ]).
  - intros t HM. eapply Marked_Rw; [exact HM|apply pass_phd_Rw].
  - intros t t' H HM. unfold pass_suffix_starter in H.
    apply sub_ok_inv in H. fold suffix_rule in H.
    rewrite sub_go_no_match in H; [now subst t'|].
    destruct (search suffix_rule t) eqn:E; [|reflexivity].
    apply (suffix_rule_transfer true t0 t HM) in E. congruence.
Qed.

Lemma quotes_idle (t : str) : Marked true t0 t -> pass_quotes t = t.
Proof.
  intros HM.
  assert (K : forall x, forallb solid x = true -> x <> [] ->
                        contains x text = false -> contains x t = false).
  { intros x Hx Hne Hc. destruct (contains x t) eqn:E; [|reflexivity].
    apply (Marked_contains true x Hx Hne t0 t HM) in E.
    unfold t0 in E.
    rewrite contains_padded in E; [discriminate|exact Hne| |exact Hc].
    intros Hin. rewrite forallb_forall in Hx. now specialize (Hx _ Hin). }
  unfold pass_quotes, swap_curly_dot, swap_straight_dot, swap_straight_bang,
    swap_straight_qmark.
  rewrite (guarded_absent [cquote])
    by (apply K; [reflexivity|discriminate|assumption]).
  rewrite (guarded_absent [dquote])
    by (apply K; [reflexivity|discriminate|assumption]).
  rewrite (guarded_absent (utf8 "!"))
    by (apply K; [reflexivity|discriminate|assumption]).
  now rewrite (guarded_absent (utf8 "?"))
    by (apply K; [reflexivity|discriminate|assumption]).
Qed.

End RoundTrip.

(** C5, as stated: the sentences, joined by single spaces, give back
    the stripped text up to whitespace.  Even with all whitespace left
    out of the comparison it fails: a period in front of a closing
    quote comes back behind the quote, the period of a suffix word in
    front of a sentence starter is not returned at all, and a marker
    in the text is consumed. *)
Lemma round_trip_fails :
  (exists sentences,
     split_into_sentences (utf8 "Hei." ++ [dquote] ++ utf8 " Moi")
       = Ok sentences /\
     squash (join (utf8 " ") sentences) <>
     squash (strip (utf8 "Hei." ++ [dquote] ++ utf8 " Moi"))) /\
  (exists sentences,
     split_into_sentences (utf8 "Nokia Oy. Se kasvaa.") = Ok sentences /\
     squash (join (utf8 " ") sentences) <>
     squash (strip (utf8 "Nokia Oy. Se kasvaa."))) /\
  (exists sentences,
     split_into_sentences (utf8 "a<stop>b") = Ok sentences /\
     squash (join (utf8 " ") sentences) <> squash (strip (utf8 "a<stop>b"))).
Proof.
  repeat split;
    (eexists; split; [vm_compute; reflexivity|vm_compute; discriminate]).
Qed.

(** C5, amended: for a text that holds neither marker, has no '.' in
    front of a curly closing quote and no '.', '!' or '?' in front of a
    straight double quote, and in which the suffix-before-starter rule
    (read with any whitespace for its spaces) matches nowhere, the
    returned sentences joined by single spaces equal the stripped text
    once all whitespace is left out on both sides. *)
Theorem sentences_rebuild_text (text : str) :
  contains prd text = false ->
  contains stop text = false ->
  contains [period; cquote] text = false ->
  contains [period; dquote] text = false ->
  contains [chr "!"; dquote] text = false ->
  contains [chr "?"; dquote] text = false ->
  search suffix_rule_any_space (pass_newlines (pad text)) = false ->
  exists sentences,
    split_into_sentences text = Ok sentences /\
    squash (join (utf8 " ") sentences) = squash (strip text).
Proof.
  intros no_prd no_stop no_cd no_sd no_sb no_sq no_rule.
  set (t0 := pass_newlines (pad text)) in *.
  assert (F : forall mk, mk <> [] -> ~ In (chr " ") mk ->
                         contains mk text = false -> contains mk t0 = false)
    by (intros mk; apply contains_padded).
  unfold split_into_sentences. fold t0.
  destruct (protect_total t0) as [t1 H1]. rewrite H1. cbn [bind].
  eexists. split; [reflexivity|].
  (* the protected text is the padded text with markers in it *)
  pose proof (protect_Marked text no_rule t0 t1 H1 (Marked_refl true t0))
    as HM.
  (* no quote statement fires *)
  rewrite (quotes_idle text no_cd no_sd no_sb no_sq t1 HM).
  (* boundaries are marked, protected periods restored *)
  apply mark_boundaries_Marked in HM.
  apply restore_Marked in HM;
    [|apply F; [discriminate|simpl; intuition discriminate|exact no_prd]].
  (* the pieces of the split are the padded text, up to whitespace *)
  rewrite finish_squash, (split_Marked t0 _ HM), squash_strip.
  - apply squash_padded.
  - apply F; [discriminate|simpl; intuition discriminate|exact no_stop].
Qed.

Lemma sentences_rebuild_text_witness :
  exists sentences,
    split_into_sentences
      (utf8 "Dr. Virtanen saapui. Se maksoi 3.14 euroa... Kiitos U.S. ja Co!")
      = Ok sentences /\
    squash (join (utf8 " ") sentences) =
    squash (strip
      (utf8 "Dr. Virtanen saapui. Se maksoi 3.14 euroa... Kiitos U.S. ja Co!")).
Proof.
  apply (sentences_rebuild_text
    (utf8 "Dr. Virtanen saapui. Se maksoi 3.14 euroa... Kiitos U.S. ja Co!"));
    reflexivity.
Defined.

(** ** Further properties of [split_into_sentences] *)

Section Boundaries.

Lemma replace_single (a : char) (new s : str) :
  replace [a] new s = flat_map (fun c => if (c =? a)%N then new else [c]) s.
Proof.
  unfold replace. induction s as [|c s IH]; [reflexivity|].
  cbn [replace_go starts_with length Nat.sub flat_map].
  rewrite andb_true_r, N.eqb_sym.
  destruct (c =? a)%N; simpl; now rewrite IH.
Qed.

Lemma flat_map_flat_map (f g : char -> str) (s : str) :
  flat_map g (flat_map f s) = flat_map (fun c => flat_map g (f c)) s.
Proof.
  induction s as [|c s IH]; [reflexivity|].
  simpl. now rewrite flat_map_app, IH.
Qed.

(** The three boundary statements together put one boundary marker
    behind every '.', '?' and '!' and change nothing else. *)
Lemma mark_boundaries_flat_map (s : str) :
  mark_boundaries s = flat_map with_boundary s.
Proof.
  unfold mark_boundaries.
  change (utf8 "!") with [chr "!"]. change (utf8 "?") with [chr "?"].
  change (utf8 ".") with [chr "."].
  rewrite !replace_single, !flat_map_flat_map.
  apply flat_map_ext. intros c. unfold with_boundary, terminal.
  destruct (N.eqb_spec c (chr ".")) as [->|H1]; [reflexivity|].
  destruct (N.eqb_spec c (chr "?")) as [->|H2]; [reflexivity|].
  cbn [flat_map app]. rewrite (proj2 (N.eqb_neq c (chr "?")) H2).
  cbn [flat_map app orb].
  destruct (N.eqb_spec c (chr "!")) as [->|H3]; reflexivity.
Qed.

End Boundaries.

Section MarksLast.

Variable c : char.
Hypothesis c_mark : c = chr "!" \/ c = chr "?".

Lemma mark_terminal : terminal c = true.
Proof. destruct c_mark as [->| ->]; reflexivity. Qed.

Lemma followed_stop (s : str) : followed c (stop ++ s) = followed c s.
Proof. destruct c_mark as [->| ->]; reflexivity. Qed.

(** After the boundary statements every '!' and '?' has a marker
    behind it. *)
Lemma followed_mark_boundaries (s : str) :
  followed c (mark_boundaries s) = true.
Proof.
  rewrite mark_boundaries_flat_map.
  induction s as [|x s IH]; [reflexivity|].
  cbn [flat_map]. unfold with_boundary at 1.
  destruct (terminal x) eqn:T.
  - change ((x :: stop) ++ flat_map with_boundary s)
      with (x :: (stop ++ flat_map with_boundary s)).
    cbn [followed]. rewrite starts_with_app, followed_stop, IH.
    now destruct (x =? c)%N.
  - cbn [app followed]. rewrite IH.
    destruct (N.eqb_spec x c) as [->|_]; [|reflexivity].
    rewrite mark_terminal in T. discriminate.
Qed.

Lemma restore_stop (s : str) :
  replace_go prd (utf8 ".") (stop ++ s) 0 =
  stop ++ replace_go prd (utf8 ".") s 0.
Proof. reflexivity. Qed.

(** Restoring the protected periods keeps the markers behind them. *)
Lemma followed_restore (s : str) (skip : nat) :
  followed c s = true ->
  followed c (replace_go prd (utf8 ".") s skip) = true.
Proof.
  revert skip. induction s as [|x s IH]; intros skip H; [reflexivity|].
  cbn [followed] in H. apply andb_true_iff in H as [Hx Hs].
  cbn [replace_go]. destruct skip as [|k]; [|now apply IH].
  destruct (starts_with prd (x :: s)).
  - change (utf8 "." ++ replace_go prd (utf8 ".") s (length prd - 1))
      with (chr "." :: replace_go prd (utf8 ".") s (length prd - 1)).
    cbn [followed]. rewrite IH by exact Hs.
    destruct c_mark as [->| ->]; reflexivity.
  - cbn [followed]. rewrite IH by exact Hs. rewrite andb_true_r.
    destruct (x =? c)%N; [|reflexivity].
    apply starts_with_inv in Hx as [r ->].
    rewrite restore_stop. apply starts_with_app.
Qed.

Lemma ends_only_nil : ends_only c [].
Proof. intros a b H. now destruct a. Qed.

Lemma ends_only_cons (x : char) (s : str) :
  x <> c -> ends_only c s -> ends_only c (x :: s).
Proof.
  intros Hx Hs a b H. destruct a as [|y a]; simpl in H.
  - inversion H. congruence.
  - inversion H; subst. eapply Hs; eauto.
Qed.

Lemma ends_only_single : ends_only c [c].
Proof.
  intros a b H. destruct a as [|y a]; simpl in H.
  - now inversion H.
  - inversion H. now destruct a.
Qed.

(** The split then leaves such a character at the end of its piece. *)
Lemma ends_only_split (s : str) (skip : nat) :
  followed c s = true -> Forall (ends_only c) (split_go stop s skip).
Proof.
  revert skip. induction s as [|x s IH]; intros skip H.
  - repeat constructor. apply ends_only_nil.
  - cbn [followed] in H. apply andb_true_iff in H as [Hx Hs].
    cbn [split_go]. destruct skip as [|k]; [|now apply IH].
    destruct (starts_with stop (x :: s)).
    + constructor; [apply ends_only_nil|now apply IH].
    + destruct (N.eqb_spec x c) as [->|Hne].
      * apply starts_with_inv in Hx as [r ->].
        change (split_go stop (stop ++ r) 0) with (split stop (stop ++ r)).
        rewrite split_sep_app by discriminate.
        constructor; [apply ends_only_single|].
        pose proof (IH 0 Hs) as K.
        change (split_go stop (stop ++ r) 0) with (split stop (stop ++ r)) in K.
        rewrite split_sep_app in K by discriminate. now inversion K.
      * pose proof (IH 0 Hs) as K.
        destruct (split_go stop s 0) as [|piece rest].
        -- repeat constructor. now apply ends_only_cons, ends_only_nil.
        -- inversion K; subst. constructor; [|assumption].
           now apply ends_only_cons.
Qed.

End MarksLast.

Section Stripping.

(** [lstrip] takes whitespace off the front, [rstrip] off the end. *)
Lemma lstrip_decomp (s : str) :
  exists w, s = w ++ lstrip s /\ forallb is_space w = true.
Proof.
  induction s as [|c s (w & IH & Hw)]; [now exists []|].
  simpl. destruct (is_space c) eqn:E.
  - exists (c :: w). simpl. rewrite E, Hw. split; [now f_equal|reflexivity].
  - now exists [].
Qed.

Lemma rstrip_decomp (s : str) :
  exists w, s = rstrip s ++ w /\ forallb is_space w = true.
Proof.
  destruct (lstrip_decomp (rev s)) as (w & H & Hw).
  exists (rev w). split; [|now rewrite forallb_rev].
  unfold rstrip. rewrite <- rev_app_distr, <- H. now rewrite rev_involutive.
Qed.

Lemma strip_decomp (s : str) :
  exists w1 w2, s = w1 ++ strip s ++ w2 /\
                forallb is_space w1 = true /\ forallb is_space w2 = true.
Proof.
  destruct (lstrip_decomp s) as (w1 & H1 & Hw1).
  destruct (rstrip_decomp (lstrip s)) as (w2 & H2 & Hw2).
  exists w1, w2. unfold strip. rewrite <- H2. auto.
Qed.

Lemma lstrip_clean (s : str) :
  hd_error s = None \/ (exists c, hd_error s = Some c /\ is_space c = false) ->
  lstrip s = s.
Proof.
  destruct s as [|c s]; [reflexivity|]. simpl.
  intros [H|(d & H & Hd)]; [discriminate|]. inversion H; subst.
  now rewrite Hd.
Qed.

Lemma lstrip_hd (s : str) :
  hd_error (lstrip s) = None \/
  (exists c, hd_error (lstrip s) = Some c /\ is_space c = false).
Proof.
  induction s as [|c s IH]; [now left|]. simpl.
  destruct (is_space c) eqn:E; [exact IH|]. right. now exists c.
Qed.

Lemma lstrip_idem (s : str) : lstrip (lstrip s) = lstrip s.
Proof. apply lstrip_clean, lstrip_hd. Qed.

Lemma rstrip_idem (s : str) : rstrip (rstrip s) = rstrip s.
Proof.
  unfold rstrip. now rewrite rev_involutive, lstrip_idem.
Qed.

(** Taking whitespace off the end leaves the front as it is. *)
Lemma rstrip_hd (s : str) :
  hd_error s = None \/ (exists c, hd_error s = Some c /\ is_space c = false) ->
  hd_error (rstrip s) = None \/
  (exists c, hd_error (rstrip s) = Some c /\ is_space c = false).
Proof.
  intros [H|(c & H & Hc)].
  - destruct s; [now left|discriminate].
  - destruct (rstrip_decomp s) as (w & Hs & Hw).
    destruct (rstrip s) as [|d r] eqn:E; [now left|].
    right. exists d. split; [reflexivity|].
    rewrite Hs in H. simpl in H. inversion H; now subst.
Qed.

(** [strip] does nothing to a stripped text. *)
Lemma strip_idem (s : str) : strip (strip s) = strip s.
Proof.
  unfold strip at 1.
  rewrite (lstrip_clean (strip s)) by (apply rstrip_hd, lstrip_hd).
  unfold strip. apply rstrip_idem.
Qed.

Lemma ends_only_strip (c : char) (s : str) :
  ends_only c s -> ends_only c (strip s).
Proof.
  intros H a b E. destruct (strip_decomp s) as (w1 & w2 & Hs & _ & _).
  rewrite E in Hs. specialize (H (w1 ++ a) (b ++ w2)).
  rewrite <- !app_assoc in H, Hs. simpl in *.
  specialize (H Hs). now apply app_eq_nil in H.
Qed.

End Stripping.

(** In every returned sentence '!' and '?' stand nowhere but at the
    end: a sentence does not go on behind either of them. *)
Theorem marks_end_sentences (text : str) :
  exists sentences,
    split_into_sentences text = Ok sentences /\
    Forall (fun s => ends_only (chr "!") s /\ ends_only (chr "?") s)
      sentences.
Proof.
  unfold split_into_sentences.
  destruct (protect_total (pass_newlines (pad text))) as [t ->].
  cbn [bind]. eexists. split; [reflexivity|].
  unfold finish. apply drop_empty_last_forall, Forall_map.
  set (u := mark_boundaries (pass_quotes t)).
  assert (K : forall c, c = chr "!" \/ c = chr "?" ->
                        Forall (ends_only c) (split stop (restore u))).
  { intros c Hc. apply (ends_only_split c).
    apply (followed_restore c Hc). apply (followed_mark_boundaries c Hc). }
  pose proof (K (chr "!") (or_introl eq_refl)) as K1.
  pose proof (K (chr "?") (or_intror eq_refl)) as K2.
  rewrite Forall_forall in *. intros s Hs.
  split; apply ends_only_strip; auto.
Qed.

(** Every returned sentence is stripped: it neither starts nor ends
    with whitespace. *)
Theorem sentences_are_stripped (text : str) :
  exists sentences,
    split_into_sentences text = Ok sentences /\
    Forall (fun s => strip s = s) sentences.
Proof.
  unfold split_into_sentences.
  destruct (protect_total (pass_newlines (pad text))) as [t ->].
  cbn [bind]. eexists. split; [reflexivity|].
  unfold finish. apply drop_empty_last_forall, Forall_map.
  apply Forall_forall. intros s _. apply strip_idem.
Qed.

Section NoMarkerLeft.

Lemma starts_with_app_l (w p r : str) :
  starts_with w p = true -> starts_with w (p ++ r) = true.
Proof.
  revert p. induction w as [|c w IH]; intros p H; [reflexivity|].
  destruct p as [|d p]; [discriminate|]. simpl in *.
  apply andb_true_iff in H as [-> H]. simpl. now apply IH.
Qed.

(** A text found in a part is found in the whole. *)
Lemma contains_app_r (x a s : str) :
  contains x (a ++ s) = false -> contains x s = false.
Proof.
  induction a as [|c a IH]; intros H; [exact H|].
  apply contains_false_cons in H as [_ H]. now apply IH.
Qed.

Lemma contains_app_l (x s w : str) :
  x <> [] -> contains x (s ++ w) = false -> contains x s = false.
Proof.
  intros Hx. induction s as [|c s IH]; intros H.
  - destruct x; [congruence|reflexivity].
  - change ((c :: s) ++ w) with (c :: (s ++ w)) in H.
    apply contains_false_cons in H as [H1 H2].
    cbn [contains]. rewrite (IH H2), orb_false_r.
    destruct (starts_with x (c :: s)) eqn:E; [|reflexivity].
    apply (starts_with_app_l x (c :: s) w) in E. simpl in E. congruence.
Qed.

Lemma contains_strip (x s : str) :
  x <> [] -> contains x s = false -> contains x (strip s) = false.
Proof.
  intros Hx H. destruct (strip_decomp s) as (w1 & w2 & Hs & _ & _).
  rewrite Hs in H. apply contains_app_r in H.
  now apply contains_app_l in H.
Qed.

(** The first piece of a split is the front of the text. *)
Lemma split_go_hd (sep s : str) :
  exists r, s = hd [] (split_go sep s 0) ++ r.
Proof.
  induction s as [|c s (r & IH)]; [now exists []|].
  cbn [split_go]. destruct (starts_with sep (c :: s)).
  - now exists (c :: s).
  - destruct (split_go sep s 0) as [|piece rest]; simpl in *.
    + exists s. reflexivity.
    + exists r. now f_equal.
Qed.

(** A text that is not in the whole is in no piece of the split. *)
Lemma split_go_contains (x sep s : str) (skip : nat) :
  x <> [] -> contains x s = false ->
  Forall (fun piece => contains x piece = false) (split_go sep s skip).
Proof.
  intros Hx. revert skip. induction s as [|c s IH]; intros skip H.
  - repeat constructor. destruct x; [congruence|reflexivity].
  - apply contains_false_cons in H as [H1 H2].
    cbn [split_go]. destruct skip as [|k]; [|now apply IH].
    destruct (starts_with sep (c :: s)).
    + constructor; [destruct x; [congruence|reflexivity]|now apply IH].
    + pose proof (IH 0 H2) as K. destruct (split_go_hd sep s) as (r & Hr).
      destruct (split_go sep s 0) as [|piece rest]; simpl in Hr.
      * repeat constructor. cbn [contains].
        destruct (starts_with x [c]) eqn:E; [|now destruct x].
        apply (starts_with_app_l x [c] s) in E. simpl in E. congruence.
      * inversion K; subst. constructor; [|assumption].
        cbn [contains]. rewrite H3, orb_false_r.
        destruct (starts_with x (c :: piece)) eqn:E; [|reflexivity].
        apply (starts_with_app_l x (c :: piece) r) in E.
        simpl in E. congruence.
Qed.

(** No piece of a split holds the separator. *)
Lemma split_go_no_sep (sep s : str) (skip : nat) :
  sep <> [] ->
  Forall (fun piece => contains sep piece = false) (split_go sep s skip).
Proof.
  intros Hx. revert skip. induction s as [|c s IH]; intros skip.
  - repeat constructor. destruct sep; [congruence|reflexivity].
  - cbn [split_go]. destruct skip as [|k]; [|apply IH].
    destruct (starts_with sep (c :: s)) eqn:S.
    + constructor; [destruct sep; [congruence|reflexivity]|apply IH].
    + pose proof (IH 0) as K. destruct (split_go_hd sep s) as (r & Hr).
      destruct (split_go sep s 0) as [|piece rest]; simpl in Hr.
      * repeat constructor. cbn [contains].
        destruct (starts_with sep [c]) eqn:E; [|now destruct sep].
        apply (starts_with_app_l sep [c] s) in E. simpl in E. congruence.
      * inversion K; subst. constructor; [|assumption].
        cbn [contains]. rewrite H1, orb_false_r.
        destruct (starts_with sep (c :: piece)) eqn:E; [|reflexivity].
        apply (starts_with_app_l sep (c :: piece) r) in E.
        simpl in E. congruence.
Qed.

(** What the restored text starts with, besides periods, the text
    started with. *)
Lemma restore_starts_with (w : str) :
  forallb (fun c => negb (c =? lt_sign)%N && negb (c =? period)%N) w = true ->
  forall s, starts_with w (replace_go prd (utf8 ".") s 0) = true ->
            starts_with w s = true.
Proof.
  induction w as [|c w IH]; intros Hw s H; [reflexivity|].
  cbn [forallb] in Hw. apply andb_true_iff in Hw as [Hc Hw].
  apply andb_true_iff in Hc as [Hlt Hpd]. apply negb_true_iff in Hlt, Hpd.
  destruct s as [|x s]; [discriminate|].
  cbn [replace_go] in H. destruct (starts_with prd (x :: s)) eqn:E.
  - simpl in H. change 46%N with period in H.
    rewrite Hpd in H. discriminate.
  - simpl in H. apply andb_true_iff in H as [Hx H].
    simpl. rewrite Hx. simpl. now apply IH.
Qed.

(** Restoring leaves no protected-period marker. *)
Lemma restore_no_prd (s : str) (skip : nat) :
  contains prd (replace_go prd (utf8 ".") s skip) = false.
Proof.
  revert skip. induction s as [|x s IH]; intros skip; [reflexivity|].
  cbn [replace_go]. destruct skip as [|k]; [|apply IH].
  destruct (starts_with prd (x :: s)) eqn:E.
  - change (utf8 "." ++ replace_go prd (utf8 ".") s (length prd - 1))
      with (period :: replace_go prd (utf8 ".") s (length prd - 1)).
    cbn [contains]. now rewrite IH.
  - cbn [contains]. rewrite IH, orb_false_r.
    destruct (starts_with prd (x :: replace_go prd (utf8 ".") s 0)) eqn:F;
      [|reflexivity].
    change prd with (lt_sign :: utf8 "prd>") in F, E.
    cbn [starts_with] in F, E.
    apply andb_true_iff in F as [Fx F].
    apply restore_starts_with in F; [|reflexivity].
    rewrite Fx, F in E. discriminate.
Qed.

End NoMarkerLeft.

(** Whatever the input, no returned sentence holds one of the two
    markers. *)
Theorem no_marker_escapes (text : str) :
  exists sentences,
    split_into_sentences text = Ok sentences /\
    Forall (fun s => contains prd s = false /\ contains stop s = false)
      sentences.
Proof.
  unfold split_into_sentences.
  destruct (protect_total (pass_newlines (pad text))) as [t ->].
  cbn [bind]. eexists. split; [reflexivity|].
  unfold finish. apply drop_empty_last_forall, Forall_map.
  set (u := restore (mark_boundaries (pass_quotes t))).
  pose proof (split_go_contains prd stop u 0 ltac:(discriminate)
                (restore_no_prd _ 0)) as K1.
  pose proof (split_go_no_sep stop u 0 ltac:(discriminate)) as K2.
  rewrite Forall_forall in *. intros s Hs.
  split; apply contains_strip; try discriminate; auto.
Qed.

Section NeverBlank.

Lemma has_text_app (a b : str) : has_text (a ++ b) = has_text a || has_text b.
Proof. apply existsb_app. Qed.

Lemma has_text_spaces (s : str) :
  has_text s = false <-> forallb is_space s = true.
Proof.
  induction s as [|c s IH]; simpl; [tauto|].
  destruct (is_space c); simpl; [exact IH|].
  split; discriminate.
Qed.

(** A replacement with text in it never blanks a text. *)
Lemma replace_go_has_text (old new s : str) (skip : nat) :
  has_text new = true -> has_text (skipn skip s) = true ->
  has_text (replace_go old new s skip) = true.
Proof.
  intros Hn. revert skip. induction s as [|c s IH]; intros skip H.
  - now rewrite skipn_nil in H.
  - cbn [replace_go]. destruct skip as [|k]; [|now apply IH].
    cbn [skipn] in H. destruct (starts_with old (c :: s)).
    + rewrite has_text_app, Hn. reflexivity.
    + cbn [has_text existsb] in *. destruct (is_space c); simpl in *;
        [now apply (IH 0)|reflexivity].
Qed.

Lemma sub_go_has_text (r : regex) (rp : repl) :
  (forall m cs, has_text (apply_repl rp m cs) = true) ->
  forall s skip, has_text (skipn skip s) = true ->
                 has_text (sub_go r rp s skip) = true.
Proof.
  intros Hrp. induction s as [|c s IH]; intros skip H.
  - now rewrite skipn_nil in H.
  - cbn [sub_go]. destruct skip as [|k]; [|now apply IH].
    cbn [skipn] in H. destruct (match_at r (c :: s)) as [[[m s'] cs]|].
    + rewrite has_text_app, Hrp. reflexivity.
    + cbn [has_text existsb] in *. destruct (is_space c); simpl in *;
        [now apply (IH 0)|reflexivity].
Qed.

Lemma expand_has_text (t : list titem) (cs : caps) :
  existsb (fun it => match it with Lit l => has_text l | Ref _ => false end) t
    = true ->
  has_text (expand t cs) = true.
Proof.
  induction t as [|it t IH]; simpl; [discriminate|].
  intros H. rewrite has_text_app. apply orb_true_iff in H as [H|H].
  - destruct it; [now rewrite H|discriminate].
  - rewrite (IH H). apply orb_true_r.
Qed.

(** No protection pass blanks a text: what it writes for a match has a
    marker in it. *)
Lemma protect_has_text : preserved (fun s => has_text s = true) protect.
Proof.
  apply protect_preserved;
    try (intros t t' Ht Hp; unfold_passes; apply sub_ok_inv in Ht; subst t';
         apply sub_go_has_text; [|exact Hp];
         intros m cs; cbn [apply_repl];
         first [ now apply expand_has_text
               | rewrite has_text_app; apply orb_true_r ]).
  intros t Hp. unfold pass_phd. destruct (contains _ t); [|exact Hp].
  apply replace_go_has_text; [reflexivity|exact Hp].
Qed.

Lemma tail_has_text (t : str) :
  has_text t = true ->
  has_text (restore (mark_boundaries (pass_quotes t))) = true.
Proof.
  intros H. unfold restore, mark_boundaries, pass_quotes.
  repeat (apply replace_go_has_text; [reflexivity|]). cbn [skipn].
  unfold swap_straight_qmark, swap_straight_bang, swap_straight_dot,
    swap_curly_dot.
  repeat match goal with
         | |- has_text (if ?b then _ else _) = true => destruct b
         | |- has_text (replace _ _ _) = true =>
             apply replace_go_has_text; [reflexivity|cbn [skipn]]
         end; exact H.
Qed.

Lemma split_go_nonempty (sep s : str) (skip : nat) : split_go sep s skip <> [].
Proof.
  revert skip. induction s as [|c s IH]; intros skip; [discriminate|].
  cbn [split_go]. destruct skip as [|k]; [|apply IH].
  destruct (starts_with sep (c :: s)); [discriminate|].
  now destruct (split_go sep s 0).
Qed.

(** A split into one piece has found no separator. *)
Lemma split_single (sep s piece : str) :
  split sep s = [piece] -> piece = s.
Proof.
  unfold split. revert piece. induction s as [|c s IH]; intros piece H.
  - now inversion H.
  - cbn [split_go] in H. destruct (starts_with sep (c :: s)).
    + inversion H as [[H1 H2]]. now apply split_go_nonempty in H2.
    + destruct (split_go sep s 0) as [|p rest] eqn:E.
      * now apply split_go_nonempty in E.
      * inversion H; subst. f_equal. now apply IH.
Qed.

Lemma drop_empty_last_nil (l : list str) :
  drop_empty_last l = [] -> l = [] \/ l = [[]].
Proof.
  unfold drop_empty_last. destruct (rev l) as [|[|c x] r] eqn:E; auto.
  intros H. right. apply (f_equal (@rev str)) in E, H.
  rewrite rev_involutive in E, H. subst. reflexivity.
Qed.

(** No sentence at all means a blank working text. *)
Lemma finish_nil (s : str) : finish s = [] -> has_text s = false.
Proof.
  unfold finish. intros H. apply drop_empty_last_nil in H as [H|H].
  - apply map_eq_nil in H. now apply split_go_nonempty in H.
  - destruct (split stop s) as [|p [|q l]] eqn:E; try discriminate.
    inversion H as [Hp]. apply split_single in E. subst p.
    apply has_text_spaces. now apply strip_nil_iff.
Qed.

Lemma has_text_padded (text : str) :
  has_text (pass_newlines (pad text)) = has_text text.
Proof.
  rewrite pass_newlines_pad.
  change (chr " " :: (pass_newlines text ++ [chr " "]) ++ [chr " "])
    with ([chr " "] ++ (pass_newlines text ++ [chr " "]) ++ [chr " "]).
  rewrite !has_text_app. change (has_text [chr " "]) with false.
  rewrite !orb_false_r. cbn [orb]. rewrite pass_newlines_map.
  induction text as [|c text IH]; [reflexivity|].
  unfold has_text in *. cbn [map existsb].
  now rewrite is_space_nl_to_space, IH.
Qed.

End NeverBlank.

(** The function returns no sentence exactly for the texts that are all
    whitespace (the empty text among them). *)
Theorem no_sentence_iff_blank (text : str) :
  split_into_sentences text = Ok [] <-> forallb is_space text = true.
Proof.
  split.
  - intros H. apply has_text_spaces.
    destruct (has_text text) eqn:E; [exfalso|reflexivity].
    unfold split_into_sentences in H.
    destruct (protect (pass_newlines (pad text))) as [t|e] eqn:P;
      [|discriminate].
    cbn [bind] in H. inversion H as [F]. apply finish_nil in F.
    rewrite <- has_text_padded in E.
    apply (protect_has_text _ _ P) in E. apply tail_has_text in E.
    congruence.
  - intros H.
    rewrite no_terminal_form by (apply spaces_absent; [exact H|reflexivity]).
    rewrite finish_no_marker.
    + now rewrite H.
    + apply (contains_absent (chr "<")); [now left|].
      apply spaces_absent; [exact H|reflexivity].
    + apply (contains_absent (chr "<")); [now left|].
      apply spaces_absent; [exact H|reflexivity].
Qed.

Section WithoutPeriods.

Lemma not_lt_starts (x : char) (w s : str) :
  x <> lt_sign -> starts_with (lt_sign :: w) (x :: s) = false.
Proof.
  intros H. cbn [starts_with].
  destruct (N.eqb_spec lt_sign x); [congruence|reflexivity].
Qed.

Lemma contains_prd_stop (s : str) : contains prd (stop ++ s) = contains prd s.
Proof.
  change (stop ++ s) with (lt_sign :: (utf8 "stop>" ++ s)).
  cbn [contains]. rewrite contains_skip; [reflexivity| |discriminate].
  intros c Hc. simpl in Hc. simpl. intuition (subst; discriminate).
Qed.

(** Boundary markers written into a text without '<' spell no
    protected-period marker. *)
Lemma contains_prd_marked (s : str) :
  ~ In lt_sign s -> contains prd (flat_map with_boundary s) = false.
Proof.
  induction s as [|x s IH]; intros H; [reflexivity|].
  assert (Hx : x <> lt_sign) by (intros ->; apply H; now left).
  assert (Hs : ~ In lt_sign s) by (intros K; apply H; now right).
  cbn [flat_map]. unfold with_boundary at 1. destruct (terminal x).
  - change ((x :: stop) ++ flat_map with_boundary s)
      with (x :: (stop ++ flat_map with_boundary s)).
    cbn [contains]. change prd with (lt_sign :: utf8 "prd>") at 1.
    rewrite not_lt_starts by exact Hx.
    rewrite contains_prd_stop. now apply IH.
  - cbn [app contains]. change prd with (lt_sign :: utf8 "prd>") at 1.
    rewrite not_lt_starts by exact Hx. now apply IH.
Qed.

(** Splitting at the markers then cuts behind every '!' and '?'. *)
Lemma split_marked (s : str) :
  ~ In lt_sign s -> ~ In period s ->
  split stop (flat_map with_boundary s) = cut s.
Proof.
  induction s as [|x s IH]; intros H Hp; [reflexivity|].
  assert (Hx : x <> lt_sign) by (intros ->; apply H; now left).
  assert (Hs : ~ In lt_sign s) by (intros K; apply H; now right).
  assert (Hx' : x <> period) by (intros ->; apply Hp; now left).
  assert (Hs' : ~ In period s) by (intros K; apply Hp; now right).
  specialize (IH Hs Hs').
  cbn [flat_map cut]. unfold with_boundary at 1, terminal.
  replace (x =? chr ".")%N with false
    by (symmetry; now apply N.eqb_neq).
  cbn [orb]. destruct ((x =? chr "!") || (x =? chr "?"))%N.
  - change ((x :: stop) ++ flat_map with_boundary s)
      with (x :: (stop ++ flat_map with_boundary s)).
    unfold split. cbn [split_go].
    change stop with (lt_sign :: utf8 "stop>") at 1.
    rewrite not_lt_starts by exact Hx.
    change (split_go stop (stop ++ flat_map with_boundary s) 0)
      with (split stop (stop ++ flat_map with_boundary s)).
    rewrite split_sep_app by discriminate. now rewrite IH.
  - cbn [app]. unfold split in *. cbn [split_go].
    change stop with (lt_sign :: utf8 "stop>") at 1.
    rewrite not_lt_starts by exact Hx. now rewrite IH.
Qed.

Lemma quotes_idle_plain (t : str) :
  ~ In period t -> ~ In dquote t -> pass_quotes t = t.
Proof.
  intros Hp Hq.
  assert (K : forall x new, replace [x; dquote] new t = t).
  { intros x new. apply replace_absent.
    apply (contains_absent dquote); [simpl; tauto|exact Hq]. }
  assert (A1 : swap_curly_dot t = t).
  { unfold swap_curly_dot. rewrite swap_absent by exact Hp.
    now destruct (contains [cquote] t). }
  assert (A2 : swap_straight_dot t = t).
  { unfold swap_straight_dot. rewrite K. now destruct (contains [dquote] t). }
  assert (A3 : swap_straight_bang t = t).
  { unfold swap_straight_bang. rewrite K.
    now destruct (contains (utf8 "!") t). }
  assert (A4 : swap_straight_qmark t = t).
  { unfold swap_straight_qmark. rewrite K.
    now destruct (contains (utf8 "?") t). }
  unfold pass_quotes. now rewrite A1, A2, A3, A4.
Qed.

End WithoutPeriods.

Lemma without_periods_form (text : str) :
  ~ In period text -> ~ In dquote text -> ~ In lt_sign text ->
  split_into_sentences text =
  Ok (drop_empty_last (map strip (cut (pass_newlines (pad text))))).
Proof.
  intros Hp Hq Hl. unfold split_into_sentences.
  set (t := pass_newlines (pad text)).
  assert (Hp' : ~ In period t)
    by (intros H; apply Hp; apply in_padded; [exact H|discriminate]).
  assert (Hq' : ~ In dquote t)
    by (intros H; apply Hq; apply in_padded; [exact H|discriminate]).
  assert (Hl' : ~ In lt_sign t)
    by (intros H; apply Hl; apply in_padded; [exact H|discriminate]).
  rewrite (protect_no_period t Hp'). cbn [bind]. f_equal.
  rewrite (quotes_idle_plain t Hp' Hq'), mark_boundaries_flat_map.
  unfold restore. rewrite replace_absent by now apply contains_prd_marked.
  unfold finish. now rewrite split_marked.
Qed.

(** On a text without '.', without straight double quote and without
    '<' the function does just this: it turns newlines into spaces,
    cuts behind every '!' and '?', strips the pieces and drops an
    empty last one. *)
Theorem split_without_periods (text : str) :
  ~ In period text -> ~ In dquote text -> ~ In lt_sign text ->
  split_into_sentences text =
  Ok (drop_empty_last (map strip (cut (pass_newlines (pad text))))).
Proof. exact (without_periods_form text). Qed.

Lemma split_without_periods_witness :
  split_into_sentences (utf8 " Hei! Mitä kuuluu? Hyvää") =
  Ok [utf8 "Hei!"; utf8 "Mitä kuuluu?"; utf8 "Hyvää"].
Proof.
  apply (split_without_periods (utf8 " Hei! Mitä kuuluu? Hyvää"));
    vm_compute; intuition discriminate.
Defined.

Section SentenceCount.



Lemma cut_nonempty (s : str) : cut s <> [].
Proof.
  destruct s as [|x s]; [discriminate|]. cbn [cut].
  destruct ((x =? chr "!") || (x =? chr "?"))%N; [discriminate|].
  now destruct (cut s).
Qed.

Lemma length_cut (s : str) : length (cut s) = S (count_marks s).
Proof.
  induction s as [|x s IH]; [reflexivity|].
  unfold count_marks in *. cbn [cut filter].
  destruct ((x =? chr "!") || (x =? chr "?"))%N; simpl; [now rewrite IH|].
  destruct (cut s); simpl in *; [discriminate|exact IH].
Qed.

Lemma space_no_mark (w : char) :
  is_space w = true -> ((w =? chr "!") || (w =? chr "?"))%N = false.
Proof.
  intros H. apply orb_false_iff.
  split; apply N.eqb_neq; intros ->; discriminate.
Qed.

Lemma count_marks_snoc_space (w : char) (s : str) :
  is_space w = true -> count_marks (s ++ [w]) = count_marks s.
Proof.
  intros H. unfold count_marks. rewrite filter_app, length_app.
  cbn [filter]. rewrite (space_no_mark w H). apply Nat.add_0_r.
Qed.

(** Whitespace in front of a text, or behind it, does not decide
    whether text follows the last mark. *)
Lemma last_cut_cons_space (w : char) (s : str) :
  is_space w = true ->
  has_text (last (cut (w :: s)) []) = has_text (last (cut s) []).
Proof.
  intros Hw. cbn [cut].
  replace ((w =? chr "!") || (w =? chr "?"))%N with false.
  - pose proof (cut_nonempty s) as K.
    destruct (cut s) as [|p [|q r]]; [congruence| |reflexivity].
    simpl. now rewrite Hw.
  - symmetry. apply orb_false_iff.
    split; apply N.eqb_neq; intros ->; discriminate.
Qed.

Lemma cut_snoc_space (w : char) (s : str) :
  is_space w = true ->
  has_text (last (cut (s ++ [w])) []) = has_text (last (cut s) []).
Proof.
  intros Hw. induction s as [|x s IH].
  - apply (last_cut_cons_space w [] Hw).
  - cbn [app cut]. destruct ((x =? chr "!") || (x =? chr "?"))%N.
    + pose proof (cut_nonempty (s ++ [w])) as K1.
      pose proof (cut_nonempty s) as K2.
      destruct (cut (s ++ [w])) as [|p r]; [congruence|].
      destruct (cut s) as [|p' r']; [congruence|]. exact IH.
    + pose proof (cut_nonempty (s ++ [w])) as K1.
      pose proof (cut_nonempty s) as K2.
      destruct (cut (s ++ [w])) as [|p r] eqn:E1; [congruence|].
      destruct (cut s) as [|p' r'] eqn:E2; [congruence|].
      assert (L : length (p :: r) = length (p' :: r')).
      { rewrite <- E1, <- E2, !length_cut. f_equal.
        apply count_marks_snoc_space, Hw. }
      destruct r as [|q r]; destruct r' as [|q' r']; try discriminate.
      * simpl in *. now rewrite IH.
      * exact IH.
Qed.

Lemma mark_nl_to_space (x : char) :
  ((nl_to_space x =? chr "!") || (nl_to_space x =? chr "?"))%N
  = ((x =? chr "!") || (x =? chr "?"))%N.
Proof.
  unfold nl_to_space. destruct (N.eqb_spec x newline) as [->|_]; reflexivity.
Qed.

Lemma cut_map_nl (s : str) :
  cut (map nl_to_space s) = map (map nl_to_space) (cut s).
Proof.
  induction s as [|x s IH]; [reflexivity|].
  cbn [map cut]. rewrite IH, mark_nl_to_space.
  destruct ((x =? chr "!") || (x =? chr "?"))%N.
  - reflexivity.
  - now destruct (cut s).
Qed.

Lemma has_text_map_nl (s : str) : has_text (map nl_to_space s) = has_text s.
Proof.
  unfold has_text. induction s as [|c s IH]; [reflexivity|].
  cbn [map existsb]. now rewrite is_space_nl_to_space, IH.
Qed.

Lemma last_map_str (f : str -> str) (l : list str) (d : str) :
  last (map f l) (f d) = f (last l d).
Proof.
  induction l as [|x l IH]; [reflexivity|].
  destruct l; [reflexivity|exact IH].
Qed.

Lemma last_cut_padded (text : str) :
  has_text (last (cut (pass_newlines (pad text))) []) =
  has_text (last (cut text) []).
Proof.
  rewrite pass_newlines_pad, last_cut_cons_space by reflexivity.
  rewrite !cut_snoc_space by reflexivity.
  rewrite pass_newlines_map, cut_map_nl.
  change [] with (map nl_to_space []) at 1.
  rewrite last_map_str. apply has_text_map_nl.
Qed.

Lemma count_marks_cons_space (w : char) (s : str) :
  is_space w = true -> count_marks (w :: s) = count_marks s.
Proof.
  intros H. unfold count_marks. cbn [filter].
  now rewrite (space_no_mark w H).
Qed.

Lemma count_marks_map_nl (s : str) :
  count_marks (map nl_to_space s) = count_marks s.
Proof.
  unfold count_marks. induction s as [|x s IH]; [reflexivity|].
  cbn [map filter]. rewrite mark_nl_to_space.
  destruct ((x =? chr "!") || (x =? chr "?"))%N; cbn [length];
    now rewrite IH.
Qed.

Lemma count_marks_padded (text : str) :
  count_marks (pass_newlines (pad text)) = count_marks text.
Proof.
  rewrite pass_newlines_pad, count_marks_cons_space by reflexivity.
  rewrite !count_marks_snoc_space by reflexivity.
  rewrite pass_newlines_map. apply count_marks_map_nl.
Qed.

Lemma drop_empty_last_length (l : list str) :
  l <> [] ->
  length (drop_empty_last l) =
  match last l [] with [] => length l - 1 | _ :: _ => length l end.
Proof.
  intros H. unfold drop_empty_last.
  destruct (rev l) as [|x r] eqn:E.
  - apply (f_equal (@rev str)) in E. rewrite rev_involutive in E.
    now subst.
  - apply (f_equal (@rev str)) in E. rewrite rev_involutive in E.
    subst l. simpl. rewrite last_last.
    destruct x; [|reflexivity].
    rewrite length_app. simpl. lia.
Qed.

End SentenceCount.

(** On a text without '.', without straight double quote and without
    '<' the number of sentences is the number of '!' and '?' in it, and
    one more when text follows the last of them. *)
Theorem sentence_count_without_periods (text : str) :
  ~ In period text -> ~ In dquote text -> ~ In lt_sign text ->
  exists sentences,
    split_into_sentences text = Ok sentences /\
    length sentences =
    count_marks text + (if has_text (last (cut text) []) then 1 else 0).
Proof.
  intros Hp Hq Hl. rewrite without_periods_form by assumption.
  eexists. split; [reflexivity|].
  set (t := pass_newlines (pad text)).
  rewrite drop_empty_last_length
    by (intros E; apply map_eq_nil in E; now apply cut_nonempty in E).
  change [] with (strip []) at 1. rewrite last_map_str.
  rewrite length_map, length_cut.
  unfold t. rewrite count_marks_padded, <- last_cut_padded. fold t.
  destruct (strip (last (cut t) [])) eqn:E.
  - apply strip_nil_iff, has_text_spaces in E. rewrite E. lia.
  - destruct (has_text (last (cut t) [])) eqn:F; [lia|].
    apply has_text_spaces, strip_nil_iff in F. congruence.
Qed.

Lemma sentence_count_without_periods_witness :
  exists sentences,
    split_into_sentences (utf8 " Hei! Mitä kuuluu? Hyvää") = Ok sentences /\
    length sentences = 3.
Proof.
  apply (sentence_count_without_periods (utf8 " Hei! Mitä kuuluu? Hyvää"));
    vm_compute; intuition discriminate.
Defined.

(** ** Further properties of [generate_keywords] *)

Section SampleMultiset.

Variable rng : nat -> nat.

(** What is drawn and what is left make up the pool. *)
Lemma sample_go_perm (A : Type) (k : nat) :
  forall (pool : list A) (i : nat),
    exists rest, Permutation (sample_go rng pool i k ++ rest) pool.
Proof.
  induction k as [|k IH]; intros pool i.
  - exists pool. apply Permutation_refl.
  - destruct pool as [|d pool]; [exists []; constructor|].
    cbn [sample_go]. set (l := d :: pool).
    set (j := rng i mod length l).
    assert (Hj : j < length l) by (apply Nat.mod_upper_bound; discriminate).
    destruct (IH (remove_nth j l) (S i)) as (rest & Hrest).
    exists rest. simpl.
    eapply Permutation_trans; [apply perm_skip, Hrest|].
    pose proof (Permutation_middle (firstn j l) (skipn (S j) l) (nth j l d))
      as E.
    rewrite <- (nth_split_at _ l j d Hj) in E. exact E.
Qed.

End SampleMultiset.

(** The keywords returned, together with words not returned, are a
    rearrangement of the word list: no word comes back more often than
    the list has it, and asking for as many keywords as the list has
    entries returns the whole list rearranged. *)
Theorem generate_keywords_multiset
  (rng : nat -> nat) (n : Z) (keywords : list str) :
  generate_keywords rng n = Ok keywords ->
  (exists rest, Permutation (keywords ++ rest) WORD_LIST) /\
  (forall w, count_occ (list_eq_dec N.eq_dec) keywords w <=
             count_occ (list_eq_dec N.eq_dec) WORD_LIST w) /\
  (n = Z.of_nat (length WORD_LIST) -> Permutation keywords WORD_LIST).
Proof.
  unfold generate_keywords, sample.
  destruct ((n <? 0)%Z || (Z.of_nat (length WORD_LIST) <? n)%Z) eqn:E;
    [discriminate|].
  intros H. inversion H as [Hk]. clear H. subst keywords.
  apply orb_false_iff in E as [E1 E2].
  apply Z.ltb_ge in E1, E2.
  destruct (sample_go_perm rng _ (Z.to_nat n) WORD_LIST 0) as (rest & Hp).
  split; [now exists rest|]. split.
  - intros w.
    pose proof (proj1 (Permutation_count_occ (list_eq_dec N.eq_dec) _ _)
                  Hp w) as C.
    rewrite count_occ_app in C. rewrite <- C. apply Nat.le_add_r.
  - intros ->. 
    destruct (sample_positions rng _ WORD_LIST []
                (Z.to_nat (Z.of_nat (length WORD_LIST))))
      as (positions & Heq & Hlen & _); [lia|].
    pose proof (Permutation_length Hp) as L.
    rewrite length_app, Heq, length_map, Hlen in L.
    assert (rest = []) by (destruct rest; [reflexivity|simpl in L; lia]).
    subst rest. now rewrite app_nil_r in Hp.
Qed.

Lemma generate_keywords_multiset_witness :
  (exists rest,
      Permutation ([nth 0 WORD_LIST []; nth 1 WORD_LIST []] ++ rest)
        WORD_LIST) /\
  (forall w, count_occ (list_eq_dec N.eq_dec)
               [nth 0 WORD_LIST []; nth 1 WORD_LIST []] w <=
             count_occ (list_eq_dec N.eq_dec) WORD_LIST w) /\
  (2%Z = Z.of_nat (length WORD_LIST) ->
   Permutation [nth 0 WORD_LIST []; nth 1 WORD_LIST []] WORD_LIST).
Proof.
  apply (generate_keywords_multiset (fun _ => 0) 2). reflexivity.
Defined.

(** ** Properties of [count_words] *)

Section WordCount.

Variable is_alnum : char -> bool.

Lemma tokenize_word_cons (c : char) (s : str) :
  is_word is_alnum c = true -> tokenize is_alnum (c :: s) <> [].
Proof.
  intros H. cbn [tokenize]. rewrite H.
  destruct s as [|d s]; [discriminate|].
  destruct (tokenize is_alnum (d :: s)); [discriminate|].
  destruct (is_word is_alnum d); discriminate.
Qed.

Lemma tokenize_sep_cons (c : char) (s : str) :
  is_word is_alnum c = false ->
  tokenize is_alnum (c :: s) = tokenize is_alnum s.
Proof. intros H. cbn [tokenize]. now rewrite H. Qed.

(** A character that is no word character separates the words on its
    two sides. *)
Lemma tokenize_app_sep (a b : str) (c : char) :
  is_word is_alnum c = false ->
  tokenize is_alnum (a ++ c :: b) = tokenize is_alnum a ++ tokenize is_alnum b.
Proof.
  intros Hc. induction a as [|x a IH].
  - now apply tokenize_sep_cons.
  - change ((x :: a) ++ c :: b) with (x :: (a ++ c :: b)).
    cbn [tokenize]. rewrite IH.
    destruct (is_word is_alnum x); [|reflexivity].
    destruct a as [|d a].
    + cbn [app]. rewrite Hc. cbn [tokenize app].
      now destruct (tokenize is_alnum b).
    + cbn [app]. destruct (is_word is_alnum d) eqn:D.
      * pose proof (tokenize_word_cons d a D) as K.
        destruct (tokenize is_alnum (d :: a)) as [|t ts]; [congruence|].
        reflexivity.
      * destruct (tokenize is_alnum (d :: a)) as [|t ts]; cbn [app];
          [now destruct (tokenize is_alnum b)|reflexivity].
Qed.

Lemma tokenize_none (s : str) :
  tokenize is_alnum s = [] <->
  forallb (fun c => negb (is_word is_alnum c)) s = true.
Proof.
  induction s as [|c s IH]; [now split|].
  cbn [forallb]. destruct (is_word is_alnum c) eqn:E; cbn [negb andb].
  - split; [|discriminate]. intros H.
    now apply (tokenize_word_cons c s E) in H.
  - now rewrite tokenize_sep_cons.
Qed.

Lemma count_words_bound_aux (s : str) :
  2 * count_words is_alnum s <=
  length s + match s with
             | c :: _ => if is_word is_alnum c then 1 else 0
             | [] => 0
             end.
Proof.
  unfold count_words. induction s as [|x s IH]; [simpl; lia|].
  cbn [tokenize]. destruct (is_word is_alnum x) eqn:X.
  - destruct s as [|d s]; [simpl; lia|].
    destruct (is_word is_alnum d) eqn:D.
    + pose proof (tokenize_word_cons d s D) as K.
      destruct (tokenize is_alnum (d :: s)) as [|t ts]; [congruence|].
      simpl in *. lia.
    + destruct (tokenize is_alnum (d :: s)) as [|t ts]; simpl in *; lia.
  - destruct s as [|d s]; [simpl in *; lia|].
    destruct (is_word is_alnum d); simpl in *; lia.
Qed.

End WordCount.

(** [count_words] is 0 exactly for the texts without a word character
    (the empty text among them). *)
Theorem count_words_zero_iff (is_alnum : char -> bool) (text : str) :
  count_words is_alnum text = 0 <->
  forallb (fun c => negb (is_word is_alnum c)) text = true.
Proof.
  unfold count_words. rewrite <- tokenize_none.
  split; [apply length_zero_iff_nil|now intros ->].
Qed.

(** Across a character that is no word character the counts add up. *)
Theorem count_words_app_sep (is_alnum : char -> bool) (a b : str) (c : char) :
  is_word is_alnum c = false ->
  count_words is_alnum (a ++ c :: b) =
  count_words is_alnum a + count_words is_alnum b.
Proof.
  intros H. unfold count_words.
  now rewrite tokenize_app_sep, length_app.
Qed.

Lemma count_words_app_sep_witness :
  count_words (fun c => (97 <=? c)%N && (c <=? 122)%N)
    (utf8 "kaksi" ++ chr " " :: utf8 "sanaa") =
  count_words (fun c => (97 <=? c)%N && (c <=? 122)%N) (utf8 "kaksi") +
  count_words (fun c => (97 <=? c)%N && (c <=? 122)%N) (utf8 "sanaa").
Proof.
  apply (count_words_app_sep (fun c => (97 <=? c)%N && (c <=? 122)%N)).
  reflexivity.
Defined.

(** Words need a character between them: [n] words take at least
    [2n - 1] characters. *)
Theorem count_words_bound (is_alnum : char -> bool) (text : str) :
  2 * count_words is_alnum text <= length text + 1.
Proof.
  pose proof (count_words_bound_aux is_alnum text) as H.
  destruct text as [|c s]; [simpl in *; lia|].
  destruct (is_word is_alnum c); lia.
Qed.

(** ** The table of language codes *)

Section Table.

Lemma distinct_NoDup (l : list str) : distinct l = true -> NoDup l.
Proof.
  induction l as [|x l IH]; simpl; intros H; constructor.
  - apply andb_true_iff in H as [H _]. apply negb_true_iff in H.
    intros Hin. assert (K : existsb
      (fun y => if list_eq_dec N.eq_dec x y then true else false) l = true).
    { apply existsb_exists. exists x. split; [exact Hin|].
      now destruct (list_eq_dec N.eq_dec x x). }
    congruence.
  - apply andb_true_iff in H as [_ H]. now apply IH.
Qed.

Lemma lookup_In (table : list (str * str)) (code name : str) :
  lookup table code = Some name -> In (code, name) table.
Proof.
  induction table as [|[k v] table IH]; simpl; [discriminate|].
  destruct (list_eq_dec N.eq_dec k code) as [->|_].
  - intros [= ->]. now left.
  - intros H. right. now apply IH.
Qed.

Lemma In_lookup (table : list (str * str)) (code name : str) :
  NoDup (map fst table) -> In (code, name) table ->
  lookup table code = Some name.
Proof.
  induction table as [|[k v] table IH]; simpl; intros Hn Hin; [contradiction|].
  inversion Hn as [|? ? Hk Hn']; subst.
  destruct Hin as [E|Hin].
  - inversion E; subst. now destruct (list_eq_dec N.eq_dec code code).
  - destruct (list_eq_dec N.eq_dec k code) as [->|_]; [|now apply IH].
    exfalso. apply Hk. apply in_map_iff. now exists (code, name).
Qed.

Lemma values_identify (table : list (str * str)) (c1 c2 name : str) :
  NoDup (map snd table) ->
  In (c1, name) table -> In (c2, name) table -> c1 = c2.
Proof.
  induction table as [|[k v] table IH]; simpl; intros Hn H1 H2;
    [contradiction|].
  inversion Hn as [|? ? Hv Hn']; subst.
  assert (K : forall c, In (c, v) table -> False).
  { intros c Hc. apply Hv. apply in_map_iff. now exists (c, v). }
  destruct H1 as [E1|H1], H2 as [E2|H2].
  - congruence.
  - inversion E1; subst. exfalso. eapply K; eauto.
  - inversion E2; subst. exfalso. eapply K; eauto.
  - eauto.
Qed.

End Table.

(** The table lists 30 codes, each once, so no entry hides another:
    a pair is found by its code exactly when the table lists it; and
    no two codes share a name. *)
Theorem language_codes_one_to_one :
  length LANGUAGE_CODES = 30 /\
  (forall code name,
      lookup LANGUAGE_CODES code = Some name <->
      In (code, name) LANGUAGE_CODES) /\
  (forall c1 c2 name,
      lookup LANGUAGE_CODES c1 = Some name ->
      lookup LANGUAGE_CODES c2 = Some name -> c1 = c2).
Proof.
  assert (K : NoDup (map fst LANGUAGE_CODES))
    by (apply distinct_NoDup; vm_compute; reflexivity).
  assert (V : NoDup (map snd LANGUAGE_CODES))
    by (apply distinct_NoDup; vm_compute; reflexivity).
  split; [reflexivity|]. split.
  - intros code name. split; [apply lookup_In|now apply In_lookup].
  - intros c1 c2 name H1 H2.
    apply (values_identify LANGUAGE_CODES c1 c2 name V); now apply lookup_In.
Qed.

(** ** What the function never touches *)

Section Untouched.

Variable keep : char -> bool.
Hypothesis keep_ok : untouched keep.

Lemma keep_space (c : char) : is_space c = true -> keep c = false.
Proof. destruct keep_ok as (H & _). apply H. Qed.

Lemma keep_period : keep period = false.
Proof. destruct keep_ok as (_ & H & _). exact H. Qed.

Lemma keep_marker (c : char) : In c (prd ++ stop) -> keep c = false.
Proof. destruct keep_ok as (_ & _ & H & _). apply H. Qed.

Lemma filter_none (m : str) :
  (forall c, In c m -> keep c = false) -> filter keep m = [].
Proof.
  induction m as [|c m IH]; intros H; [reflexivity|].
  simpl. rewrite (H c (or_introl eq_refl)). apply IH.
  intros d Hd. apply H. now right.
Qed.

Lemma keep_prd : filter keep prd = [].
Proof.
  apply filter_none. intros c Hc. apply keep_marker. apply in_or_app. now left.
Qed.

Lemma keep_stop : filter keep stop = [].
Proof.
  apply filter_none. intros c Hc. apply keep_marker. apply in_or_app. now right.
Qed.

Lemma filter_spaces (w : str) :
  forallb is_space w = true -> filter keep w = [].
Proof.
  intros H. apply filter_none. intros c Hc.
  apply keep_space. rewrite forallb_forall in H. now apply H.
Qed.

(** Writing markers takes no kept character away and adds none. *)
Lemma Rw_filter (a a' : str) : Rw a a' -> filter keep a = filter keep a'.
Proof.
  induction 1 as [|c a a' H IH|a a' H IH|a a' H IH|c a a' Hc H IH
                 |w a a' Hw H IH|w w' a a' Hw Hw' H IH].
  - reflexivity.
  - simpl. now rewrite IH.
  - rewrite filter_app, keep_prd. cbn [filter app]. now rewrite keep_period.
  - rewrite !filter_app, keep_prd, keep_stop. cbn [filter app].
    now rewrite keep_period.
  - change (c :: stop ++ a') with ([c] ++ stop ++ a').
    rewrite !filter_app, keep_stop. simpl. rewrite IH.
    now destruct (keep c).
  - rewrite filter_app, keep_stop. simpl. now rewrite IH.
  - simpl. now rewrite (keep_space w Hw), (keep_space w' Hw').
Qed.

Lemma replace_go_filter (old new : str) :
  old <> [] -> filter keep old = filter keep new ->
  forall s skip,
    filter keep (replace_go old new s skip) = filter keep (skipn skip s).
Proof.
  intros Hne HR. induction s as [|c s IH]; intros skip.
  - now rewrite skipn_nil.
  - destruct skip as [|k]; [|apply IH].
    cbn [skipn replace_go].
    destruct (starts_with old (c :: s)) eqn:E.
    + apply starts_with_inv in E as [r E].
      destruct old as [|c0 o]; [congruence|]. simpl in E.
      inversion E; subst c0 s.
      change (c :: o ++ r) with ((c :: o) ++ r).
      rewrite !filter_app, <- HR. f_equal.
      replace (length (c :: o) - 1) with (length o) by (simpl; lia).
      rewrite (IH (length o)).
      now rewrite skipn_app, skipn_all, Nat.sub_diag.
    + simpl. now rewrite (IH 0).
Qed.

Lemma replace_filter (old new s : str) :
  old <> [] -> filter keep old = filter keep new ->
  filter keep (replace old new s) = filter keep s.
Proof. intros H1 H2. exact (replace_go_filter old new H1 H2 s 0). Qed.

Lemma sub_go_filter (r : regex) (rp : repl) :
  (forall s m s' cs,
      In (m, s', cs) (rmatch r 0 s []) ->
      m <> [] /\ filter keep (apply_repl rp m cs) = filter keep m) ->
  forall s skip,
    filter keep (sub_go r rp s skip) = filter keep (skipn skip s).
Proof.
  intros Hm. induction s as [|c s IH]; intros skip.
  - now rewrite skipn_nil.
  - destruct skip as [|k]; [|apply IH].
    cbn [skipn sub_go].
    destruct (match_at r (c :: s)) as [[[m s'] cs]|] eqn:E.
    + apply match_at_in in E. destruct (Hm _ _ _ _ E) as [Hne HR].
      apply rmatch_inv in E as [Heq _].
      destruct m as [|c0 m]; [congruence|]. simpl in Heq.
      inversion Heq; subst c0 s.
      change (c :: m ++ s') with ((c :: m) ++ s').
      rewrite !filter_app, HR. f_equal.
      replace (length (c :: m) - 1) with (length m) by (simpl; lia).
      rewrite (IH (length m)).
      now rewrite skipn_app, skipn_all, Nat.sub_diag.
    + simpl. now rewrite (IH 0).
Qed.

(** The rule that drops the period between a suffix and a starter
    drops nothing else. *)
Lemma pass_suffix_starter_filter (t t' : str) :
  pass_suffix_starter t = Ok t' -> filter keep t' = filter keep t.
Proof.
  intros H. unfold pass_suffix_starter in H. apply sub_ok_inv in H. subst t'.
  refine (sub_go_filter _ _ _ t 0).
  intros s m s' cs H.
  unfold _STARTERS, _SUFFIXES, dot in H.
  shape; groups. split; [nonempty|].
  match goal with
  | |- filter keep (_ :: ?a ++ stop ++ _ :: ?b) = _ =>
      change (filter keep ([chr " "] ++ a ++ stop ++ [chr " "] ++ b) =
              filter keep ([chr " "] ++ a ++ [period] ++ [chr " "] ++ b))
  end.
  rewrite !filter_app, keep_stop. f_equal. f_equal.
  simpl. now rewrite keep_period.
Qed.

Lemma pass_quotes_filter (t : str) :
  filter keep (pass_quotes t) = filter keep t.
Proof.
  destruct keep_ok as (_ & Hp & _ & Hq).
  assert (Q1 : forall s, filter keep (swap_curly_dot s) = filter keep s).
  { intros s. unfold swap_curly_dot. destruct (contains _ s); [|reflexivity].
    apply replace_filter; [discriminate|].
    cbn [filter]. change (chr ".") with period.
    now rewrite Hp. }
  assert (Q2 : forall s, filter keep (swap_straight_dot s) = filter keep s).
  { intros s. unfold swap_straight_dot.
    destruct (contains _ s); [|reflexivity].
    apply replace_filter; [discriminate|].
    cbn [filter]. change (chr ".") with period.
    now rewrite Hp. }
  assert (Q3 : forall s, filter keep (swap_straight_bang s) = filter keep s).
  { intros s. unfold swap_straight_bang.
    destruct (contains _ s); [|reflexivity].
    apply replace_filter; [discriminate|].
    cbn [filter]. destruct Hq as [Hq|[Hq _]]; rewrite Hq;
      now destruct (keep _). }
  assert (Q4 : forall s, filter keep (swap_straight_qmark s) = filter keep s).
  { intros s. unfold swap_straight_qmark.
    destruct (contains _ s); [|reflexivity].
    apply replace_filter; [discriminate|].
    cbn [filter]. destruct Hq as [Hq|[_ Hq]]; rewrite Hq;
      now destruct (keep _). }
  unfold pass_quotes. now rewrite Q4, Q3, Q2, Q1.
Qed.

Lemma protect_filter (t t' : str) :
  protect t = Ok t' -> filter keep t' = filter keep t.
Proof.
  unfold protect. intros H.
  repeat match type of H with
         | bind ?m _ = Ok _ =>
             let E := fresh "E" in
             destruct m eqn:E; [cbn [bind] in H|discriminate]
         end.
  apply pass_letter_Rw, Rw_filter in H.
  apply pass_suffix_Rw, Rw_filter in E8.
  apply pass_suffix_starter_filter in E7.
  apply pass_abbrev2_Rw, Rw_filter in E6.
  apply pass_abbrev3_Rw, Rw_filter in E5.
  apply pass_acronym_starter_Rw, Rw_filter in E4.
  apply pass_initial_Rw, Rw_filter in E3.
  pose proof (Rw_filter _ _ (pass_phd_Rw a2)) as P.
  apply pass_ellipsis_Rw, Rw_filter in E2.
  apply pass_digits_Rw, Rw_filter in E1.
  apply pass_websites_Rw, Rw_filter in E0.
  apply pass_prefixes_Rw, Rw_filter in E.
  congruence.
Qed.

Lemma split_go_filter (s : str) :
  forall skip,
    filter keep (concat (split_go stop s skip)) = filter keep (skipn skip s).
Proof.
  induction s as [|c s IH]; intros skip.
  - now rewrite skipn_nil.
  - destruct skip as [|k]; [|apply IH].
    cbn [skipn split_go].
    destruct (starts_with stop (c :: s)) eqn:E.
    + apply starts_with_inv in E as [r E].
      cbn [concat app]. rewrite (IH (length stop - 1)).
      rewrite E, filter_app, keep_stop. simpl in E. inversion E; subst.
      reflexivity.
    + pose proof (split_go_nonempty stop s 0) as N.
      specialize (IH 0). simpl skipn in IH.
      destruct (split_go stop s 0) as [|piece rest]; [congruence|].
      simpl in *. now rewrite IH.
Qed.

Lemma strip_filter (s : str) : filter keep (strip s) = filter keep s.
Proof.
  destruct (strip_decomp s) as (w1 & w2 & Hs & H1 & H2).
  rewrite Hs at 2.
  rewrite !filter_app, (filter_spaces w1 H1), (filter_spaces w2 H2).
  now rewrite app_nil_r.
Qed.

Lemma concat_strip_filter (l : list str) :
  filter keep (concat (map strip l)) = filter keep (concat l).
Proof.
  induction l as [|s l IH]; [reflexivity|].
  simpl. now rewrite !filter_app, strip_filter, IH.
Qed.

Lemma drop_empty_last_pieces (l : list str) :
  concat (drop_empty_last l) = concat l.
Proof.
  unfold drop_empty_last. destruct (rev l) as [|[|c x] r] eqn:E;
    try reflexivity.
  apply (f_equal (@rev str)) in E. rewrite rev_involutive in E. subst l.
  simpl. now rewrite concat_app, app_nil_r.
Qed.

Lemma mark_filter (s : str) :
  filter keep (flat_map with_boundary s) = filter keep s.
Proof.
  induction s as [|c s IH]; [reflexivity|].
  cbn [flat_map]. rewrite filter_app, IH. unfold with_boundary.
  destruct (terminal c).
  - change (c :: stop) with ([c] ++ stop).
    rewrite filter_app, keep_stop, app_nil_r.
    simpl. now destruct (keep c).
  - simpl. now destruct (keep c).
Qed.

Lemma finish_filter (s : str) :
  filter keep (concat (finish s)) = filter keep s.
Proof.
  unfold finish. rewrite drop_empty_last_pieces, concat_strip_filter.
  apply (split_go_filter s 0).
Qed.

Lemma sentences_filter (text : str) (sentences : list str) :
  split_into_sentences text = Ok sentences ->
  filter keep (concat sentences) = filter keep text.
Proof.
  unfold split_into_sentences. intros H.
  destruct (protect _) as [t|] eqn:E; [|discriminate].
  cbn [bind] in H. inversion H; subst sentences. clear H.
  apply protect_filter in E.
  rewrite finish_filter. unfold restore.
  rewrite replace_filter;
    [|discriminate
     |rewrite keep_prd; change (utf8 ".") with [period]; cbn [filter];
      now rewrite keep_period].
  rewrite mark_boundaries_flat_map, mark_filter.
  rewrite pass_quotes_filter, E.
  unfold pass_newlines. rewrite replace_filter.
  - unfold pad. rewrite !filter_app.
    rewrite (filter_spaces (utf8 " ") eq_refl).
    rewrite (filter_spaces (utf8 "  ") eq_refl). now rewrite app_nil_r.
  - discriminate.
  - simpl. now rewrite !keep_space.
Qed.

End Untouched.

(** Whatever the text, the sentences hold its characters other than
    whitespace, periods and the letters of the markers, in the order of
    the text: none of them is lost, added or moved. *)
Theorem split_keeps_characters
  (keep : char -> bool) (text : str) (sentences : list str) :
  untouched keep ->
  split_into_sentences text = Ok sentences ->
  filter keep (concat sentences) = filter keep text.
Proof. intros Hk. now apply sentences_filter. Qed.

Section MarksCounted.

Lemma marks_untouched : untouched is_mark.
Proof.
  repeat split.
  - intros c Hc. unfold is_mark.
    destruct (N.eqb_spec c (chr "!")) as [->|_]; [discriminate|].
    destruct (N.eqb_spec c (chr "?")) as [->|_]; [discriminate|].
    reflexivity.
  - intros c Hc. simpl in Hc.
    repeat (destruct Hc as [<-|Hc]; [reflexivity|]). contradiction.
  - now left.
Qed.

Lemma is_mark_cases (c : char) :
  is_mark c = true -> c = chr "!" \/ c = chr "?".
Proof.
  unfold is_mark. intros H. apply orb_true_iff in H as [H|H];
    apply N.eqb_eq in H; auto.
Qed.

(** A sentence that goes on behind no mark has one mark or none. *)
Lemma ends_only_count (s : str) :
  ends_only (chr "!") s -> ends_only (chr "?") s ->
  count_marks s = if ends_with_mark s then 1 else 0.
Proof.
  intros H1 H2. destruct (rev s) as [|x r] eqn:E.
  - apply (f_equal (@rev char)) in E. rewrite rev_involutive in E.
    subst s. reflexivity.
  - unfold ends_with_mark. rewrite E.
    apply (f_equal (@rev char)) in E. rewrite rev_involutive in E.
    simpl in E. subst s.
    assert (K : filter is_mark (rev r) = []).
    { apply filter_none. intros c Hc.
      destruct (is_mark c) eqn:Em; [|reflexivity]. exfalso.
      apply in_split in Hc as (a & b & Hc).
      assert (F : b ++ [x] = []).
      { apply is_mark_cases in Em as [->| ->];
          [apply (H1 a)|apply (H2 a)];
          rewrite Hc, <- app_assoc; reflexivity. }
      now destruct b. }
    unfold count_marks. change (fun c => ((c =? chr "!") || (c =? chr "?"))%N)
      with is_mark.
    rewrite filter_app, K. simpl. now destruct (is_mark x).
Qed.

Lemma count_marks_app (a b : str) :
  count_marks (a ++ b) = count_marks a + count_marks b.
Proof. unfold count_marks. now rewrite filter_app, length_app. Qed.

Lemma count_marks_concat (l : list str) :
  Forall (fun s => ends_only (chr "!") s /\ ends_only (chr "?") s) l ->
  count_marks (concat l) = length (filter ends_with_mark l).
Proof.
  induction 1 as [|s l [H1 H2] _ IH]; [reflexivity|].
  cbn [concat filter]. rewrite count_marks_app, IH, (ends_only_count s H1 H2).
  now destruct (ends_with_mark s).
Qed.

Lemma finish_ends_only (u : str) :
  Forall (fun s => ends_only (chr "!") s /\ ends_only (chr "?") s)
    (finish (restore (mark_boundaries u))).
Proof.
  unfold finish. apply drop_empty_last_forall, Forall_map.
  assert (K : forall c, c = chr "!" \/ c = chr "?" ->
                Forall (ends_only c)
                  (split stop (restore (mark_boundaries u)))).
  { intros c Hc. apply (ends_only_split c).
    apply (followed_restore c Hc). apply (followed_mark_boundaries c Hc). }
  pose proof (K (chr "!") (or_introl eq_refl)) as K1.
  pose proof (K (chr "?") (or_intror eq_refl)) as K2.
  rewrite Forall_forall in *. intros s Hs.
  split; apply ends_only_strip; auto.
Qed.

End MarksCounted.

Lemma split_keeps_characters_witness :
  filter is_mark (concat [utf8 "Nokia Oy"; utf8 "Hän tuli!"]) =
  filter is_mark (utf8 "Nokia Oy. Hän tuli!").
Proof.
  apply (split_keeps_characters is_mark (utf8 "Nokia Oy. Hän tuli!")).
  - exact marks_untouched.
  - vm_compute. reflexivity.
Defined.

(** Whatever the text, as many of the sentences end with '!' or '?' as
    the text has of these marks: each of them ends a sentence of its
    own. *)
Theorem marks_counted (text : str) :
  exists sentences,
    split_into_sentences text = Ok sentences /\
    length (filter ends_with_mark sentences) = count_marks text.
Proof.
  destruct (split_into_sentences text) as [sentences|e] eqn:E.
  - exists sentences. split; [reflexivity|].
    pose proof (sentences_filter is_mark marks_untouched text sentences E) as F.
    unfold split_into_sentences in E.
    destruct (protect _) as [t|]; [|discriminate].
    cbn [bind] in E. inversion E as [Hs].
    rewrite <- (count_marks_concat _ (finish_ends_only (pass_quotes t))).
    rewrite Hs. exact (f_equal (@length char) F).
  - exfalso. unfold split_into_sentences in E.
    destruct (protect_total (pass_newlines (pad text))) as [t Ht].
    rewrite Ht in E. discriminate.
Qed.

Section Tokens.

Variable is_alnum : char -> bool.

Lemma tokenize_concat (s : str) :
  concat (tokenize is_alnum s) = filter (is_word is_alnum) s.
Proof.
  induction s as [|c s IH]; [reflexivity|].
  cbn [tokenize filter]. destruct (is_word is_alnum c) eqn:C; [|exact IH].
  destruct s as [|d s]; [reflexivity|].
  destruct (tokenize is_alnum (d :: s)) as [|t ts] eqn:T.
  - rewrite <- IH. reflexivity.
  - rewrite <- IH. now destruct (is_word is_alnum d).
Qed.

Lemma tokenize_nonempty (s : str) :
  Forall (fun t => t <> []) (tokenize is_alnum s).
Proof.
  induction s as [|c s IH]; [constructor|].
  cbn [tokenize]. destruct (is_word is_alnum c); [|exact IH].
  destruct s as [|d s]; [repeat constructor; discriminate|].
  destruct (tokenize is_alnum (d :: s)) as [|t ts].
  - repeat constructor; discriminate.
  - inversion IH; subst.
    destruct (is_word is_alnum d); constructor;
      try discriminate; try assumption.
Qed.

End Tokens.

(** The words counted are the word characters of the text, cut into
    non-empty runs: put together they are the text without its other
    characters, so each word is made of word characters only. *)
Theorem words_are_word_characters (is_alnum : char -> bool) (text : str) :
  concat (tokenize is_alnum text) = filter (is_word is_alnum) text /\
  Forall (fun t => t <> [] /\ forallb (is_word is_alnum) t = true)
    (tokenize is_alnum text).
Proof.
  split; [apply tokenize_concat|].
  pose proof (tokenize_concat is_alnum text) as C.
  pose proof (tokenize_nonempty is_alnum text) as N.
  apply Forall_forall. intros t Ht. split.
  - rewrite Forall_forall in N. now apply N.
  - apply forallb_forall. intros c Hc.
    assert (K : In c (filter (is_word is_alnum) text)).
    { rewrite <- C. apply in_concat. now exists t. }
    now apply filter_In in K.
Qed.

Section Runs.

Variable is_alnum : char -> bool.

Lemma tokenize_run (w : str) :
  w <> [] -> forallb (is_word is_alnum) w = true ->
  tokenize is_alnum w = [w].
Proof.
  induction w as [|c w IH]; intros Hne Hw; [congruence|].
  cbn [forallb] in Hw. apply andb_true_iff in Hw as [Hc Hw].
  cbn [tokenize]. rewrite Hc. destruct w as [|d w]; [reflexivity|].
  rewrite IH; [|discriminate|exact Hw].
  cbn [forallb] in Hw. apply andb_true_iff in Hw as [Hd _].
  now rewrite Hd.
Qed.

End Runs.

(** A non-empty run of word characters is one word, up to the next
    character that is none: the words are the longest such runs. *)
Theorem word_runs_are_tokens
  (is_alnum : char -> bool) (w rest : str) (c : char) :
  w <> [] -> forallb (is_word is_alnum) w = true ->
  is_word is_alnum c = false ->
  tokenize is_alnum w = [w] /\
  tokenize is_alnum (w ++ c :: rest) = w :: tokenize is_alnum rest.
Proof.
  intros Hne Hw Hc. split; [now apply tokenize_run|].
  rewrite (tokenize_app_sep is_alnum w rest c Hc).
  now rewrite tokenize_run.
Qed.

Lemma word_runs_are_tokens_witness :
  tokenize (fun c => (97 <=? c)%N && (c <=? 122)%N) (utf8 "kaksi") =
  [utf8 "kaksi"] /\
  tokenize (fun c => (97 <=? c)%N && (c <=? 122)%N)
    (utf8 "kaksi" ++ chr "," :: utf8 " sanaa") =
  utf8 "kaksi" ::
    tokenize (fun c => (97 <=? c)%N && (c <=? 122)%N) (utf8 " sanaa").
Proof.
  apply (word_runs_are_tokens (fun c => (97 <=? c)%N && (c <=? 122)%N)
           (utf8 "kaksi") (utf8 " sanaa") (chr ","));
    [discriminate|reflexivity|reflexivity].
Defined.
